(** * discord-chat-node: history store and history file, response splitter,
    Gemini history compaction, proactive scheduler and the per-turn
    pipeline.

    A shallow embedding of the JavaScript sources.  A JavaScript string is
    the sequence of its UTF-16 code units; a [Map] keyed by strings is a
    [gmap]; arrays are lists; module-level mutable variables are threaded
    through explicitly as state. *)

From stdpp Require Import gmap strings list.
From Stdlib Require Import ZArith NArith QArith Qround Lqa.

Local Open Scope Z_scope.
Local Open Scope nat_scope.

(** A JavaScript string: its UTF-16 code units. *)
Abbreviation jsstring := (list N).

(** ** The JavaScript string primitives the sources call *)
Module JS.

(** A literal: every character of the (Latin-1) literal is one code unit. *)
Definition str (s : string) : jsstring :=
  Ascii.N_of_ascii <$> String.list_ascii_of_string s.

(** ECMAScript WhiteSpace and LineTerminator code points, the set that
    [String.prototype.trim] and the regular expression class [\s] use. *)
Definition isWhiteSpace (c : N) : bool :=
  ((9 <=? c) && (c <=? 13) || (c =? 32) || (c =? 160) || (c =? 5760)
   || ((8192 <=? c) && (c <=? 8202)) || (c =? 8232) || (c =? 8233)
   || (c =? 8239) || (c =? 8287) || (c =? 12288) || (c =? 65279))%N.

Fixpoint trimStart (s : jsstring) : jsstring :=
  match s with
  | c :: r => if isWhiteSpace c then trimStart r else s
  | [] => []
  end.

Definition trimEnd (s : jsstring) : jsstring :=
  reverse (trimStart (reverse s)).

Definition trim (s : jsstring) : jsstring := trimEnd (trimStart s).

(** [s.substring(a, b)]: both indices are clamped to the length and
    swapped when [a > b]. *)
Definition substring (s : jsstring) (a b : nat) : jsstring :=
  let a' := a `min` length s in
  let b' := b `min` length s in
  take (a' `max` b' - a' `min` b') (drop (a' `min` b') s).

(** [arr.slice(start)] for an integer [start]: a negative [start] counts
    from the end. *)
Definition slice {A} (l : list A) (start : Z) : list A :=
  if (start <? 0)%Z
  then drop (Z.to_nat (Z.max (Z.of_nat (length l) + start) 0)) l
  else drop (Z.to_nat start) l.

(** [s.startsWith(p)] *)
Fixpoint startsWith (s p : jsstring) {struct p} : bool :=
  match p, s with
  | [], _ => true
  | _ :: _, [] => false
  | a :: p', b :: s' => (a =? b)%N && startsWith s' p'
  end.

(** [s.includes(p)] *)
Fixpoint includes (s p : jsstring) : bool :=
  startsWith s p ||
  match s with
  | _ :: r => includes r p
  | [] => false
  end.

(** [s.split(sep)] for a separator string; [fuel] bounds the pieces still to
    cut and [length s] is always enough.  An empty separator cuts between
    all code units. *)
Fixpoint splitFrom (fuel : nat) (sep acc s : jsstring) : list jsstring :=
  match fuel, s with
  | _, [] => [acc]
  | 0, _ => [acc ++ s]
  | S fuel', c :: r =>
      if (0 <? length sep) && startsWith s sep
      then acc :: splitFrom fuel' sep [] (drop (length sep) s)
      else if (length sep =? 0) && (0 <? length r)
      then (acc ++ [c]) :: splitFrom fuel' sep [] r
      else splitFrom fuel' sep (acc ++ [c]) r
  end.

Definition split (s sep : jsstring) : list jsstring :=
  match s, sep with
  | [], [] => []
  | _, _ => splitFrom (length s) sep [] s
  end.

(** [GetSubstitution] for a replacement string used with a string pattern
    (no captures): [$$] is a dollar sign, [$&] the matched text, [$`] the
    text before the match, [$'] the text after it; every other code unit,
    a lone [$] included, stands for itself. *)
Fixpoint getSubstitution (replacement matched before after : jsstring) : jsstring :=
  match replacement with
  | c :: r =>
      match r with
      | d :: r' =>
          if (c =? 36)%N then
            if (d =? 36)%N then 36%N :: getSubstitution r' matched before after
            else if (d =? 38)%N then matched ++ getSubstitution r' matched before after
            else if (d =? 96)%N then before ++ getSubstitution r' matched before after
            else if (d =? 39)%N then after ++ getSubstitution r' matched before after
            else c :: getSubstitution r matched before after
          else c :: getSubstitution r matched before after
      | [] => [c]
      end
  | [] => []
  end.

(** [parts.join(sep)] *)
Fixpoint join (sep : jsstring) (parts : list jsstring) : jsstring :=
  match parts with
  | [] => []
  | [p] => p
  | p :: rest => p ++ sep ++ join sep rest
  end.

End JS.

(** ** config.js: the settings the modelled code reads *)

(** Every field holds the value [config.js] computes from the environment.
    A string setting that may be unset is the empty string when unset (both
    are falsy); [ALLOW_SINGLE_DOT], [INCLUDE_DM_CONTEXT] and
    [REQUIRE_PREFIX_IN_DM] are read by the handler although [config.js] never
    sets them, so there they are [undefined]. *)
Record config := {
  ALLOW_PRIVATE_MESSAGES : bool;
  ONLY_THESE_DM_CHATS : option (list jsstring);   (* null when unset *)
  TARGET_CHANNEL_ID : jsstring;
  BOT_PREFIX : jsstring;
  IGNORE_PREFIX : jsstring;
  COMMAND_PREFIX : jsstring;
  REQUIRE_PREFIX_IN_DM : option bool;              (* None: undefined *)
  AI_SERVICE : jsstring;
  OLLAMA_SYSTEM_PROMPT : jsstring;
  ALLOW_EMOJIS : bool;
  ALLOW_SINGLE_DOT : bool;                         (* truthiness *)
  INCLUDE_DM_CONTEXT : bool;                       (* truthiness *)
  MULTIPLE_CHATTERS : bool;
  MESSAGE_CHUNK_SIZE : nat;
  COOLDOWN_TIME : Z;
  MAX_HISTORY_SIZE : Z;                            (* -1 unlimited, 0 one-shot *)
  MESSAGE_SPLIT_TOKEN : jsstring;
  MESSAGE_SPLIT_DELAY_MS : Z;
  ENABLE_PROACTIVE_MESSAGING : bool;
  PROACTIVE_TARGETS : list jsstring;
  PROACTIVE_MIN_INTERVAL : Z;                      (* minutes *)
  PROACTIVE_MAX_INTERVAL : Z;                      (* minutes *)
  PROACTIVE_CHANCE : Q;                            (* 0-1 probability *)
  PROACTIVE_FALLBACK_MESSAGES : list jsstring;
}.

(** The configuration of an empty environment, with private messages
    allowed. *)
Definition defaultConfig : config := {|
  ALLOW_PRIVATE_MESSAGES := true;
  ONLY_THESE_DM_CHATS := None;
  TARGET_CHANNEL_ID := [];
  BOT_PREFIX := [];
  IGNORE_PREFIX := JS.str "!ignore";
  COMMAND_PREFIX := JS.str "!ollama";
  REQUIRE_PREFIX_IN_DM := None;
  AI_SERVICE := JS.str "OLLAMA";
  OLLAMA_SYSTEM_PROMPT := [];
  ALLOW_EMOJIS := false;
  ALLOW_SINGLE_DOT := false;
  INCLUDE_DM_CONTEXT := false;
  MULTIPLE_CHATTERS := false;
  MESSAGE_CHUNK_SIZE := 1900;
  COOLDOWN_TIME := 2000;
  MAX_HISTORY_SIZE := 20;
  MESSAGE_SPLIT_TOKEN := JS.str "[NEXT_MSG]";
  MESSAGE_SPLIT_DELAY_MS := 1000;
  ENABLE_PROACTIVE_MESSAGING := false;
  PROACTIVE_TARGETS := [];
  PROACTIVE_MIN_INTERVAL := 60;
  PROACTIVE_MAX_INTERVAL := 240;
  PROACTIVE_CHANCE := 3 # 10;
  PROACTIVE_FALLBACK_MESSAGES :=
    [JS.str "Hey there! How's your day going?";
     JS.str "Just checking in. Anything you'd like to chat about?";
     JS.str "I was just thinking about something interesting. Want to hear about it?";
     JS.str "Do you have a moment to chat?";
     JS.str "Any exciting plans coming up that you'd like to share?"];
|}.

(** [defaultConfig] with another history bound. *)
Definition withHistorySize (n : Z) (cfg : config) : config := {|
  ALLOW_PRIVATE_MESSAGES := ALLOW_PRIVATE_MESSAGES cfg;
  ONLY_THESE_DM_CHATS := ONLY_THESE_DM_CHATS cfg;
  TARGET_CHANNEL_ID := TARGET_CHANNEL_ID cfg;
  BOT_PREFIX := BOT_PREFIX cfg;
  IGNORE_PREFIX := IGNORE_PREFIX cfg;
  COMMAND_PREFIX := COMMAND_PREFIX cfg;
  REQUIRE_PREFIX_IN_DM := REQUIRE_PREFIX_IN_DM cfg;
  AI_SERVICE := AI_SERVICE cfg;
  OLLAMA_SYSTEM_PROMPT := OLLAMA_SYSTEM_PROMPT cfg;
  ALLOW_EMOJIS := ALLOW_EMOJIS cfg;
  ALLOW_SINGLE_DOT := ALLOW_SINGLE_DOT cfg;
  INCLUDE_DM_CONTEXT := INCLUDE_DM_CONTEXT cfg;
  MULTIPLE_CHATTERS := MULTIPLE_CHATTERS cfg;
  MESSAGE_CHUNK_SIZE := MESSAGE_CHUNK_SIZE cfg;
  COOLDOWN_TIME := COOLDOWN_TIME cfg;
  MAX_HISTORY_SIZE := n;
  MESSAGE_SPLIT_TOKEN := MESSAGE_SPLIT_TOKEN cfg;
  MESSAGE_SPLIT_DELAY_MS := MESSAGE_SPLIT_DELAY_MS cfg;
  ENABLE_PROACTIVE_MESSAGING := ENABLE_PROACTIVE_MESSAGING cfg;
  PROACTIVE_TARGETS := PROACTIVE_TARGETS cfg;
  PROACTIVE_MIN_INTERVAL := PROACTIVE_MIN_INTERVAL cfg;
  PROACTIVE_MAX_INTERVAL := PROACTIVE_MAX_INTERVAL cfg;
  PROACTIVE_CHANCE := PROACTIVE_CHANCE cfg;
  PROACTIVE_FALLBACK_MESSAGES := PROACTIVE_FALLBACK_MESSAGES cfg;
|}.

(** ** src/utils/historyManager.js *)

(** A stored turn: [{ role, content }], with the [timestamp] that the
    proactive scheduler adds. *)
Record message := {
  role : jsstring;
  content : jsstring;
  timestamp : option jsstring;
}.

Module HistoryManager.

(** [conversationHistory]: channelId -> array of messages. *)
Abbreviation store := (gmap jsstring (list message)).

(** [conversationHistory.get(channelId) || []]; an array, even an empty
    one, is truthy, so a stored entry is returned as it is. *)
Definition getChannelHistory (h : store) (channelId : jsstring) : list message :=
  match h !! channelId with
  | Some history => history
  | None => []
  end.

Definition updateChannelHistory (h : store) (channelId : jsstring)
    (history : list message) : store :=
  <[channelId := history]> h.

Definition addMessageToHistory (cfg : config) (h : store)
    (channelId : jsstring) (messageObject : message) : store :=
  if (MAX_HISTORY_SIZE cfg =? 0)%Z then
    (* One-shot, don't store history *)
    if bool_decide (is_Some (h !! channelId)) then delete channelId h else h
  else
    let history := getChannelHistory h channelId ++ [messageObject] in
    let history :=
      if ((0 <? MAX_HISTORY_SIZE cfg)%Z
          && (MAX_HISTORY_SIZE cfg <? Z.of_nat (length history))%Z)
      then JS.slice history (Z.of_nat (length history) - MAX_HISTORY_SIZE cfg)
      else history in
    updateChannelHistory h channelId history.

(** A sequence of appends, each to its own conversation id. *)
Definition appendAll (cfg : config) (h : store)
    (appends : list (jsstring * message)) : store :=
  foldl (fun h op => addMessageToHistory cfg h op.1 op.2) h appends.

(** The turns of [appends] that were addressed to [channelId], in order. *)
Definition appendedTo (channelId : jsstring)
    (appends : list (jsstring * message)) : list message :=
  snd <$> filter (fun op => op.1 = channelId) appends.

(** The most recent [n] entries of a sequence, in their original order. *)
Definition mostRecent {A} (n : nat) (l : list A) : list A :=
  drop (length l - n) l.

End HistoryManager.

(** ** src/utils/messageUtils.js *)
Module MessageUtils.

(** The placeholder chunk ["..."]. *)
Definition placeholder : jsstring := JS.str "...".

(** [text.replace(/\r\n/g, "\n")] *)
Fixpoint normalizeNewlines (s : jsstring) : jsstring :=
  match s with
  | c :: r =>
      match r with
      | d :: r' =>
          if ((c =? 13) && (d =? 10))%N then 10%N :: normalizeNewlines r'
          else c :: normalizeNewlines r
      | [] => [c]
      end
  | [] => []
  end.

(** [s.split(/(\n)/)]: the pieces between newlines, with every newline
    kept as a piece of its own (the capture group). *)
Fixpoint splitKeepingNewlines (s : jsstring) : list jsstring :=
  match s with
  | [] => [[]]
  | c :: r =>
      if (c =? 10)%N then [] :: [10%N] :: splitKeepingNewlines r
      else match splitKeepingNewlines r with
           | p :: ps => (c :: p) :: ps
           | [] => [[c]]
           end
  end.

(** [for (let j = from; j < s.length; j += maxLength)
       out.push(s.substring(j, Math.min(j + maxLength, s.length)))].
    The loop does not end when [maxLength] is 0: [None] is the run that
    never returns. *)
Fixpoint hardSplitFrom (fuel : nat) (s : jsstring) (maxLength j : nat)
    : option (list jsstring) :=
  if j <? length s then
    match fuel with
    | 0 => None
    | S fuel' =>
        cons (JS.substring s j ((j + maxLength) `min` length s))
          <$> hardSplitFrom fuel' s maxLength (j + maxLength)
    end
  else Some [].

Definition hardSplit (s : jsstring) (maxLength : nat) : option (list jsstring) :=
  hardSplitFrom (length s) s maxLength 0.

(** One iteration of the loop over [parts]; the state is
    [(chunks, currentChunk)]. *)
Definition splitStep (maxLength : nat) (st : list jsstring * jsstring)
    (part : jsstring) : option (list jsstring * jsstring) :=
  let '(chunks, currentChunk) := st in
  let isNewlineDelimiter := bool_decide (part = [10%N]) in
  if maxLength <?
     length currentChunk + length part
     + (if (0 <? length currentChunk) && negb isNewlineDelimiter then 1 else 0)
  then
    let chunks1 :=
      if 0 <? length currentChunk then chunks ++ [JS.trim currentChunk]
      else chunks in
    if maxLength <? length part then
      (* the part itself is too long: hard split it *)
      pieces ← hardSplit part maxLength;
      Some (chunks1 ++ pieces, [])
    else Some (chunks1, part)
  else
    let currentChunk1 :=
      if (0 <? length currentChunk) && negb isNewlineDelimiter
         && (0 <? length (JS.trim part))
      then currentChunk ++ [32%N] else currentChunk in
    Some (chunks, currentChunk1 ++ part).

Fixpoint splitLoop (maxLength : nat) (parts : list jsstring)
    (st : list jsstring * jsstring) : option (list jsstring * jsstring) :=
  match parts with
  | [] => Some st
  | part :: rest => st' ← splitStep maxLength st part; splitLoop maxLength rest st'
  end.

(** The safeguard pass over [chunks] that builds [finalChunks]. *)
Fixpoint safeguard (maxLength : nat) (chunks : list jsstring)
    : option (list jsstring) :=
  match chunks with
  | [] => Some []
  | chunk :: rest =>
      these ←
        (if maxLength <? length chunk then hardSplit chunk maxLength
         else if 0 <? length (JS.trim chunk) then Some [chunk]
         else Some []);
      (these ++.) <$> safeguard maxLength rest
  end.

(** [splitMessage(text, maxLength)]; [None] when the call does not
    return. *)
Definition splitMessage (text : jsstring) (maxLength : nat)
    : option (list jsstring) :=
  if length text =? 0 then Some [placeholder]
  else
    let parts := splitKeepingNewlines (normalizeNewlines text) in
    '(chunks, currentChunk) ← splitLoop maxLength parts ([], []);
    let chunks :=
      if 0 <? length (JS.trim currentChunk)
      then chunks ++ [JS.trim currentChunk] else chunks in
    chunks ←
      (if (length chunks =? 0) && (0 <? length (JS.trim text))
       then (chunks ++.) <$> hardSplit text maxLength
       else Some chunks);
    finalChunks ← safeguard maxLength chunks;
    Some (if 0 <? length finalChunks then finalChunks else [placeholder]).

(** [text.replace(emojiRegex, "")]; the expression has no [u] flag, so it
    works on code units:
    [/(\u00a9|\u00ae|[\u2000-\u3300]|\ud83c[\ud000-\udeff]|\ud83d[\ud000-\udeff]|\ud83e[\ud000-\udeff])/g] *)
Fixpoint filterEmojis (s : jsstring) : jsstring :=
  match s with
  | c :: r =>
      if ((c =? 169) || (c =? 174) || ((8192 <=? c) && (c <=? 13056)))%N
      then filterEmojis r
      else
        match r with
        | d :: r' =>
            if (((c =? 55356) || (c =? 55357) || (c =? 55358))
                && (53248 <=? d) && (d <=? 57087))%N
            then filterEmojis r'
            else c :: filterEmojis r
        | [] => [c]
        end
  | [] => []
  end.

End MessageUtils.

(** ** Vocabulary of the response-splitter properties *)

(** A string with no visible character: empty or whitespace only. *)
Definition blank (s : jsstring) : bool := forallb JS.isWhiteSpace s.

(** A chunk that respects the maximum delivery length. *)
Definition fits (maxLength : nat) (c : jsstring) : Prop := length c ≤ maxLength.

(** The loop state [(chunks, currentChunk)] holds no piece longer than
    [maxLength]. *)
Definition state_fits (maxLength : nat) (st : list jsstring * jsstring) : Prop :=
  Forall (fits maxLength) st.1 ∧ fits maxLength st.2.

(** Some kept piece has a visible character. *)
Definition state_visible (st : list jsstring * jsstring) : Prop :=
  Exists (λ c, blank c = false) st.1 ∨ blank st.2 = false.

(** No kept piece has a visible character. *)
Definition state_blank (st : list jsstring * jsstring) : Prop :=
  Forall (λ c, blank c = true) st.1 ∧ blank st.2 = true.


(** ** src/services/geminiService.js: the history sent to Gemini *)
Module GeminiService.

(** [{ text }] *)
Record part := { text : jsstring }.

(** [{ role, parts }] *)
Record geminiMessage := { gRole : jsstring; parts : list part }.

(** [msg.role === "assistant" ? "model" : "user"] *)
Definition mapRole (r : jsstring) : jsstring :=
  if bool_decide (r = JS.str "assistant") then JS.str "model" else JS.str "user".

(** The loop state: [geminiMessages], [currentRole] ([None] is [null]) and
    [currentParts]. *)
Definition formatState : Type :=
  list geminiMessage * option jsstring * list part.

(** [if (currentRole && currentParts.length > 0) geminiMessages.push(...)];
    a role, once set, is ["user"] or ["model"], never the empty string. *)
Definition pushCurrent (geminiMessages : list geminiMessage)
    (currentRole : option jsstring) (currentParts : list part)
    : list geminiMessage :=
  match currentRole with
  | Some r =>
      if (0 <? length r) && (0 <? length currentParts)
      then geminiMessages ++ [{| gRole := r; parts := currentParts |}]
      else geminiMessages
  | None => geminiMessages
  end.

Definition formatStep (st : formatState) (msg : message) : formatState :=
  let '(geminiMessages, currentRole, currentParts) := st in
  let r := mapRole (role msg) in
  if bool_decide (currentRole = Some r) then
    (* Append to current message parts if same role *)
    (geminiMessages, currentRole, currentParts ++ [{| text := content msg |}])
  else
    (pushCurrent geminiMessages currentRole currentParts,
     Some r, [{| text := content msg |}]).

(** [part.text && part.text.trim() !== ""] *)
Definition partHasText (p : part) : bool :=
  (0 <? length (text p)) && negb (bool_decide (JS.trim (text p) = [])).

Definition formatMessagesForGemini (messages : list message) : list geminiMessage :=
  let '(geminiMessages, currentRole, currentParts) :=
    foldl formatStep ([], None, []) messages in
  let geminiMessages := pushCurrent geminiMessages currentRole currentParts in
  (* Filter out empty parts or messages, which can cause errors *)
  List.filter (fun msg => forallb partHasText (parts msg)) geminiMessages.

End GeminiService.


(** ** Turns used in the statements below *)

Definition userTurn (c : jsstring) : message :=
  {| role := JS.str "user"; content := c; timestamp := None |}.

Definition assistantTurn (c : jsstring) : message :=
  {| role := JS.str "assistant"; content := c; timestamp := None |}.

(** [User, User, Assistant, Assistant, User], the first content one space. *)
Definition turnsWithWhitespaceFirst : list message :=
  [userTurn (JS.str " "); userTurn (JS.str "b"); assistantTurn (JS.str "c");
   assistantTurn (JS.str "d"); userTurn (JS.str "e")].

(** Two consecutive user turns, the first with empty content. *)
Definition turnsWithEmptyFirst : list message :=
  [userTurn (JS.str ""); userTurn (JS.str "hello")].


(** ** src/utils/proactiveMessaging.js *)
Module ProactiveMessaging.

(** What [client.users.fetch] / [client.channels.fetch] answers. *)
Inductive fetchOutcome := Fetched | FetchedNothing | FetchThrows.

(** What the outside world contributes to one fire: the values of the
    [Math.random()] calls (rationals in [0, 1)), the answer of the Discord
    client, the completion obtained inside [generateProactiveMessage]
    ([None] when that request throws), whether [target.send] succeeds, and
    the clock. *)
Record fireEnv := {
  targetDraw : Q;
  fetched : fetchOutcome;
  chanceDraw : Q;
  aiResponse : option jsstring;
  fallbackDraw : Q;
  sendSucceeds : bool;
  nowISO : jsstring;
  intervalDraw : Q;
}.

(** The module variables [proactiveTimer] and [isProactiveMessagingActive],
    with the timeouts the runtime still holds (handle and delay in
    milliseconds) and the next fresh handle. *)
Record scheduler := {
  proactiveTimer : option nat;
  isProactiveMessagingActive : bool;
  pendingTimers : list (nat * Z);
  nextHandle : nat;
}.

(** [setTimeout(callback, interval)] assigned to [proactiveTimer]. *)
Definition setTimeout (interval : Z) (st : scheduler) : scheduler :=
  {| proactiveTimer := Some (nextHandle st);
     isProactiveMessagingActive := isProactiveMessagingActive st;
     pendingTimers := pendingTimers st ++ [(nextHandle st, interval)];
     nextHandle := S (nextHandle st) |}.

(** [clearTimeout(handle)]: nothing happens for a timer that already fired. *)
Definition clearTimeout (handle : nat) (st : scheduler) : scheduler :=
  {| proactiveTimer := proactiveTimer st;
     isProactiveMessagingActive := isProactiveMessagingActive st;
     pendingTimers := List.filter (fun t => negb (t.1 =? handle)) (pendingTimers st);
     nextHandle := nextHandle st |}.

(** [Math.floor(Math.random() * (max - min + 1) + min) * 60 * 1000] *)
Definition getRandomInterval (min max : Z) (random : Q) : Z :=
  (Qfloor (random * inject_Z (max - min + 1) + inject_Z min) * 60 * 1000)%Z.

(** [config.PROACTIVE_TARGETS[Math.floor(Math.random() * length)]] *)
Definition chooseRandomTarget (cfg : config) (random : Q) : option jsstring :=
  if length (PROACTIVE_TARGETS cfg) =? 0 then None
  else
    PROACTIVE_TARGETS cfg
      !! Z.to_nat (Qfloor (random * inject_Z (Z.of_nat (length (PROACTIVE_TARGETS cfg))))).

(** [generateProactiveMessage]: the completion, or a random fallback message
    when the request throws or the completion is empty; [None] is
    [undefined], the entry of an empty fallback list. *)
Definition generateProactiveMessage (cfg : config) (env : fireEnv) : option jsstring :=
  match aiResponse env with
  | Some response =>
      if 0 <? length response then Some response
      else PROACTIVE_FALLBACK_MESSAGES cfg
             !! Z.to_nat (Qfloor (fallbackDraw env
                  * inject_Z (Z.of_nat (length (PROACTIVE_FALLBACK_MESSAGES cfg)))))
  | None =>
      PROACTIVE_FALLBACK_MESSAGES cfg
        !! Z.to_nat (Qfloor (fallbackDraw env
             * inject_Z (Z.of_nat (length (PROACTIVE_FALLBACK_MESSAGES cfg)))))
  end.

(** [value || fallback] for an integer setting: 0 is falsy. *)
Definition orDefault (value fallback : Z) : Z :=
  if (value =? 0)%Z then fallback else value.

Definition scheduleNextProactiveMessage (cfg : config) (random : Q)
    (st : scheduler) : scheduler :=
  let st :=
    match proactiveTimer st with
    | Some handle => clearTimeout handle st
    | None => st
    end in
  if negb (ENABLE_PROACTIVE_MESSAGING cfg) then st
  else
    let interval :=
      getRandomInterval (orDefault (PROACTIVE_MIN_INTERVAL cfg) 60)
                        (orDefault (PROACTIVE_MAX_INTERVAL cfg) 240) random in
    setTimeout interval st.

(** One run of [sendProactiveMessage], taken as a whole: the scheduler and
    the history afterwards, and the messages sent (target and text). *)
Definition sendProactiveMessage (cfg : config) (env : fireEnv)
    (st : scheduler) (h : HistoryManager.store)
    : scheduler * HistoryManager.store * list (jsstring * jsstring) :=
  if negb (isProactiveMessagingActive st) || negb (ENABLE_PROACTIVE_MESSAGING cfg)
  then (st, h, [])
  else
    match chooseRandomTarget cfg (targetDraw env) with
    | None => (st, h, [])
    | Some targetId =>
        if length targetId =? 0 then (st, h, [])
        else
          match fetched env with
          | FetchThrows | FetchedNothing =>
              (* logger.error("Failed to fetch ..."); return; *)
              (st, h, [])
          | Fetched =>
              (* Chance to skip sending a message this time *)
              if negb (Qle_bool (chanceDraw env) (PROACTIVE_CHANCE cfg)) then
                (scheduleNextProactiveMessage cfg (intervalDraw env) st, h, [])
              else
                match generateProactiveMessage cfg env, sendSucceeds env with
                | Some message, true =>
                    (scheduleNextProactiveMessage cfg (intervalDraw env) st,
                     HistoryManager.addMessageToHistory cfg h targetId
                       {| role := JS.str "assistant"; content := message;
                          timestamp := Some (nowISO env) |},
                     [(targetId, message)])
                | _, _ =>
                    (* target.send threw: caught by the outer handler *)
                    (scheduleNextProactiveMessage cfg (intervalDraw env) st, h, [])
                end
          end
    end.

(** The runtime fires the timeout [handle]: it leaves the pending set and
    its callback runs [sendProactiveMessage]. *)
Definition fire (cfg : config) (env : fireEnv) (handle : nat)
    (st : scheduler) (h : HistoryManager.store)
    : scheduler * HistoryManager.store * list (jsstring * jsstring) :=
  sendProactiveMessage cfg env
    {| proactiveTimer := proactiveTimer st;
       isProactiveMessagingActive := isProactiveMessagingActive st;
       pendingTimers := List.filter (fun t => negb (t.1 =? handle)) (pendingTimers st);
       nextHandle := nextHandle st |} h.



(** A configuration with proactive messaging enabled for the targets. *)
Definition enabledFor (targets : list jsstring) (cfg : config) : config := {|
  ALLOW_PRIVATE_MESSAGES := ALLOW_PRIVATE_MESSAGES cfg;
  ONLY_THESE_DM_CHATS := ONLY_THESE_DM_CHATS cfg;
  TARGET_CHANNEL_ID := TARGET_CHANNEL_ID cfg;
  BOT_PREFIX := BOT_PREFIX cfg;
  IGNORE_PREFIX := IGNORE_PREFIX cfg;
  COMMAND_PREFIX := COMMAND_PREFIX cfg;
  REQUIRE_PREFIX_IN_DM := REQUIRE_PREFIX_IN_DM cfg;
  AI_SERVICE := AI_SERVICE cfg;
  OLLAMA_SYSTEM_PROMPT := OLLAMA_SYSTEM_PROMPT cfg;
  ALLOW_EMOJIS := ALLOW_EMOJIS cfg;
  ALLOW_SINGLE_DOT := ALLOW_SINGLE_DOT cfg;
  INCLUDE_DM_CONTEXT := INCLUDE_DM_CONTEXT cfg;
  MULTIPLE_CHATTERS := MULTIPLE_CHATTERS cfg;
  MESSAGE_CHUNK_SIZE := MESSAGE_CHUNK_SIZE cfg;
  COOLDOWN_TIME := COOLDOWN_TIME cfg;
  MAX_HISTORY_SIZE := MAX_HISTORY_SIZE cfg;
  MESSAGE_SPLIT_TOKEN := MESSAGE_SPLIT_TOKEN cfg;
  MESSAGE_SPLIT_DELAY_MS := MESSAGE_SPLIT_DELAY_MS cfg;
  ENABLE_PROACTIVE_MESSAGING := true;
  PROACTIVE_TARGETS := targets;
  PROACTIVE_MIN_INTERVAL := PROACTIVE_MIN_INTERVAL cfg;
  PROACTIVE_MAX_INTERVAL := PROACTIVE_MAX_INTERVAL cfg;
  PROACTIVE_CHANCE := PROACTIVE_CHANCE cfg;
  PROACTIVE_FALLBACK_MESSAGES := PROACTIVE_FALLBACK_MESSAGES cfg;
|}.

(** A running scheduler whose only pending timeout is the one about to
    fire. *)
Definition runningScheduler : scheduler :=
  {| proactiveTimer := Some 0; isProactiveMessagingActive := true;
     pendingTimers := [(0, 3600000%Z)]; nextHandle := 1 |}.

(** A fire at which the Discord client cannot resolve the target. *)
Definition unknownTargetFire : fireEnv :=
  {| targetDraw := 0; fetched := FetchThrows; chanceDraw := 0;
     aiResponse := None; fallbackDraw := 0; sendSucceeds := true;
     nowISO := JS.str "2025-01-01T00:00:00.000Z"; intervalDraw := 1 # 2 |}.

End ProactiveMessaging.


(** ** Runtime services the handler calls that are not part of the sources *)
Record runtime := {
  (** [String.prototype.toLowerCase] *)
  toLowerCase : jsstring → jsstring;
  (** [String(parseInt(id, 10))], the property key the numeric form of an
      id names; [None] when [parseInt] yields [NaN] *)
  numericKey : jsstring → option jsstring;
}.

(** ** src/utils/userInfoManager.js *)
Module UserInfoManager.

(** The in-memory [userInfo] object (user id -> field -> value) and the
    [REQUIRED_FIELDS] array. *)
Record state := {
  userInfo : gmap jsstring (gmap jsstring jsstring);
  REQUIRED_FIELDS : list jsstring;
}.

Definition getUserInfo (rt : runtime) (st : state) (userId : jsstring)
    : option (gmap jsstring jsstring) :=
  if length userId =? 0 then None
  else
    match userInfo st !! userId with
    | Some result => Some result
    | None =>
        (* Check if the issue might be a string vs number mismatch *)
        match numericKey rt userId with
        | Some key => userInfo st !! key
        | None => None
        end
    end.

(** [info[field]] is truthy: the field is present and not the empty string. *)
Definition fieldFilled (info : gmap jsstring jsstring) (field : jsstring) : bool :=
  match info !! field with
  | Some value => 0 <? length value
  | None => false
  end.

Definition isUserInfoComplete (rt : runtime) (st : state) (userId : jsstring) : bool :=
  if length userId =? 0 then false
  else
    match getUserInfo rt st userId with
    | None => false
    | Some info => forallb (fieldFilled info) (REQUIRED_FIELDS st)
    end.

Definition getMissingFields (rt : runtime) (st : state) (userId : jsstring)
    : list jsstring :=
  match getUserInfo rt st userId with
  | None => REQUIRED_FIELDS st
  | Some info => List.filter (fun field => negb (fieldFilled info field)) (REQUIRED_FIELDS st)
  end.

Definition getRequiredFields (st : state) : list jsstring := REQUIRED_FIELDS st.

End UserInfoManager.


(** ** src/eventHandlers/messageCreateHandler.js *)
Module MessageCreateHandler.

Record attachment := {
  contentType : option jsstring;
  attachmentName : jsstring;
}.

(** The fields of the Discord message that [execute] reads. *)
Record discordMessage := {
  authorIsBot : bool;
  authorId : jsstring;
  authorGlobalName : jsstring;        (* empty when null *)
  authorUsername : jsstring;
  channelIsDM : bool;                 (* message.channel.type === 1 *)
  messageChannelId : jsstring;
  channelTyping : bool;               (* truthiness of message.channel.typing *)
  messageContent : jsstring;
  attachments : list attachment;
}.

(** What fetching and describing one image attachment yields. *)
Inductive imageOutcome :=
| FetchFailed
| DescribeThrew
| NoDescription
| Described (description : jsstring).

(** What [aiServiceProvider.chat] yields: a completion, [null], or an
    exception with its message. *)
Inductive chatOutcome :=
| ChatReturns (aiResponse : option jsstring)
| ChatThrows (errorMessage : jsstring).

(** The calls [execute] makes on its collaborators, in order.  Calls on the
    platform ([reply], [send], [sendTyping]) are taken to succeed. *)
Inductive effect :=
| ReloadUserInfo
| Reply (text : jsstring)
| Send (text : jsstring)
| SendTyping
| DescribeImage (attachment : jsstring)
| Chat (messages : list message) (channelId : jsstring)
| SaveHistory
| Delay (ms : Z)
| CooldownTimer (userId : jsstring) (ms : Z).

(** The module-level state [execute] reads and writes. *)
Record handlerState := {
  history : HistoryManager.store;
  userCooldowns : gset jsstring;
  users : UserInfoManager.state;
}.

(** What the outside world contributes to one turn. *)
Record turnEnv := {
  (** the parsed content of the user info file, [None] when
      [reloadUserInfo] keeps the data in memory *)
  reloadedUserInfo : option (gmap jsstring (gmap jsstring jsstring));
  (** what running a utility command does *)
  commandRun : handlerState → handlerState * list effect;
  imageProcessingAvailable : bool;
  imageOutcomes : list imageOutcome;
  (** [format(now, "HH:mm zzz", { timeZone })] *)
  formattedTime : jsstring;
  chatResult : chatOutcome;
}.

(** [commandHandler.handleCommand] processes the message (returns [true] or
    throws) exactly when the content starts with the command prefix and a
    command name follows it. *)
Definition isCommand (cfg : config) (content : jsstring) : bool :=
  JS.startsWith content (COMMAND_PREFIX cfg)
  && (0 <? length (JS.trim (drop (length (COMMAND_PREFIX cfg)) content))).

(** [aiResponse.replaceAll("\n\n", token)]; [before] is the text already
    passed, which [$`] in the token stands for. *)
Fixpoint replaceAllDoubleNewline (token before s : jsstring) : jsstring :=
  match s with
  | c :: r =>
      match r with
      | d :: r' =>
          if ((c =? 10) && (d =? 10))%N
          then JS.getSubstitution token [10%N; 10%N] before r'
                 ++ replaceAllDoubleNewline token (before ++ [10%N; 10%N]) r'
          else c :: replaceAllDoubleNewline token (before ++ [c]) r
      | [] => [c]
      end
  | [] => []
  end.

(** [s.replace(/(?<!\.)\.(?!\.)/g, "")]; [previous] is the code unit before
    [s] in the string being scanned. *)
Fixpoint removeSingleDots (previous : option N) (s : jsstring) : jsstring :=
  match s with
  | c :: r =>
      if ((c =? 46)%N
          && negb (bool_decide (previous = Some 46%N))
          && negb (bool_decide (head r = Some 46%N)))
      then removeSingleDots (Some c) r
      else c :: removeSingleDots (Some c) r
  | [] => []
  end.

(** The completion as rewritten before it is stored and delivered. *)
Definition rewriteCompletion (cfg : config) (aiResponse : jsstring) : jsstring :=
  let aiResponseContent :=
    replaceAllDoubleNewline (MESSAGE_SPLIT_TOKEN cfg) [] aiResponse in
  (* Remove single dot (but not double+ dots) *)
  if negb (ALLOW_SINGLE_DOT cfg) then removeSingleDots None aiResponseContent
  else aiResponseContent.

(** [[.!?]] *)
Definition isPunctuation (c : N) : bool := ((c =? 46) || (c =? 33) || (c =? 63))%N.

(** The token, escaped by [escapeRegExp] and so matched literally, then
    [\s*]; the result is the text after the match. *)
Definition matchToken (token s : jsstring) : option jsstring :=
  if JS.startsWith s token then Some (JS.trimStart (drop (length token) s))
  else None.

(** [\s*] before the token: greedy, giving back blanks when the token does
    not follow. *)
Fixpoint matchSpaces (token s : jsstring) : option jsstring :=
  match s with
  | c :: r =>
      if JS.isWhiteSpace c then
        match matchSpaces token r with
        | Some rest => Some rest
        | None => matchToken token s
        end
      else matchToken token s
  | [] => matchToken token s
  end.

(** [tokenRegex] matched at the start of [s]: the captured run of
    punctuation, greedy with backtracking, and the text after the match. *)
Fixpoint matchTokenRegex (token s : jsstring) : option (jsstring * jsstring) :=
  match s with
  | c :: r =>
      if isPunctuation c then
        match matchTokenRegex token r with
        | Some (punctuation, rest) => Some (c :: punctuation, rest)
        | None => pair [] <$> matchSpaces token s
        end
      else pair [] <$> matchSpaces token s
  | [] => pair [] <$> matchSpaces token s
  end.

(** [aiResponseContent.split(tokenRegex)]: the pieces between matches, each
    followed by the capture of the match that ends it.  [acc] is the piece
    being read; a match that is empty and starts the piece is skipped. *)
Fixpoint regexSplitFrom (fuel : nat) (token acc s : jsstring) : list jsstring :=
  match s with
  | [] => [acc]
  | c :: r =>
      match fuel with
      | 0 => [acc ++ s]
      | S fuel' =>
          match matchTokenRegex token s with
          | Some (punctuation, rest) =>
              if (length rest =? length s) && (length acc =? 0)
              then regexSplitFrom fuel' token (acc ++ [c]) r
              else acc :: punctuation :: regexSplitFrom fuel' token [] rest
          | None => regexSplitFrom fuel' token (acc ++ [c]) r
          end
      end
  end.

Definition regexSplit (token s : jsstring) : list jsstring :=
  match s with
  | [] => match matchTokenRegex token [] with Some _ => [] | None => [[]] end
  | _ => regexSplitFrom (2 * length s + 1) token [] s
  end.

(** The loop [for (let i = 0; i < rawParts.length; i += 2)] that builds
    [messageParts]. *)
Fixpoint collectParts (rawParts : list jsstring) : list jsstring :=
  match rawParts with
  | [] => []
  | [currentPart] =>
      (* Last part *)
      if 0 <? length (JS.trim currentPart) then [JS.trim currentPart] else []
  | currentPart :: punctuation :: rest =>
      (if (0 <? length (JS.trim currentPart)) || (0 <? length punctuation)
       then [JS.trim (currentPart ++ punctuation)] else [])
      ++ collectParts rest
  end.

Definition messagePartsOf (cfg : config) (aiResponseContent : jsstring)
    : list jsstring :=
  let messageParts :=
    collectParts (regexSplit (MESSAGE_SPLIT_TOKEN cfg) aiResponseContent) in
  if (length messageParts =? 0) && (0 <? length (JS.trim aiResponseContent))
  then
    (* Fallback if regex split fails *)
    List.filter (fun p => 0 <? length p)
      (JS.trim <$> JS.split aiResponseContent (MESSAGE_SPLIT_TOKEN cfg))
  else messageParts.

(** The sends of one part and the delay after it. *)
Definition deliverPart (cfg : config) (isLast : bool) (part : jsstring)
    : option (list effect) :=
  if length part =? 0 then Some []
  else
    chunks ← MessageUtils.splitMessage part (MESSAGE_CHUNK_SIZE cfg);
    Some (((fun chunk =>
              Send (if negb (ALLOW_EMOJIS cfg) then MessageUtils.filterEmojis chunk
                    else chunk)) <$> chunks)
          ++ (if negb isLast && (0 <? MESSAGE_SPLIT_DELAY_MS cfg)%Z
              then [Delay (MESSAGE_SPLIT_DELAY_MS cfg)] else [])).

Fixpoint deliverParts (cfg : config) (messageParts : list jsstring)
    : option (list effect) :=
  match messageParts with
  | [] => Some []
  | part :: rest =>
      these ← deliverPart cfg (length rest =? 0) part;
      (these ++.) <$> deliverParts cfg rest
  end.

(** Everything sent for a rewritten completion; [None] when a call of
    [splitMessage] does not return. *)
Definition deliver (cfg : config) (aiResponseContent : jsstring)
    : option (list effect) :=
  let messageParts := messagePartsOf cfg aiResponseContent in
  sent ← deliverParts cfg messageParts;
  Some (sent ++
        (if (length messageParts =? 0)
            || forallb (fun p => length (JS.trim p) =? 0) messageParts
         then [Send (JS.str "... (No substantial response generated)")]
         else [])).

(** [att.contentType?.startsWith("image/")] *)
Definition isImage (att : attachment) : bool :=
  match contentType att with
  | Some ct => JS.startsWith ct (JS.str "image/")
  | None => false
  end.

(** One pass of the loop over the image attachments: the calls made and the
    line pushed to [imageDescriptions]. *)
Definition processImage (att : attachment) (outcome : imageOutcome)
    : list effect * jsstring :=
  let unable :=
    JS.str "[Image Description for " ++ attachmentName att
      ++ JS.str "]: Unable to process image." in
  let could_not :=
    JS.str "[Image Description for " ++ attachmentName att
      ++ JS.str "]: Could not generate description." in
  match outcome with
  | FetchFailed => ([], unable)
  | DescribeThrew => ([DescribeImage (attachmentName att)], unable)
  | NoDescription => ([DescribeImage (attachmentName att)], could_not)
  | Described description =>
      ([DescribeImage (attachmentName att)],
       if 0 <? length description
       then JS.str "[Image Description for file]: " ++ description
       else could_not)
  end.

Fixpoint processImages (atts : list attachment) (outcomes : list imageOutcome)
    : list effect * list jsstring :=
  match atts with
  | [] => ([], [])
  | att :: atts' =>
      let '(fx, line) := processImage att (default FetchFailed (head outcomes)) in
      let '(fx', lines) := processImages atts' (tail outcomes) in
      (fx ++ fx', line :: lines)
  end.

(** The message of the [catch] block. *)
Definition userErrorMessage (cfg : config) (rt : runtime) (errorMessage : jsstring)
    : jsstring :=
  if (0 <? length errorMessage)
     && JS.includes (toLowerCase rt errorMessage) (JS.str "econnrefused")
  then JS.str "I'm having trouble connecting to my brain right now (" ++ AI_SERVICE cfg
         ++ JS.str "). Please ensure it's running and accessible."
  else if (0 <? length errorMessage)
          && JS.includes (toLowerCase rt errorMessage) (JS.str "model")
  then JS.str "There seems to be an issue with the AI model I'm trying to use ("
         ++ AI_SERVICE cfg ++ JS.str "). Maybe it's not available?"
  else JS.str "Something unexpected happened, and I couldn't quite process that. So sorry!".

(** The message sent to a direct-message user whose info is incomplete. *)
Definition incompleteInfoNotice (cfg : config) (users : UserInfoManager.state)
    : jsstring :=
  JS.str "Before we can chat, pls use the `" ++ COMMAND_PREFIX cfg
    ++ JS.str " input` command with the following required fields: "
    ++ JS.join (JS.str ", ") (UserInfoManager.getRequiredFields users).

Definition noResponseNotice : jsstring :=
  JS.str "I... I don't have a response for that right now.".

Definition failedResponseMarker : jsstring :=
  JS.str "[AI failed to generate a response]".

(** [userMessageForHistory] *)
Definition userMessageForHistory (cfg : config) (env : turnEnv)
    (message : discordMessage) (finalMessageContentForAI : jsstring) : jsstring :=
  let text :=
    JS.str "[Time: " ++ formattedTime env ++ JS.str "] " ++ finalMessageContentForAI in
  let text :=
    if MULTIPLE_CHATTERS cfg then
      (if 0 <? length (authorGlobalName message) then authorGlobalName message
       else authorUsername message) ++ JS.str ": " ++ text
    else text in
  if channelIsDM message && INCLUDE_DM_CONTEXT cfg
  then JS.str "[Direct Message] " ++ text else text.

(** [channelId] of the conversation. *)
Definition conversationId (message : discordMessage) : jsstring :=
  if channelIsDM message then JS.str "dm_" ++ authorId message
  else messageChannelId message.

(** [messagesForOllama]: the optional system prompt, the retained window and
    the current user message. *)
Definition messagesForChat (cfg : config) (currentChannelHistory : list message)
    (userMessage : jsstring) : list message :=
  (if bool_decide (AI_SERVICE cfg = JS.str "OLLAMA")
      && (0 <? length (OLLAMA_SYSTEM_PROMPT cfg))
   then [{| role := JS.str "system"; content := OLLAMA_SYSTEM_PROMPT cfg;
            timestamp := None |}]
   else [])
  ++ (if (MAX_HISTORY_SIZE cfg =? -1)%Z then currentChannelHistory
      else if (0 <? MAX_HISTORY_SIZE cfg)%Z then
        JS.slice currentChannelHistory
          (Z.max 0 (Z.of_nat (length currentChannelHistory)
                    - (MAX_HISTORY_SIZE cfg - 1)))
      else [])
  ++ [{| role := JS.str "user"; content := userMessage; timestamp := None |}].

Definition withHistory (h : HistoryManager.store) (st : handlerState) : handlerState :=
  {| history := h; userCooldowns := userCooldowns st; users := users st |}.

(** Section 5 of [execute], "AI Interaction": the [try] block and its
    [catch]. *)
Definition aiInteraction (cfg : config) (rt : runtime) (env : turnEnv)
    (message : discordMessage) (finalMessageContentForAI : jsstring)
    (st : handlerState) (fx : list effect) : option (handlerState * list effect) :=
  let channelId := conversationId message in
  let fx := fx ++ (if channelTyping message then [] else [SendTyping]) in
  let userMessage := userMessageForHistory cfg env message finalMessageContentForAI in
  (* For DMs, check if user info is complete before proceeding with AI *)
  if channelIsDM message
     && negb (UserInfoManager.isUserInfoComplete rt (users st) (authorId message))
  then
    (* Stop processing - don't send to AI or save to history *)
    Some (st, fx ++ [Send (incompleteInfoNotice cfg (users st))])
  else
    let messages :=
      messagesForChat cfg (HistoryManager.getChannelHistory (history st) channelId)
        userMessage in
    let fx := fx ++ [Chat messages channelId] in
    let userTurn := {| role := JS.str "user"; content := userMessage;
                       timestamp := None |} in
    let assistantTurn text := {| role := JS.str "assistant"; content := text;
                                 timestamp := None |} in
    let stored text :=
      withHistory
        (HistoryManager.addMessageToHistory cfg
           (HistoryManager.addMessageToHistory cfg (history st) channelId userTurn)
           channelId (assistantTurn text)) st in
    let nullResponse :=
      (* Don't add to history when we get a null response *)
      Some (st, fx ++ [Send (if channelIsDM message
                             then JS.str "I need some information from you before we can chat. Please use the `"
                                    ++ COMMAND_PREFIX cfg
                                    ++ JS.str " input` command to provide your details."
                             else noResponseNotice)]) in
    match chatResult env with
    | ChatThrows errorMessage =>
        Some (st, fx ++ [Send (userErrorMessage cfg rt errorMessage)])
    | ChatReturns None => nullResponse
    | ChatReturns (Some aiResponse) =>
        if length aiResponse =? 0 then nullResponse
        else
          let aiResponseContent := rewriteCompletion cfg aiResponse in
          if length (JS.trim aiResponseContent) =? 0 then
            (* Add user message to history even if AI fails to respond *)
            Some (stored failedResponseMarker,
                  fx ++ [Send noResponseNotice; SaveHistory])
          else
            sent ← deliver cfg aiResponseContent;
            Some (stored aiResponseContent, fx ++ [SaveHistory] ++ sent)
    end.

(** Sections 1 and 2 of [execute]: the checks that end the call before the
    cooldown is taken.  [inr] carries the state (user info reloaded) and the
    processed content of a message that passes. *)
Definition preChecks (cfg : config) (rt : runtime) (env : turnEnv)
    (message : discordMessage) (st : handlerState)
    : (handlerState * list effect) + (handlerState * list effect * jsstring) :=
  if authorIsBot message then inl (st, [])
  else
    let isDM := channelIsDM message in
    (* Check if message is a DM and if DMs are allowed *)
    if isDM && negb (ALLOW_PRIVATE_MESSAGES cfg) then inl (st, [])
    else
      let reload :=
        isDM
        && negb (JS.startsWith (messageContent message)
                   (COMMAND_PREFIX cfg ++ JS.str " input"))
        && negb (JS.startsWith (messageContent message)
                   (COMMAND_PREFIX cfg ++ JS.str "input")) in
      let st :=
        if reload then
          match reloadedUserInfo env with
          | Some loadedData =>
              {| history := history st; userCooldowns := userCooldowns st;
                 users := {| UserInfoManager.userInfo := loadedData;
                             UserInfoManager.REQUIRED_FIELDS :=
                               UserInfoManager.REQUIRED_FIELDS (users st) |} |}
          | None => st
          end
        else st in
      let fx := if reload then [ReloadUserInfo] else [] in
      (* --- 1. Command Handling --- *)
      if isCommand cfg (messageContent message) then
        let '(st', fx') := commandRun env st in inl (st', fx ++ fx')
      else
        (* --- 2. AI Response Pre-checks --- *)
        let channelId := conversationId message in
        let rawMessageContent := JS.trim (messageContent message) in
        let userMessageContentLower := toLowerCase rt rawMessageContent in
        if negb isDM && (0 <? length (TARGET_CHANNEL_ID cfg))
           && negb (bool_decide (channelId = TARGET_CHANNEL_ID cfg))
        then inl (st, fx)
        else if isDM
                && match ONLY_THESE_DM_CHATS cfg with
                   | Some chats => negb (existsb (JS.includes channelId) chats)
                   | None => false
                   end
        then inl (st, fx ++ [Reply (JS.str "no")])
        else if (0 <? length (IGNORE_PREFIX cfg))
                && JS.startsWith userMessageContentLower
                     (toLowerCase rt (IGNORE_PREFIX cfg))
        then inl (st, fx)
        else
          let requiresPrefixInDM :=
            negb (bool_decide (REQUIRE_PREFIX_IN_DM cfg = Some false)) in
          let prefixApplies :=
            (0 <? length (BOT_PREFIX cfg))
            && (negb isDM || (isDM && requiresPrefixInDM)) in
          if prefixApplies
             && negb (JS.startsWith userMessageContentLower
                        (toLowerCase rt (BOT_PREFIX cfg)))
          then inl (st, fx)
          else
            let processedMessageContent :=
              if prefixApplies
              then JS.trim (drop (length (BOT_PREFIX cfg)) rawMessageContent)
              else rawMessageContent in
            (* Cooldown check (after prefix and command checks) *)
            if bool_decide (authorId message ∈ userCooldowns st) then inl (st, fx)
            else inr (st, fx, processedMessageContent).

(** Section 3 of [execute], "Image Processing": the calls made and
    [imageDescriptions]. *)
Definition imageProcessing (env : turnEnv) (message : discordMessage)
    : list effect * list jsstring :=
  let imageAttachments := List.filter isImage (attachments message) in
  if imageProcessingAvailable env && (0 <? length imageAttachments)
  then
    let '(fx, lines) := processImages imageAttachments (imageOutcomes env) in
    (SendTyping :: fx, lines)
  else ([], []).

(** Section 4 of [execute]: [finalMessageContentForAI]. *)
Definition finalMessageContent (processedMessageContent : jsstring)
    (imageDescriptions : list jsstring) : jsstring :=
  if 0 <? length imageDescriptions then
    let imageDescriptionText := JS.join [10%N] imageDescriptions in
    if 0 <? length processedMessageContent
    then processedMessageContent ++ [10%N] ++ imageDescriptionText
    else imageDescriptionText
  else processedMessageContent.

(** [userCooldowns.add(message.author.id)] *)
Definition takeCooldown (message : discordMessage) (st : handlerState) : handlerState :=
  {| history := history st;
     userCooldowns := userCooldowns st ∪ {[ authorId message ]};
     users := users st |}.

(** [execute(message)]; [None] when the call does not return. *)
Definition execute (cfg : config) (rt : runtime) (env : turnEnv)
    (message : discordMessage) (st : handlerState)
    : option (handlerState * list effect) :=
  match preChecks cfg rt env message st with
  | inl ended => Some ended
  | inr (st, fx, processedMessageContent) =>
      let st := takeCooldown message st in
      let fx := fx ++ [CooldownTimer (authorId message) (COOLDOWN_TIME cfg)] in
      let '(fxImages, imageDescriptions) := imageProcessing env message in
      let fx := fx ++ fxImages in
      let finalMessageContentForAI :=
        finalMessageContent processedMessageContent imageDescriptions in
      if length finalMessageContentForAI =? 0 then
        if (0 <? length (BOT_PREFIX cfg))
           && JS.startsWith (toLowerCase rt (JS.trim (messageContent message)))
                (toLowerCase rt (BOT_PREFIX cfg))
        then Some (st, fx ++ [Reply (JS.str "Hmm? Did you want to tell me something?")])
        else Some (st, fx)
      else
        (* --- 5. AI Interaction --- *)
        aiInteraction cfg rt env message finalMessageContentForAI st fx
  end.

(** The message reaches section 5 of [execute]: it passes the checks of
    sections 1 and 2 (author, direct messages allowed, not a command,
    channel and prefix filters, cooldown) and has content for the AI. *)
Definition reachesAiInteraction (cfg : config) (rt : runtime) (env : turnEnv)
    (message : discordMessage) (st : handlerState) : bool :=
  match preChecks cfg rt env message st with
  | inl _ => false
  | inr (_, _, processedMessageContent) =>
      0 <? length (finalMessageContent processedMessageContent
                     (imageProcessing env message).2)
  end.

(** [finalMessageContentForAI] of a message that passes the checks. *)
Definition finalContentOf (cfg : config) (rt : runtime) (env : turnEnv)
    (msg : discordMessage) (st : handlerState) : jsstring :=
  match preChecks cfg rt env msg st with
  | inl _ => []
  | inr (_, _, processedMessageContent) =>
      finalMessageContent processedMessageContent (imageProcessing env msg).2
  end.

(** The state in which section 5 runs: user info reloaded, cooldown taken. *)
Definition stateAtAiInteraction (cfg : config) (rt : runtime) (env : turnEnv)
    (msg : discordMessage) (st : handlerState) : handlerState :=
  match preChecks cfg rt env msg st with
  | inl _ => st
  | inr (st, _, _) => takeCooldown msg st
  end.

(** The calls made before section 5 starts. *)
Definition effectsBeforeAi (cfg : config) (rt : runtime) (env : turnEnv)
    (msg : discordMessage) (st : handlerState) : list effect :=
  match preChecks cfg rt env msg st with
  | inl _ => []
  | inr (_, fx, _) =>
      (fx ++ [CooldownTimer (authorId msg) (COOLDOWN_TIME cfg)])
      ++ (imageProcessing env msg).1
  end.


(** The call is a call of [aiServiceProvider.chat]. *)
Definition isChat (e : effect) : bool :=
  match e with
  | Chat _ _ => true
  | _ => false
  end.

End MessageCreateHandler.


(** ** Inputs used in the statements about the handler *)

(** A runtime for ASCII text: [toLowerCase] maps A-Z to a-z, and the numeric
    key of a string of digits is the string itself. *)
Definition asciiRuntime : runtime := {|
  toLowerCase :=
    fmap (fun c => if ((65 <=? c) && (c <=? 90))%N then (c + 32)%N else c);
  numericKey := fun s =>
    if (0 <? length s) && forallb (fun c => ((48 <=? c) && (c <=? 57))%N) s
    then Some s else None;
|}.

(** A turn with no image service, whose chat call yields [chat]. *)
Definition plainTurn (chat : MessageCreateHandler.chatOutcome)
    : MessageCreateHandler.turnEnv := {|
  MessageCreateHandler.reloadedUserInfo := None;
  MessageCreateHandler.commandRun := fun st => (st, []);
  MessageCreateHandler.imageProcessingAvailable := false;
  MessageCreateHandler.imageOutcomes := [];
  MessageCreateHandler.formattedTime := JS.str "12:00 UTC";
  MessageCreateHandler.chatResult := chat;
|}.

(** A direct message with text [text] from the user [userId]. *)
Definition directMessage (userId text : jsstring)
    : MessageCreateHandler.discordMessage := {|
  MessageCreateHandler.authorIsBot := false;
  MessageCreateHandler.authorId := userId;
  MessageCreateHandler.authorGlobalName := [];
  MessageCreateHandler.authorUsername := JS.str "someone";
  MessageCreateHandler.channelIsDM := true;
  MessageCreateHandler.messageChannelId := JS.str "900";
  MessageCreateHandler.channelTyping := false;
  MessageCreateHandler.messageContent := text;
  MessageCreateHandler.attachments := [];
|}.

(** A message with text [text] in the guild channel [channel]. *)
Definition channelMessage (channel userId text : jsstring)
    : MessageCreateHandler.discordMessage := {|
  MessageCreateHandler.authorIsBot := false;
  MessageCreateHandler.authorId := userId;
  MessageCreateHandler.authorGlobalName := [];
  MessageCreateHandler.authorUsername := JS.str "someone";
  MessageCreateHandler.channelIsDM := false;
  MessageCreateHandler.messageChannelId := channel;
  MessageCreateHandler.channelTyping := false;
  MessageCreateHandler.messageContent := text;
  MessageCreateHandler.attachments := [];
|}.

(** No history, no user info on file, required fields [name] and [city];
    the users of [cooling] are in their cooldown window. *)
Definition freshState (cooling : gset jsstring) : MessageCreateHandler.handlerState := {|
  MessageCreateHandler.history := ∅;
  MessageCreateHandler.userCooldowns := cooling;
  MessageCreateHandler.users :=
    {| UserInfoManager.userInfo := ∅;
       UserInfoManager.REQUIRED_FIELDS := [JS.str "name"; JS.str "city"] |};
|}.


(** ** The rewriting of a completion, in the words of its description *)







(** ** The JSON services of the runtime: [JSON.stringify(value, null, 2)]
    and [JSON.parse] *)
Module JSON.

(** A JSON value; a number is kept as its literal. *)
#[warnings="-register-all"]
Inductive json :=
| JNull
| JBool (b : bool)
| JNumber (literal : jsstring)
| JString (s : jsstring)
| JArray (elements : list json)
| JObject (members : list (jsstring * json)).

(** One lowercase hexadecimal digit. *)
Definition hexDigit (d : N) : N := (if d <? 10 then 48 + d else 87 + d)%N.

(** [UnicodeEscape]: a backslash, [u] and four hexadecimal digits. *)
Definition unicodeEscape (c : N) : jsstring :=
  [92; 117; hexDigit (c / 4096 mod 16); hexDigit (c / 256 mod 16);
   hexDigit (c / 16 mod 16); hexDigit (c mod 16)]%N.

Definition isHighSurrogate (c : N) : bool := ((55296 <=? c) && (c <=? 56319))%N.
Definition isLowSurrogate (c : N) : bool := ((56320 <=? c) && (c <=? 57343))%N.

(** [QuoteJSONString] on a code unit that is no surrogate. *)
Definition quoteCodeUnit (c : N) : jsstring :=
  (if c =? 8 then [92; 98]
   else if c =? 9 then [92; 116]
   else if c =? 10 then [92; 110]
   else if c =? 12 then [92; 102]
   else if c =? 13 then [92; 114]
   else if c =? 34 then [92; 34]
   else if c =? 92 then [92; 92]
   else if c <? 32 then unicodeEscape c
   else [c])%N.

(** [QuoteJSONString] without the enclosing quotes, code point by code
    point: a surrogate pair is copied, a surrogate without its partner is
    escaped. *)
Fixpoint quoteBody (s : jsstring) : jsstring :=
  match s with
  | [] => []
  | c :: r =>
      if isHighSurrogate c then
        match r with
        | d :: r' =>
            if isLowSurrogate d then c :: d :: quoteBody r'
            else unicodeEscape c ++ quoteBody r
        | [] => unicodeEscape c
        end
      else if isLowSurrogate c then unicodeEscape c ++ quoteBody r
      else quoteCodeUnit c ++ quoteBody r
  end.

Definition quoteJSONString (s : jsstring) : jsstring :=
  [34%N] ++ quoteBody s ++ [34%N].

Definition indentation (n : nat) : jsstring := replicate n 32%N.

(** The rendering of an array or object with the gap of two spaces: the
    items one per line, indented two more than the brackets. *)
Definition bracketed (opening closing : N) (indent : nat) (items : list jsstring)
    : jsstring :=
  match items with
  | [] => [opening; closing]
  | _ =>
      [opening; 10%N] ++ indentation (indent + 2)
      ++ JS.join ([44%N; 10%N] ++ indentation (indent + 2)) items
      ++ [10%N] ++ indentation indent ++ [closing]
  end.

(** [JSON.stringify(value, null, 2)], at the indentation [indent]. *)
Fixpoint stringifyAt (indent : nat) (v : json) : jsstring :=
  match v with
  | JNull => JS.str "null"
  | JBool true => JS.str "true"
  | JBool false => JS.str "false"
  | JNumber literal => literal
  | JString s => quoteJSONString s
  | JArray elements =>
      bracketed 91 93 indent (List.map (stringifyAt (indent + 2)) elements)
  | JObject members =>
      bracketed 123 125 indent
        (List.map (fun kv => quoteJSONString kv.1 ++ [58%N; 32%N]
                             ++ stringifyAt (indent + 2) kv.2) members)
  end.

Definition stringify (v : json) : jsstring := stringifyAt 0 v.

(** JSON whitespace: space, tab, line feed, carriage return. *)
Definition isWhitespace (c : N) : bool :=
  ((c =? 32) || (c =? 9) || (c =? 10) || (c =? 13))%N.

Fixpoint skipWhitespace (s : jsstring) : jsstring :=
  match s with
  | c :: r => if isWhitespace c then skipWhitespace r else s
  | [] => []
  end.

Definition hexValue (c : N) : option N :=
  (if (48 <=? c) && (c <=? 57) then Some (c - 48)
   else if (97 <=? c) && (c <=? 102) then Some (c - 87)
   else if (65 <=? c) && (c <=? 70) then Some (c - 55)
   else None)%N.

(** The code unit a one-letter escape stands for. *)
Definition simpleEscape (e : N) : option N :=
  (if e =? 34 then Some 34
   else if e =? 92 then Some 92
   else if e =? 47 then Some 47
   else if e =? 98 then Some 8
   else if e =? 102 then Some 12
   else if e =? 110 then Some 10
   else if e =? 114 then Some 13
   else if e =? 116 then Some 9
   else None)%N.

(** A string, read from after its opening quote: its value and the text
    after its closing quote. *)
Fixpoint parseStringBody (s : jsstring) : option (jsstring * jsstring) :=
  match s with
  | [] => None
  | c :: r =>
      if (c =? 34)%N then Some ([], r)
      else if (c =? 92)%N then
        match r with
        | e :: r1 =>
            if (e =? 117)%N then
              match r1 with
              | h1 :: h2 :: h3 :: h4 :: r2 =>
                  match hexValue h1, hexValue h2, hexValue h3, hexValue h4 with
                  | Some a, Some b, Some c', Some d =>
                      match parseStringBody r2 with
                      | Some (str, rest) =>
                          Some ((a * 4096 + b * 256 + c' * 16 + d)%N :: str, rest)
                      | None => None
                      end
                  | _, _, _, _ => None
                  end
              | _ => None
              end
            else
              match simpleEscape e with
              | Some ch =>
                  match parseStringBody r1 with
                  | Some (str, rest) => Some (ch :: str, rest)
                  | None => None
                  end
              | None => None
              end
        | [] => None
        end
      else if (c <? 32)%N then None
      else
        match parseStringBody r with
        | Some (str, rest) => Some (c :: str, rest)
        | None => None
        end
  end.

Definition isDigit (c : N) : bool := ((48 <=? c) && (c <=? 57))%N.

(** The digits [s] starts with, and what follows them. *)
Fixpoint spanDigits (s : jsstring) : jsstring * jsstring :=
  match s with
  | c :: r =>
      if isDigit c then let '(ds, rest) := spanDigits r in (c :: ds, rest)
      else ([], s)
  | [] => ([], [])
  end.

(** A number literal: an optional minus sign, an integer part without
    leading zeros, an optional fraction and an optional exponent. *)
Definition parseNumber (s : jsstring) : option (jsstring * jsstring) :=
  let '(sign, s1) :=
    match s with
    | c :: r => if (c =? 45)%N then ([c], r) else ([], s)
    | [] => ([], [])
    end in
  let '(int, s2) := spanDigits s1 in
  match int with
  | [] => None
  | d :: ds =>
      if (d =? 48)%N && (0 <? length ds) then None
      else
        let fraction :=
          match s2 with
          | c :: r =>
              if (c =? 46)%N then
                let '(fs, rest) := spanDigits r in
                if 0 <? length fs then Some (c :: fs, rest) else None
              else Some ([], s2)
          | [] => Some ([], [])
          end in
        match fraction with
        | None => None
        | Some (frac, s3) =>
            let exponent :=
              match s3 with
              | c :: r =>
                  if ((c =? 101) || (c =? 69))%N then
                    let '(esign, r') :=
                      match r with
                      | p :: r'' =>
                          if ((p =? 43) || (p =? 45))%N then ([p], r'') else ([], r)
                      | [] => ([], [])
                      end in
                    let '(es, rest) := spanDigits r' in
                    if 0 <? length es then Some (c :: esign ++ es, rest) else None
                  else Some ([], s3)
              | [] => Some ([], [])
              end in
            match exponent with
            | None => None
            | Some (ex, rest) => Some (sign ++ int ++ frac ++ ex, rest)
            end
        end
  end.

(** A JSON value at the start of [s] (after whitespace) and the text after
    it.  [fuel] bounds the number of code units the call may read. *)
Fixpoint parseValue (fuel : nat) (s : jsstring) : option (json * jsstring) :=
  match fuel with
  | 0 => None
  | S fuel' =>
      match skipWhitespace s with
      | [] => None
      | c :: r =>
          if (c =? 34)%N then
            match parseStringBody r with
            | Some (str, rest) => Some (JString str, rest)
            | None => None
            end
          else if (c =? 91)%N then
            match skipWhitespace r with
            | d :: r' =>
                if (d =? 93)%N then Some (JArray [], r')
                else
                  match parseElements fuel' r with
                  | Some (elements, rest) => Some (JArray elements, rest)
                  | None => None
                  end
            | [] => None
            end
          else if (c =? 123)%N then
            match skipWhitespace r with
            | d :: r' =>
                if (d =? 125)%N then Some (JObject [], r')
                else
                  match parseMembers fuel' r with
                  | Some (members, rest) => Some (JObject members, rest)
                  | None => None
                  end
            | [] => None
            end
          else if JS.startsWith (c :: r) (JS.str "true")
          then Some (JBool true, drop 4 (c :: r))
          else if JS.startsWith (c :: r) (JS.str "false")
          then Some (JBool false, drop 5 (c :: r))
          else if JS.startsWith (c :: r) (JS.str "null")
          then Some (JNull, drop 4 (c :: r))
          else
            match parseNumber (c :: r) with
            | Some (literal, rest) => Some (JNumber literal, rest)
            | None => None
            end
      end
  end
with parseElements (fuel : nat) (s : jsstring) : option (list json * jsstring) :=
  match fuel with
  | 0 => None
  | S fuel' =>
      match parseValue fuel' s with
      | Some (v, rest) =>
          match skipWhitespace rest with
          | d :: r' =>
              if (d =? 44)%N then
                match parseElements fuel' r' with
                | Some (elements, rest') => Some (v :: elements, rest')
                | None => None
                end
              else if (d =? 93)%N then Some ([v], r')
              else None
          | [] => None
          end
      | None => None
      end
  end
with parseMembers (fuel : nat) (s : jsstring)
    : option (list (jsstring * json) * jsstring) :=
  match fuel with
  | 0 => None
  | S fuel' =>
      match skipWhitespace s with
      | q :: r =>
          if (q =? 34)%N then
            match parseStringBody r with
            | Some (key, rest) =>
                match skipWhitespace rest with
                | colon :: r1 =>
                    if (colon =? 58)%N then
                      match parseValue fuel' r1 with
                      | Some (v, rest2) =>
                          match skipWhitespace rest2 with
                          | d :: r' =>
                              if (d =? 44)%N then
                                match parseMembers fuel' r' with
                                | Some (members, rest') =>
                                    Some ((key, v) :: members, rest')
                                | None => None
                                end
                              else if (d =? 125)%N then Some ([(key, v)], r')
                              else None
                          | [] => None
                          end
                      | None => None
                      end
                    else None
                | [] => None
                end
            | None => None
            end
          else None
      | [] => None
      end
  end.

(** [JSON.parse(text)]; [None] is a [SyntaxError].  The members of an object
    are kept as written; a key written twice takes its last value. *)
Definition parse (text : jsstring) : option json :=
  match parseValue (length text) text with
  | Some (v, rest) =>
      match skipWhitespace rest with
      | [] => Some v
      | _ => None
      end
  | None => None
  end.

(** The value of the property [key] of an object with these members. *)
Definition property (members : list (jsstring * json)) (key : jsstring)
    : option json :=
  (list_to_map (reverse members) : gmap jsstring json) !! key.

End JSON.


(** ** src/utils/historyManager.js: the history file *)
Module HistoryPersistence.
Import JSON.

(** The file at [config.HISTORY_FILE_PATH]: the text [fs.readFileSync(path,
    "utf8")] returns ([None]: the file does not exist), and whether
    [fs.writeFileSync] succeeds. *)
Record fileSystem := {
  historyFile : option jsstring;
  writable : bool;
}.

(** A text after it was written to a file as UTF-8 and read back: a
    surrogate without its partner has become U+FFFD. *)
Fixpoint throughUtf8 (s : jsstring) : jsstring :=
  match s with
  | [] => []
  | c :: r =>
      if isHighSurrogate c then
        match r with
        | d :: r' =>
            if isLowSurrogate d then c :: d :: throughUtf8 r'
            else 65533%N :: throughUtf8 r
        | [] => [65533%N]
        end
      else if isLowSurrogate c then 65533%N :: throughUtf8 r
      else c :: throughUtf8 r
  end.

(** A turn as the object [{ role, content }] or [{ role, content,
    timestamp }]. *)
Definition messageToJson (m : message) : json :=
  JObject ([(JS.str "role", JString (role m));
            (JS.str "content", JString (content m))]
           ++ match timestamp m with
              | Some t => [(JS.str "timestamp", JString t)]
              | None => []
              end).

(** [Object.fromEntries(conversationHistory)], its entries in the order
    [entries]. *)
Definition historyObject (entries : list (jsstring * list message)) : json :=
  JObject ((fun kv => (kv.1, JArray (messageToJson <$> kv.2))) <$> entries).

(** The turn a parsed object stands for: its string properties [role] and
    [content], and [timestamp] when it has one. *)
Definition messageOfJson (v : json) : option message :=
  match v with
  | JObject members =>
      match property members (JS.str "role"),
            property members (JS.str "content") with
      | Some (JString r), Some (JString c) =>
          match property members (JS.str "timestamp") with
          | Some (JString t) =>
              Some {| role := r; content := c; timestamp := Some t |}
          | None => Some {| role := r; content := c; timestamp := None |}
          | Some _ => None
          end
      | _, _ => None
      end
  | _ => None
  end.

Definition historyOfJson (v : json) : option (list message) :=
  match v with
  | JArray elements => mapM messageOfJson elements
  | _ => None
  end.

(** [new Map(Object.entries(historyObject))] for a parsed value.  [None]: the
    Map would hold values that are not arrays of turns; such files are
    outside this model. *)
Definition storeOfJson (v : json) : option HistoryManager.store :=
  match v with
  | JNull => Some ∅            (* Object.entries throws: start fresh *)
  | JBool _ | JNumber _ => Some ∅
  | JString [] | JArray [] => Some ∅
  | JString _ | JArray _ => None
  | JObject members =>
      entries ← mapM (fun kv => pair kv.1 <$> historyOfJson kv.2) members;
      Some (list_to_map (reverse entries))
  end.

(** [saveHistory()]; [enumerate] is the order in which the runtime lists the
    entries of the Map. *)
Definition saveHistory
    (enumerate : HistoryManager.store → list (jsstring * list message))
    (fs : fileSystem) (conversationHistory : HistoryManager.store) : fileSystem :=
  if (size conversationHistory =? 0) && negb (bool_decide (is_Some (historyFile fs)))
  then fs   (* No history to save and no existing history file. *)
  else if writable fs then
    {| historyFile :=
         Some (throughUtf8
                 (stringify (historyObject (enumerate conversationHistory))));
       writable := writable fs |}
  else fs.  (* Error saving conversation history: logged *)

(** [loadHistory()]: the new value of [conversationHistory]. *)
Definition loadHistory (fs : fileSystem) : option HistoryManager.store :=
  match historyFile fs with
  | Some data =>
      match parse data with
      | Some historyObject => storeOfJson historyObject
      | None => Some ∅         (* Start fresh on error *)
      end
  | None => Some ∅
  end.

End HistoryPersistence.


(** ** Vocabulary of the history-file properties *)

(** A code unit that is no surrogate. *)
Definition notSurrogate (c : N) : Prop :=
  JSON.isHighSurrogate c = false ∧ JSON.isLowSurrogate c = false.

(** A text that passes through a UTF-8 file unchanged, whatever follows it. *)
Definition survivesUtf8 (a : jsstring) : Prop :=
  ∀ t, HistoryPersistence.throughUtf8 (a ++ t) = a ++ HistoryPersistence.throughUtf8 t.

(** A JSON value without number literals. *)
Fixpoint numberFree (v : JSON.json) : bool :=
  match v with
  | JSON.JNumber _ => false
  | JSON.JArray elements => forallb numberFree elements
  | JSON.JObject members => forallb (fun kv => numberFree kv.2) members
  | _ => true
  end.

(** The text [a] is read back as the value [v]: with enough fuel, after any
    whitespace and before any text. *)
Definition readsBackAs (a : jsstring) (v : JSON.json) : Prop :=
  ∀ fuel ws rest,
    length a ≤ fuel → Forall (λ c, JSON.isWhitespace c = true) ws →
    JSON.parseValue fuel (ws ++ a ++ rest) = Some (v, rest).


(** The text [a] starts with a code unit that is neither whitespace nor a
    closing bracket. *)
Definition startsItem (a : jsstring) : Prop :=
  ∃ c r, a = c :: r ∧ JSON.isWhitespace c = false ∧ c ≠ 93%N ∧ c ≠ 125%N.

(** Induction on JSON values, with the property available for every element
    of an array and every member of an object. *)
Section JsonInduction.
Variable P : JSON.json → Prop.
Hypothesis Pnull : P JSON.JNull.
Hypothesis Pbool : ∀ b, P (JSON.JBool b).
Hypothesis Pnumber : ∀ literal, P (JSON.JNumber literal).
Hypothesis Pstring : ∀ s, P (JSON.JString s).
Hypothesis Parray : ∀ elements, Forall P elements → P (JSON.JArray elements).
Hypothesis Pobject :
  ∀ members, Forall (λ kv, P kv.2) members → P (JSON.JObject members).

Fixpoint json_nested_ind (v : JSON.json) : P v :=
  match v with
  | JSON.JNull => Pnull
  | JSON.JBool b => Pbool b
  | JSON.JNumber literal => Pnumber literal
  | JSON.JString s => Pstring s
  | JSON.JArray elements =>
      Parray elements
        ((fix go (l : list JSON.json) : Forall P l :=
            match l with
            | [] => @List.Forall_nil _ P
            | x :: l' => @List.Forall_cons _ P x l' (json_nested_ind x) (go l')
            end) elements)
  | JSON.JObject members =>
      Pobject members
        ((fix go (l : list (jsstring * JSON.json)) : Forall (λ kv, P kv.2) l :=
            match l with
            | [] => @List.Forall_nil _ _
            | kv :: l' => @List.Forall_cons _ _ kv l' (json_nested_ind kv.2) (go l')
            end) members)
  end.
End JsonInduction.

(** ** src/utils/historyManager.js: clearing a conversation and the
    periodic save *)
Module HistoryMaintenance.
Import HistoryPersistence.

(** [clearChannelHistory(channelId)]: the value returned, the new
    [conversationHistory] and the file system after the immediate save. *)
Definition clearChannelHistory
    (enumerate : HistoryManager.store → list (jsstring * list message))
    (fs : fileSystem) (conversationHistory : HistoryManager.store)
    (channelId : jsstring) : bool * HistoryManager.store * fileSystem :=
  if bool_decide (is_Some (conversationHistory !! channelId)) then
    let conversationHistory := delete channelId conversationHistory in
    (* Save immediately after clearing *)
    (true, conversationHistory, saveHistory enumerate fs conversationHistory)
  else (false, conversationHistory, fs).

(** The module variable [saveIntervalId] ([None] is [null]), with the
    intervals the runtime holds (handle and period in milliseconds) and the
    next fresh handle. *)
Record saver := {
  saveIntervalId : option nat;
  activeIntervals : list (nat * Z);
  nextIntervalHandle : nat;
}.

(** The state of the module when it is loaded. *)
Definition initialSaver : saver :=
  {| saveIntervalId := None; activeIntervals := []; nextIntervalHandle := 0 |}.

(** [clearInterval(handle)] *)
Definition clearInterval (handle : nat) (st : saver) : saver :=
  {| saveIntervalId := saveIntervalId st;
     activeIntervals :=
       List.filter (fun t => negb (t.1 =? handle)) (activeIntervals st);
     nextIntervalHandle := nextIntervalHandle st |}.

(** [saveIntervalId = setInterval(saveHistory, period)] *)
Definition setInterval (period : Z) (st : saver) : saver :=
  {| saveIntervalId := Some (nextIntervalHandle st);
     activeIntervals := activeIntervals st ++ [(nextIntervalHandle st, period)];
     nextIntervalHandle := S (nextIntervalHandle st) |}.

(** [startPeriodicSave()], for the value of [config.SAVE_INTERVAL_MS]. *)
Definition startPeriodicSave (SAVE_INTERVAL_MS : Z) (st : saver) : saver :=
  if (0 <? SAVE_INTERVAL_MS)%Z then
    (* Clear existing interval if any *)
    let st :=
      match saveIntervalId st with
      | Some handle => clearInterval handle st
      | None => st
      end in
    setInterval SAVE_INTERVAL_MS st
  else st.   (* Periodic history saving is disabled *)

(** [stopPeriodicSave()] *)
Definition stopPeriodicSave (st : saver) : saver :=
  match saveIntervalId st with
  | Some handle =>
      let st := clearInterval handle st in
      {| saveIntervalId := None;
         activeIntervals := activeIntervals st;
         nextIntervalHandle := nextIntervalHandle st |}
  | None => st
  end.

(** A call of one of the two functions. *)
Inductive saverCall := StartPeriodicSave | StopPeriodicSave.

Definition runSaverCall (SAVE_INTERVAL_MS : Z) (st : saver) (call : saverCall)
    : saver :=
  match call with
  | StartPeriodicSave => startPeriodicSave SAVE_INTERVAL_MS st
  | StopPeriodicSave => stopPeriodicSave st
  end.

End HistoryMaintenance.

(** The intervals the runtime holds are exactly the one recorded in
    [saveIntervalId]. *)
Definition saver_consistent (SAVE_INTERVAL_MS : Z) (st : HistoryMaintenance.saver)
    : Prop :=
  match HistoryMaintenance.saveIntervalId st with
  | Some handle =>
      HistoryMaintenance.activeIntervals st = [(handle, SAVE_INTERVAL_MS)]
      ∧ handle < HistoryMaintenance.nextIntervalHandle st
  | None => HistoryMaintenance.activeIntervals st = []
  end.


(** ** src/utils/messageUtils.js: [escapeRegExp] *)
Module RegExpEscape.

(** The class [[.*+?^${}()|[\]\\]] of [escapeRegExp]; these are the
    SyntaxCharacters of the regular-expression grammar. *)
Definition isSyntaxCharacter (c : N) : bool :=
  ((c =? 46) || (c =? 42) || (c =? 43) || (c =? 63) || (c =? 94) || (c =? 36)
   || (c =? 123) || (c =? 125) || (c =? 40) || (c =? 41) || (c =? 124)
   || (c =? 91) || (c =? 93) || (c =? 92))%N.

(** [string.replace(/[.*+?^${}()|[\]\\]/g, "\\$&")]: a backslash is put
    before every character of the class. *)
Fixpoint escapeRegExp (s : jsstring) : jsstring :=
  match s with
  | c :: r =>
      (if isSyntaxCharacter c then [92%N; c] else [c]) ++ escapeRegExp r
  | [] => []
  end.

(** The text matched by a pattern made only of characters that stand for
    themselves and of escaped syntax characters; [None] for any other
    pattern. *)
Fixpoint literalOfPattern (p : jsstring) : option jsstring :=
  match p with
  | [] => Some []
  | c :: r =>
      if (c =? 92)%N then
        match r with
        | d :: r' =>
            if isSyntaxCharacter d then cons d <$> literalOfPattern r' else None
        | [] => None
        end
      else if isSyntaxCharacter c then None
      else cons c <$> literalOfPattern r
  end.

End RegExpEscape.

(** ** Vocabulary of the further response-splitter properties *)

(** The visible (non-whitespace) code units of a text, in order. *)
Definition visible (s : jsstring) : jsstring :=
  List.filter (fun c => negb (JS.isWhiteSpace c)) s.

(** A code unit that [filterEmojis] removes wherever it stands: the
    copyright and registered signs and U+2000 to U+3300. *)
Definition isEmojiSymbol (c : N) : bool :=
  ((c =? 169) || (c =? 174) || ((8192 <=? c) && (c <=? 13056)))%N.

(** A code unit that starts one of the surrogate pairs [filterEmojis]
    removes: U+D83C, U+D83D or U+D83E. *)
Definition isEmojiLead (c : N) : bool :=
  ((c =? 55356) || (c =? 55357) || (c =? 55358))%N.


(** ** src/services/geminiService.js: [chat], up to the request *)
Module GeminiChat.

(** What [chat] does before it talks to the API. *)
Inductive chatStart :=
| ReturnsNull
    (* the client is not initialized, or there are no messages *)
| ReturnsInstructions (reply : jsstring)
    (* the user info is incomplete: instructions instead of a completion *)
| StartsChat (userId : option jsstring)
    (formattedHistory : list GeminiService.geminiMessage)
    (currentUserMessage : message).

(** [[0-9]], the class [\d] *)
Definition isDigit (c : N) : bool := ((48 <=? c) && (c <=? 57))%N.

(** [options.channelId.match(/^dm_(\d+)$/)]: the captured digits. *)
Definition channelIdMatch (channelId : jsstring) : option jsstring :=
  if JS.startsWith channelId (JS.str "dm_")
     && (0 <? length (drop 3 channelId))
     && forallb isDigit (drop 3 channelId)
  then Some (drop 3 channelId) else None.

(** The text returned to a user whose info is incomplete. *)
Definition instructions (cfg : config) (missingFields : list jsstring) : jsstring :=
  JS.str "Before we can chat, pls provide the following:" ++ MESSAGE_SPLIT_TOKEN cfg
  ++ JS.join [10%N]
       ((fun field =>
           JS.str "- " ++ field ++ JS.str ": Use `" ++ COMMAND_PREFIX cfg
           ++ JS.str " input " ++ field ++ JS.str " your_" ++ field ++ JS.str "`")
        <$> missingFields)
  ++ MESSAGE_SPLIT_TOKEN cfg ++ JS.str "pls.".

(** [chat(messages, modelName, options)] up to [startChat]; [isAvailable]
    is the value of [isAvailable()], and an empty [channelId] stands for
    an absent one. *)
Definition chat (cfg : config) (rt : runtime) (users : UserInfoManager.state)
    (isAvailable : bool) (messages : list message) (channelId : jsstring)
    : chatStart :=
  if negb isAvailable then ReturnsNull
  else
    match last messages with
    | None => ReturnsNull              (* Gemini chat called with no messages *)
    | Some currentUserMessage =>
        let userId :=
          if 0 <? length channelId then channelIdMatch channelId else None in
        let proceeds :=
          (* The history is all messages before the current user's turn *)
          StartsChat userId
            (GeminiService.formatMessagesForGemini
               (take (length messages - 1) messages))
            currentUserMessage in
        match userId with
        | Some id =>
            if negb (UserInfoManager.isUserInfoComplete rt users id)
            then ReturnsInstructions
                   (instructions cfg (UserInfoManager.getMissingFields rt users id))
            else proceeds
        | None => proceeds
        end
    end.

End GeminiChat.

(** ** Vocabulary of the further compaction properties *)

(** The parts of a compacted history, each with the role of its turn. *)
Definition rendering (l : list GeminiService.geminiMessage)
    : list (jsstring * jsstring) :=
  l ≫= (fun g => (fun p => (GeminiService.gRole g, GeminiService.text p))
                   <$> GeminiService.parts g).

(** No two neighbours in the list have the same role. *)
Definition alternating (l : list GeminiService.geminiMessage) : Prop :=
  ∀ i a b, l !! i = Some a → l !! (S i) = Some b →
    GeminiService.gRole a ≠ GeminiService.gRole b.

(** A turn as Gemini accepts it: role [user] or [model] and at least one
    part. *)
Definition wellFormedTurn (g : GeminiService.geminiMessage) : Prop :=
  (GeminiService.gRole g = JS.str "user" ∨ GeminiService.gRole g = JS.str "model")
  ∧ GeminiService.parts g ≠ [].

(** The loop state of [formatMessagesForGemini] holds well-formed,
    alternating turns, and the turn being collected differs in role from
    the last one pushed. *)
Definition formatInvariant (st : GeminiService.formatState) : Prop :=
  let '(geminiMessages, currentRole, currentParts) := st in
  Forall wellFormedTurn geminiMessages
  ∧ alternating geminiMessages
  ∧ match currentRole with
    | None => geminiMessages = [] ∧ currentParts = []
    | Some r =>
        (r = JS.str "user" ∨ r = JS.str "model") ∧ currentParts ≠ []
        ∧ ∀ a, last geminiMessages = Some a → GeminiService.gRole a ≠ r
    end.

(** The parts held by the loop state, pushed or still being collected. *)
Definition renderState (st : GeminiService.formatState)
    : list (jsstring * jsstring) :=
  let '(geminiMessages, currentRole, currentParts) := st in
  rendering geminiMessages
  ++ match currentRole with
     | Some r => (fun p => (r, GeminiService.text p)) <$> currentParts
     | None => []
     end.


(** ** User info used in the statements below *)

(** The user [42] has given a name and a city; the required fields are
    [name] and [city]. *)
Definition oneKnownUser : UserInfoManager.state := {|
  UserInfoManager.userInfo :=
    {[ JS.str "42" := {[ JS.str "name" := JS.str "Ann"; JS.str "city" := JS.str "Oslo" ]} ]};
  UserInfoManager.REQUIRED_FIELDS := [JS.str "name"; JS.str "city"];
|}.

(** The user [42] has given a name only. *)
Definition oneHalfKnownUser : UserInfoManager.state := {|
  UserInfoManager.userInfo := {[ JS.str "42" := {[ JS.str "name" := JS.str "Ann" ]} ]};
  UserInfoManager.REQUIRED_FIELDS := [JS.str "name"; JS.str "city"];
|}.


(** ** src/utils/userInfoManager.js: the user info file and the setters *)
Module UserInfoStore.
Import JSON.

(** The file [data/usersInfo.json]: the text [fs.readFileSync] returns
    ([None]: the file does not exist), and whether writing it (and
    creating its directory) succeeds. *)
Record userInfoFs := {
  userInfoFile : option jsstring;
  userInfoWritable : bool;
}.

(** The orders in which the runtime lists the keys of [userInfo] and of
    the record of one user. *)
Record keyOrder := {
  enumerateUsers :
    gmap jsstring (gmap jsstring jsstring) → list (jsstring * gmap jsstring jsstring);
  enumerateFields : gmap jsstring jsstring → list (jsstring * jsstring);
}.

(** [userInfo] as the value that [JSON.stringify] walks. *)
Definition userInfoObject (order : keyOrder)
    (userInfo : gmap jsstring (gmap jsstring jsstring)) : json :=
  JObject ((fun user =>
              (user.1,
               JObject ((fun field => (field.1, JString field.2))
                        <$> enumerateFields order user.2)))
           <$> enumerateUsers order userInfo).

(** The record of one user in a parsed file: its fields, all strings. *)
Definition recordOfJson (v : json) : option (gmap jsstring jsstring) :=
  match v with
  | JObject fields =>
      entries ← mapM (fun field =>
                        match field.2 with
                        | JString value => Some (field.1, value)
                        | _ => None
                        end) fields;
      Some (list_to_map (reverse entries))
  | _ => None
  end.

(** The parsed file as the [userInfo] object.  [None]: the file holds
    something else than records of string fields; such files are outside
    this model. *)
Definition userInfoOfJson (v : json)
    : option (gmap jsstring (gmap jsstring jsstring)) :=
  match v with
  | JObject members =>
      entries ← mapM (fun user => pair user.1 <$> recordOfJson user.2) members;
      Some (list_to_map (reverse entries))
  | _ => None
  end.

Definition withUserInfo (userInfo : gmap jsstring (gmap jsstring jsstring))
    (st : UserInfoManager.state) : UserInfoManager.state :=
  {| UserInfoManager.userInfo := userInfo;
     UserInfoManager.REQUIRED_FIELDS := UserInfoManager.REQUIRED_FIELDS st |}.

(** [saveUserInfo()]: the value returned and the file system afterwards. *)
Definition saveUserInfo (order : keyOrder) (fs : userInfoFs)
    (st : UserInfoManager.state) : bool * userInfoFs :=
  if userInfoWritable fs then
    (true,
     {| userInfoFile :=
          Some (HistoryPersistence.throughUtf8
                  (stringify (userInfoObject order (UserInfoManager.userInfo st))));
        userInfoWritable := userInfoWritable fs |})
  else (false, fs).   (* Error saving user info: logged *)

(** [reloadUserInfo()]: the value returned and the state afterwards. *)
Definition reloadUserInfo (fs : userInfoFs) (st : UserInfoManager.state)
    : option (bool * UserInfoManager.state) :=
  match userInfoFile fs with
  | None => Some (false, st)          (* File does not exist, nothing to reload *)
  | Some data =>
      if length (JS.trim data) =? 0 then Some (false, st)
                                      (* File is empty, keeping current data *)
      else
        match parse data with
        | None => Some (false, st)    (* Failed to parse JSON from file *)
        | Some loadedData =>
            userInfo ← userInfoOfJson loadedData;
            Some (true, withUserInfo userInfo st)
        end
  end.


(** [addRequiredField(fieldName)] *)
Definition addRequiredField (st : UserInfoManager.state) (fieldName : jsstring)
    : bool * UserInfoManager.state :=
  if bool_decide (fieldName ∈ UserInfoManager.REQUIRED_FIELDS st) then (false, st)
  else
    (true,
     {| UserInfoManager.userInfo := UserInfoManager.userInfo st;
        UserInfoManager.REQUIRED_FIELDS :=
          UserInfoManager.REQUIRED_FIELDS st ++ [fieldName] |}).


End UserInfoStore.

(** The key orders that list exactly the entries of the object. *)
Definition listsEveryKey (order : UserInfoStore.keyOrder) : Prop :=
  (∀ userInfo, UserInfoStore.enumerateUsers order userInfo ≡ₚ map_to_list userInfo)
  ∧ (∀ record, UserInfoStore.enumerateFields order record ≡ₚ map_to_list record).

(** The order in which the map itself lists its entries. *)
Definition mapOrder : UserInfoStore.keyOrder :=
  {| UserInfoStore.enumerateUsers := map_to_list;
     UserInfoStore.enumerateFields := map_to_list |}.



(** ** What happens to the proactive scheduler over time *)
Module ProactiveEvents.
Import ProactiveMessaging.




End ProactiveEvents.



(** ** Vocabulary of the further handler properties *)

(** The message passes sections 1 and 2 of [execute]: the cooldown is
    taken. *)
Definition passesChecks (cfg : config) (rt : runtime)
    (env : MessageCreateHandler.turnEnv) (msg : MessageCreateHandler.discordMessage)
    (st : MessageCreateHandler.handlerState) : bool :=
  match MessageCreateHandler.preChecks cfg rt env msg st with
  | inl _ => false
  | inr _ => true
  end.

(** The call hands a text to the platform: [reply] or [send]. *)
Definition isOutgoing (e : MessageCreateHandler.effect) : bool :=
  match e with
  | MessageCreateHandler.Reply _ | MessageCreateHandler.Send _ => true
  | _ => false
  end.

(** The notice sent when nothing of a completion is left to deliver. *)
Definition noSubstantialResponse : jsstring :=
  JS.str "... (No substantial response generated)".

(** What is handed to the platform for a part of a completion: a message
    that respects the chunk size, or the pause between two parts. *)
Definition deliverable (cfg : config) (e : MessageCreateHandler.effect) : Prop :=
  match e with
  | MessageCreateHandler.Send text => length text ≤ MESSAGE_CHUNK_SIZE cfg
  | MessageCreateHandler.Delay ms => ms = MESSAGE_SPLIT_DELAY_MS cfg ∧ (0 < ms)%Z
  | _ => False
  end.


(** ** src/commands/addHistoryCommand.js *)
Module AddHistoryCommand.

(** [parseInt(string, 10)]; [None] is [NaN].  Leading whitespace is
    skipped, a sign is read, and the digits that follow give the value. *)
Definition isDigit (c : N) : bool := ((48 <=? c) && (c <=? 57))%N.

Fixpoint digitsValue (acc : Z) (s : jsstring) : Z :=
  match s with
  | c :: r =>
      if isDigit c then digitsValue (acc * 10 + Z.of_N (c - 48)) r else acc
  | [] => acc
  end.

Definition parseInt (s : jsstring) : option Z :=
  let s := JS.trimStart s in
  let '(sign, digits) :=
    match s with
    | c :: r =>
        if (c =? 45)%N then ((-1)%Z, r)
        else if (c =? 43)%N then (1%Z, r) else (1%Z, s)
    | [] => (1%Z, [])
    end in
  match digits with
  | d :: _ => if isDigit d then Some (sign * digitsValue 0 digits)%Z else None
  | [] => None
  end.

(** The decimal digits of a natural number, most significant first. *)
Fixpoint digitsOf (fuel : nat) (n : N) (acc : jsstring) : jsstring :=
  match fuel with
  | 0 => acc
  | S fuel' =>
      let acc := (48 + n mod 10)%N :: acc in
      if (n / 10 =? 0)%N then acc else digitsOf fuel' (n / 10) acc
  end.

(** [String(z)] for an integer. *)
Definition numberToString (z : Z) : jsstring :=
  (if (z <? 0)%Z then [45%N] else [])
  ++ digitsOf (S (N.size_nat (Z.abs_N z))) (Z.abs_N z) [].

(** The fields of a fetched Discord message that the command reads. *)
Record fetchedMessage := {
  fetchedId : jsstring;
  fetchedAuthorId : jsstring;
  fetchedAuthorIsBot : bool;
  fetchedGlobalName : jsstring;       (* empty when null *)
  fetchedUsername : jsstring;
  fetchedContent : jsstring;
  createdTimestamp : Z;
}.

(** [.sort((a, b) => a.createdTimestamp - b.createdTimestamp)]: oldest
    first; the sort is stable. *)
Fixpoint insertByTime (x : fetchedMessage) (l : list fetchedMessage)
    : list fetchedMessage :=
  match l with
  | [] => [x]
  | y :: l' =>
      if (createdTimestamp x <=? createdTimestamp y)%Z then x :: l
      else y :: insertByTime x l'
  end.

Definition sortByTime (l : list fetchedMessage) : list fetchedMessage :=
  foldr insertByTime [] l.

(** The turn a fetched message becomes. *)
Definition toTurn (cfg : config) (msg : fetchedMessage) : message :=
  let content :=
    if 0 <? length (fetchedContent msg) then fetchedContent msg
    else JS.str "[No text content]" in
  let content :=
    if MULTIPLE_CHATTERS cfg then
      (if 0 <? length (fetchedGlobalName msg) then fetchedGlobalName msg
       else fetchedUsername msg) ++ JS.str ": " ++ content
    else content in
  {| role := JS.str "user"; content := content; timestamp := None |}.

(** [recentUserMessages]: oldest first, without the command, the bot's own
    messages and those of other bots. *)
Definition recentUserMessages (cfg : config) (messageId clientUserId : jsstring)
    (fetchedMessages : list fetchedMessage) : list message :=
  toTurn cfg
  <$> List.filter
        (fun msg =>
           negb (bool_decide (fetchedId msg = messageId))
           && negb (bool_decide (fetchedAuthorId msg = clientUserId))
           && negb (fetchedAuthorIsBot msg))
        (sortByTime fetchedMessages).

(** [newUniqueMessages]: the turns whose content no stored turn has. *)
Definition newUniqueMessages (existingHistory recent : list message)
    : list message :=
  List.filter
    (fun newMessage =>
       negb (existsb (fun existingMessage =>
                        bool_decide (content existingMessage = content newMessage))
                     existingHistory))
    recent.

(** [execute(message, args, { client })]: the history, the file system and
    the calls made.  [fetchMessages limit] is what
    [message.channel.messages.fetch({ limit, before: message.id })] answers,
    [None] when it throws; [sendTyping] and [send] are taken to succeed, as
    in the message handler. *)
Definition execute (cfg : config)
    (enumerate : HistoryManager.store → list (jsstring * list message))
    (fetchMessages : Z → option (list fetchedMessage))
    (clientUserId messageId channelId : jsstring) (args : list jsstring)
    (conversationHistory : HistoryManager.store)
    (fs : HistoryPersistence.fileSystem)
    : HistoryManager.store * HistoryPersistence.fileSystem
      * list MessageCreateHandler.effect :=
  let Send := MessageCreateHandler.Send in
  if (MAX_HISTORY_SIZE cfg =? 0)%Z then
    (conversationHistory, fs,
     [Send (JS.str "History is disabled (`MAX_HISTORY_SIZE=0`), so I can't add past messages.")])
  else
    let currentHistory :=
      HistoryManager.getChannelHistory conversationHistory channelId in
    let warning :=
      if (0 <? MAX_HISTORY_SIZE cfg)%Z && (0 <? length currentHistory) then
        [Send (JS.str "Warning: Adding history to a channel with existing, limited history may result in older messages being pruned to fit the `MAX_HISTORY_SIZE` limit ("
               ++ numberToString (MAX_HISTORY_SIZE cfg) ++ JS.str ").")]
      else if (MAX_HISTORY_SIZE cfg =? -1)%Z && (0 <? length currentHistory) then
        [Send (JS.str "History is unlimited. Adding more from Discord might duplicate entries if those messages are already in history.")]
      else [] in
    let numMessages :=
      match head args with
      | Some numMessagesStr => parseInt numMessagesStr
      | None => None                    (* parseInt(undefined) is NaN *)
      end in
    match numMessages with
    | None =>
        (conversationHistory, fs,
         warning
         ++ [Send (JS.str "Please specify a valid number of recent messages to add (1-200), e.g., `"
                   ++ COMMAND_PREFIX cfg ++ JS.str " addhistory 20`.")])
    | Some numMessages =>
        if (numMessages <=? 0)%Z || (200 <? numMessages)%Z then
          (conversationHistory, fs,
           warning
           ++ [Send (JS.str "Please specify a valid number of recent messages to add (1-200), e.g., `"
                     ++ COMMAND_PREFIX cfg ++ JS.str " addhistory 20`.")])
        else
          let fx := warning ++ [MessageCreateHandler.SendTyping] in
          match fetchMessages (numMessages + 1)%Z with
          | None =>
              (conversationHistory, fs,
               fx ++ [Send (JS.str "Sorry, I couldn't fetch the message history. Something went wrong.")])
          | Some fetchedMessages =>
              let recent :=
                recentUserMessages cfg messageId clientUserId fetchedMessages in
              if length recent =? 0 then
                (conversationHistory, fs,
                 fx ++ [Send (JS.str "No recent user messages found to add (excluding my own and the command).")])
              else
                let existingHistory :=
                  HistoryManager.getChannelHistory conversationHistory channelId in
                let new := newUniqueMessages existingHistory recent in
                if length new =? 0 then
                  (conversationHistory, fs,
                   fx ++ [Send (JS.str "No new unique messages found to add to the history.")])
                else
                  (* Prepend new messages *)
                  let combinedHistory := new ++ existingHistory in
                  let combinedHistory :=
                    if (0 <? MAX_HISTORY_SIZE cfg)%Z
                    then take (Z.to_nat (MAX_HISTORY_SIZE cfg)) combinedHistory
                    else combinedHistory in
                  let conversationHistory :=
                    HistoryManager.updateChannelHistory conversationHistory
                      channelId combinedHistory in
                  (conversationHistory,
                   HistoryPersistence.saveHistory enumerate fs conversationHistory,
                   fx ++ [MessageCreateHandler.SaveHistory;
                          Send (JS.str "Added "
                                ++ numberToString (Z.of_nat (length new))
                                ++ JS.str " recent unique user messages to the history. The history now contains "
                                ++ numberToString (Z.of_nat (length combinedHistory))
                                ++ JS.str " messages.")])
          end
    end.

End AddHistoryCommand.

(** The call is [historyManager.saveHistory()]. *)
Definition isSave (e : MessageCreateHandler.effect) : bool :=
  match e with
  | MessageCreateHandler.SaveHistory => true
  | _ => false
  end.


(** * Properties *)

(** ** History store: retention *)
Section HistoryRetention.
Import HistoryManager.

Lemma mostRecent_length {A} n (l : list A) : length (mostRecent n l) ≤ n.
Proof. unfold mostRecent. rewrite length_drop. lia. Qed.

Lemma mostRecent_short {A} n (l : list A) : length l ≤ n → mostRecent n l = l.
Proof.
  intros Hl. unfold mostRecent.
  replace (length l - n) with 0 by lia. reflexivity.
Qed.

Lemma mostRecent_app {A} n (l l' : list A) :
  mostRecent n (mostRecent n l ++ l') = mostRecent n (l ++ l').
Proof.
  unfold mostRecent. rewrite !length_app, length_drop.
  destruct (decide (length l ≤ n)) as [Hle|Hgt].
  - replace (length l - n) with 0 by lia. by rewrite drop_0, Nat.sub_0_r.
  - rewrite !drop_app, drop_drop, !length_drop.
    f_equal; f_equal; lia.
Qed.

Variable cfg : config.

Lemma getChannelHistory_add_same h channelId m :
  MAX_HISTORY_SIZE cfg ≠ 0%Z →
  getChannelHistory (addMessageToHistory cfg h channelId m) channelId =
    if (0 <? MAX_HISTORY_SIZE cfg)%Z
    then mostRecent (Z.to_nat (MAX_HISTORY_SIZE cfg))
           (getChannelHistory h channelId ++ [m])
    else getChannelHistory h channelId ++ [m].
Proof.
  intros Hnz. unfold addMessageToHistory, updateChannelHistory.
  destruct (Z.eqb_spec (MAX_HISTORY_SIZE cfg) 0) as [|_]; [done|].
  unfold getChannelHistory at 1. rewrite lookup_insert_eq.
  destruct (Z.ltb_spec 0 (MAX_HISTORY_SIZE cfg)) as [Hpos|Hneg]; simpl; [|done].
  set (hist := getChannelHistory h channelId ++ [m]).
  destruct (Z.ltb_spec (MAX_HISTORY_SIZE cfg) (Z.of_nat (length hist))) as [Hlong|Hshort].
  - unfold JS.slice, mostRecent.
    destruct (Z.ltb_spec (Z.of_nat (length hist) - MAX_HISTORY_SIZE cfg) 0); [lia|].
    f_equal. lia.
  - symmetry. apply mostRecent_short. lia.
Qed.

Lemma getChannelHistory_add_other h channelId other m :
  channelId ≠ other →
  getChannelHistory (addMessageToHistory cfg h channelId m) other =
    getChannelHistory h other.
Proof.
  intros Hne. unfold addMessageToHistory, updateChannelHistory, getChannelHistory.
  destruct (MAX_HISTORY_SIZE cfg =? 0)%Z.
  - case_bool_decide; [|done]. by rewrite lookup_delete_ne.
  - by rewrite lookup_insert_ne.
Qed.

(** From any store whose entry for [channelId] already respects the bound,
    a run of appends leaves the most recent [N] of old and new turns. *)
Lemma appendAll_mostRecent appends : ∀ h channelId,
  (0 < MAX_HISTORY_SIZE cfg)%Z →
  length (getChannelHistory h channelId) ≤ Z.to_nat (MAX_HISTORY_SIZE cfg) →
  getChannelHistory (appendAll cfg h appends) channelId =
    mostRecent (Z.to_nat (MAX_HISTORY_SIZE cfg))
      (getChannelHistory h channelId ++ appendedTo channelId appends).
Proof.
  induction appends as [|[c m] rest IH]; intros h channelId Hpos Hlen.
  - simpl. unfold appendedTo. simpl. rewrite app_nil_r.
    symmetry. by apply mostRecent_short.
  - change (appendAll cfg h ((c, m) :: rest))
      with (appendAll cfg (addMessageToHistory cfg h c m) rest).
    unfold appendedTo. rewrite filter_cons. simpl.
    destruct (decide (c = channelId)) as [->|Hne].
    + rewrite IH; [|done|].
      * rewrite getChannelHistory_add_same by lia.
        destruct (Z.ltb_spec 0 (MAX_HISTORY_SIZE cfg)); [|lia].
        rewrite mostRecent_app. simpl. by rewrite <- app_assoc.
      * rewrite getChannelHistory_add_same by lia.
        destruct (Z.ltb_spec 0 (MAX_HISTORY_SIZE cfg)); [|lia].
        apply mostRecent_length.
    + rewrite IH; [|done|].
      * by rewrite getChannelHistory_add_other.
      * by rewrite getChannelHistory_add_other.
Qed.

End HistoryRetention.

(** C1. With [MAX_HISTORY_SIZE = N > 0], after any sequence of appends made
    through [addMessageToHistory] (starting from the empty store), the
    history that [getChannelHistory] returns for any conversation id has at
    most [N] entries and is exactly the most recent [N] turns appended to
    that id, in append order; with [N = 2], appending A, B, C yields
    [B; C]. *)
Theorem bounded_history_keeps_most_recent
    (cfg : config) (appends : list (jsstring * message)) (channelId : jsstring) :
  (0 < MAX_HISTORY_SIZE cfg)%Z →
  let N := Z.to_nat (MAX_HISTORY_SIZE cfg) in
  let history :=
    HistoryManager.getChannelHistory
      (HistoryManager.appendAll cfg ∅ appends) channelId in
  length history ≤ N
  ∧ history = HistoryManager.mostRecent N (HistoryManager.appendedTo channelId appends)
  ∧ (MAX_HISTORY_SIZE cfg = 2%Z → ∀ A B C : message,
       HistoryManager.getChannelHistory
         (HistoryManager.appendAll cfg ∅
            [(channelId, A); (channelId, B); (channelId, C)]) channelId
       = [B; C]).
Proof.
  intros Hpos N history.
  assert (Hgen : ∀ ops,
    HistoryManager.getChannelHistory (HistoryManager.appendAll cfg ∅ ops) channelId
    = HistoryManager.mostRecent N (HistoryManager.appendedTo channelId ops)).
  { intros ops. rewrite appendAll_mostRecent; [done|done|].
    unfold HistoryManager.getChannelHistory. rewrite lookup_empty. simpl. lia. }
  split; [|split].
  - subst history. rewrite Hgen. apply mostRecent_length.
  - apply Hgen.
  - intros H2 A B C. rewrite Hgen. subst N. rewrite H2.
    unfold HistoryManager.appendedTo. rewrite !filter_cons, filter_nil.
    rewrite !decide_True by done. reflexivity.
Qed.

(** C8. With [MAX_HISTORY_SIZE = 0] (one-shot), whatever was stored before,
    a [getChannelHistory] that follows an [addMessageToHistory] for the same
    conversation id returns the empty sequence. *)
Theorem one_shot_history_is_empty
    (cfg : config) (h : HistoryManager.store) (channelId : jsstring) (m : message) :
  MAX_HISTORY_SIZE cfg = 0%Z →
  HistoryManager.getChannelHistory
    (HistoryManager.addMessageToHistory cfg h channelId m) channelId = [].
Proof.
  intros H0. unfold HistoryManager.addMessageToHistory, HistoryManager.getChannelHistory.
  rewrite H0. simpl. case_bool_decide as Hin.
  - by rewrite lookup_delete_eq.
  - destruct (h !! channelId) eqn:E; [|done]. exfalso. apply Hin. eauto.
Qed.

(** ** Response splitter *)
Section Blank.

Lemma blank_app a b : blank (a ++ b) = blank a && blank b.
Proof. apply forallb_app. Qed.

Lemma blank_reverse s : blank (reverse s) = blank s.
Proof.
  induction s as [|c s IH]; [done|].
  rewrite reverse_cons, blank_app, IH. simpl. rewrite andb_true_r. apply andb_comm.
Qed.

Lemma blank_concat l : blank (concat l) = forallb blank l.
Proof.
  induction l as [|a l IH]; [done|]. simpl. by rewrite blank_app, IH.
Qed.

Lemma trimStart_nil s : JS.trimStart s = [] ↔ blank s = true.
Proof.
  induction s as [|c s IH]; simpl; [done|].
  destruct (JS.isWhiteSpace c); simpl; [done|]. split; discriminate.
Qed.

Lemma trimStart_blank s : blank (JS.trimStart s) = blank s.
Proof.
  induction s as [|c s IH]; simpl; [done|].
  destruct (JS.isWhiteSpace c) eqn:E; simpl; [done|]. by rewrite E.
Qed.

Lemma trimStart_length s : length (JS.trimStart s) ≤ length s.
Proof.
  induction s as [|c s IH]; simpl; [done|].
  destruct (JS.isWhiteSpace c); simpl; lia.
Qed.

Lemma trim_blank s : blank (JS.trim s) = blank s.
Proof.
  unfold JS.trim, JS.trimEnd.
  by rewrite blank_reverse, trimStart_blank, blank_reverse, trimStart_blank.
Qed.

Lemma trim_nil s : JS.trim s = [] ↔ blank s = true.
Proof.
  unfold JS.trim, JS.trimEnd.
  rewrite <- (trimStart_blank s), <- (blank_reverse (JS.trimStart s)).
  rewrite <- trimStart_nil.
  split; intros H.
  - apply (f_equal reverse) in H. by rewrite reverse_involutive in H.
  - by rewrite H.
Qed.

Lemma trim_length s : length (JS.trim s) ≤ length s.
Proof.
  unfold JS.trim, JS.trimEnd. rewrite length_reverse.
  etrans; [apply trimStart_length|]. rewrite length_reverse. apply trimStart_length.
Qed.

(** The test [s.trim().length > 0] of the sources. *)
Lemma trim_length_pos s : (0 <? length (JS.trim s)) = negb (blank s).
Proof.
  destruct (blank s) eqn:E.
  - apply trim_nil in E. by rewrite E.
  - destruct (JS.trim s) eqn:T; [|done].
    apply trim_nil in T. congruence.
Qed.

Lemma blank_concat_true l :
  blank (concat l) = true ↔ Forall (λ c, blank c = true) l.
Proof.
  rewrite blank_concat. induction l as [|a l IH]; simpl.
  - split; [constructor|done].
  - rewrite andb_true_iff, IH, Forall_cons. done.
Qed.

Lemma blank_concat_false l :
  blank (concat l) = false ↔ Exists (λ c, blank c = false) l.
Proof.
  rewrite blank_concat. induction l as [|a l IH]; simpl.
  - split; [done|]. by intros ?%Exists_nil.
  - rewrite andb_false_iff, IH, Exists_cons. done.
Qed.

End Blank.

Section Splitter.
Import MessageUtils.

Variable maxLength : nat.
Hypothesis maxLength_pos : 0 < maxLength.

Lemma hardSplitFrom_spec fuel : ∀ s j,
  length s - j ≤ fuel →
  ∃ l, hardSplitFrom fuel s maxLength j = Some l
       ∧ Forall (fits maxLength) l ∧ concat l = drop j s.
Proof.
  induction fuel as [|fuel IH]; intros s j Hfuel.
  - simpl. destruct (Nat.ltb_spec j (length s)); [lia|].
    exists []. split_and!; [done|constructor|]. by rewrite drop_ge.
  - simpl. destruct (Nat.ltb_spec j (length s)) as [Hj|Hj].
    + destruct (IH s (j + maxLength)) as (l & -> & Hfit & Hcat); [lia|].
      eexists. split; [reflexivity|]. 
      assert (Hsub : JS.substring s j ((j + maxLength) `min` length s)
                     = take maxLength (drop j s)).
      { unfold JS.substring.
        replace (j `min` length s) with j by lia.
        replace (((j + maxLength) `min` length s) `min` length s)
          with ((j + maxLength) `min` length s) by lia.
        replace (j `min` ((j + maxLength) `min` length s)) with j by lia.
        destruct (decide (j + maxLength ≤ length s)).
        - f_equal. lia.
        - rewrite !take_ge; [done| |]; rewrite length_drop; lia. }
      rewrite Hsub. split.
      * constructor; [|done]. unfold fits. rewrite length_take. lia.
      * simpl. rewrite Hcat, <- drop_drop. apply take_drop.
    + exists []. split_and!; [done|constructor|]. by rewrite drop_ge.
Qed.

Lemma hardSplit_spec s :
  ∃ l, hardSplit s maxLength = Some l ∧ Forall (fits maxLength) l ∧ concat l = s.
Proof.
  destruct (hardSplitFrom_spec (length s) s 0) as (l & H & ? & Hc); [lia|].
  exists l. by rewrite drop_0 in Hc.
Qed.

Lemma splitStep_fits st part :
  state_fits maxLength st →
  ∃ st', splitStep maxLength st part = Some st' ∧ state_fits maxLength st'.
Proof.
  destruct st as [chunks cur]. intros [Hc Hcur]. simpl in *. unfold fits in Hcur.
  unfold splitStep.
  set (extra := if (0 <? length cur) && negb (bool_decide (part = [10%N]))
                then 1 else 0).
  assert (Hchunks1 : Forall (fits maxLength)
            (if 0 <? length cur then chunks ++ [JS.trim cur] else chunks)).
  { destruct (0 <? length cur); [|done].
    apply Forall_app. split; [done|]. constructor; [|constructor].
    unfold fits. pose proof (trim_length cur). lia. }
  destruct (Nat.ltb_spec maxLength (length cur + length part + extra)) as [Hover|Hok].
  - destruct (Nat.ltb_spec maxLength (length part)) as [Hlong|Hshort].
    + destruct (hardSplit_spec part) as (l & -> & Hl & _). simpl.
      eexists. split; [reflexivity|]. split; simpl.
      * by apply Forall_app.
      * unfold fits. simpl. lia.
    + eexists. split; [reflexivity|]. by split.
  - eexists. split; [reflexivity|]. split; [done|]. simpl. unfold fits.
    subst extra.
    destruct ((0 <? length cur) && negb (bool_decide (part = [10%N]))) eqn:E; simpl.
    + destruct (0 <? length (JS.trim part));
        rewrite !length_app; simpl; lia.
    + rewrite length_app. lia.
Qed.

Lemma splitStep_blank st part st' :
  blank part = true → state_blank st →
  splitStep maxLength st part = Some st' → state_blank st'.
Proof.
  destruct st as [chunks cur]. intros Hp [Hc Hcur]. simpl in *.
  unfold splitStep.
  assert (Hchunks1 : Forall (λ c, blank c = true)
            (if 0 <? length cur then chunks ++ [JS.trim cur] else chunks)).
  { destruct (0 <? length cur); [|done].
    apply Forall_app. split; [done|]. constructor; [|constructor].
    by rewrite trim_blank. }
  destruct (maxLength <? _ + _ + _).
  - destruct (maxLength <? length part).
    + destruct (hardSplit_spec part) as (l & -> & _ & Hcat). simpl.
      intros [= <-]. split; simpl; [|done].
      apply Forall_app. split; [done|].
      apply blank_concat_true. by rewrite Hcat.
    + intros [= <-]. by split.
  - intros [= <-]. split; [done|]. simpl.
    destruct (_ && _); rewrite ?blank_app, Hcur, Hp; done.
Qed.

Lemma splitStep_visible st part st' :
  blank part = false ∨ state_visible st →
  splitStep maxLength st part = Some st' → state_visible st'.
Proof.
  destruct st as [chunks cur]. unfold state_visible. simpl.
  intros Hvis. unfold splitStep.
  assert (Hchunks1 : Exists (λ c, blank c = false) chunks ∨ blank cur = false →
            Exists (λ c, blank c = false)
              (if 0 <? length cur then chunks ++ [JS.trim cur] else chunks)).
  { intros [Hc|Hcur].
    - destruct (0 <? length cur); [|done]. apply Exists_app. by left.
    - destruct cur as [|c cur]; [done|]. simpl.
      apply Exists_app. right. constructor. by rewrite trim_blank. }
  destruct (maxLength <? _ + _ + _).
  - destruct (maxLength <? length part).
    + destruct (hardSplit_spec part) as (l & -> & _ & Hcat). simpl.
      intros [= <-]. simpl. left. apply Exists_app.
      destruct Hvis as [Hp|Hst]; [right|left; by apply Hchunks1].
      apply blank_concat_false. by rewrite Hcat.
    + intros [= <-]. simpl.
      destruct Hvis as [Hp|Hst]; [by right|left; by apply Hchunks1].
  - intros [= <-]. simpl.
    destruct Hvis as [Hp|[Hc|Hcur]]; [right|by left|right].
    + rewrite blank_app, Hp. apply andb_false_r.
    + destruct ((0 <? length cur) && _ && _); rewrite !blank_app, Hcur; done.
Qed.

Lemma splitLoop_fits parts : ∀ st,
  state_fits maxLength st →
  ∃ st', splitLoop maxLength parts st = Some st' ∧ state_fits maxLength st'.
Proof.
  induction parts as [|part rest IH]; intros st Hst; simpl.
  - by exists st.
  - destruct (splitStep_fits st part Hst) as (st1 & -> & Hst1). simpl.
    by apply IH.
Qed.

Lemma splitLoop_blank parts : ∀ st st',
  Forall (λ p, blank p = true) parts → state_blank st →
  splitLoop maxLength parts st = Some st' → state_blank st'.
Proof.
  induction parts as [|part rest IH]; intros st st' Hparts Hst; simpl.
  - by intros [= <-].
  - apply Forall_cons in Hparts as [Hp Hrest].
    destruct (splitStep maxLength st part) as [st1|] eqn:E; simpl; [|done].
    apply IH; [done|]. by eapply splitStep_blank.
Qed.

Lemma splitLoop_visible parts : ∀ st st',
  Exists (λ p, blank p = false) parts ∨ state_visible st →
  splitLoop maxLength parts st = Some st' → state_visible st'.
Proof.
  induction parts as [|part rest IH]; intros st st' Hvis; simpl.
  - intros [= <-]. destruct Hvis as [?%Exists_nil|?]; done.
  - destruct (splitStep maxLength st part) as [st1|] eqn:E; simpl; [|done].
    apply IH.
    destruct Hvis as [[Hp|Hrest]%Exists_cons|Hst]; [right|by left|right];
      eapply splitStep_visible; eauto.
Qed.

Lemma safeguard_spec chunks :
  Forall (fits maxLength) chunks →
  ∃ l, safeguard maxLength chunks = Some l
       ∧ Forall (fits maxLength) l ∧ Forall (λ c, blank c = false) l
       ∧ (Exists (λ c, blank c = false) chunks → l ≠ [])
       ∧ (Forall (λ c, blank c = true) chunks → l = []).
Proof.
  induction chunks as [|chunk rest IH]; intros Hfit; simpl.
  - exists []. split_and!; try done. by intros ?%Exists_nil.
  - apply Forall_cons in Hfit as [Hchunk Hrest].
    destruct (IH Hrest) as (l & -> & Hl1 & Hl2 & Hl3 & Hl4). clear IH.
    unfold fits in Hchunk.
    destruct (Nat.ltb_spec maxLength (length chunk)); [lia|].
    rewrite trim_length_pos. destruct (blank chunk) eqn:E; simpl.
    + exists l. split_and!; try done.
      * intros [?|?]%Exists_cons; [congruence|auto].
      * intros [_ ?]%Forall_cons. auto.
    + exists (chunk :: l). split_and!; try done.
      * by constructor.
      * by constructor.
      * intros [? _]%Forall_cons; congruence.
Qed.

End Splitter.

Lemma splitKeepingNewlines_concat s :
  concat (MessageUtils.splitKeepingNewlines s) = s.
Proof.
  induction s as [|c s IH]; simpl; [done|].
  destruct (c =? 10)%N eqn:E.
  - apply N.eqb_eq in E as ->. simpl. by rewrite IH.
  - destruct (MessageUtils.splitKeepingNewlines s) as [|p ps]; simpl in *; by rewrite <- IH.
Qed.

Lemma normalizeNewlines_blank s :
  blank (MessageUtils.normalizeNewlines s) = blank s.
Proof.
  remember (length s) as n eqn:Hn.
  revert s Hn. induction (lt_wf n) as [n _ IH]. intros s ->.
  destruct s as [|c [|d r]]; [done|done|].
  change (MessageUtils.normalizeNewlines (c :: d :: r))
    with (if ((c =? 13) && (d =? 10))%N
          then 10%N :: MessageUtils.normalizeNewlines r
          else c :: MessageUtils.normalizeNewlines (d :: r)).
  destruct ((c =? 13) && (d =? 10))%N eqn:E.
  - apply andb_true_iff in E as [->%N.eqb_eq ->%N.eqb_eq].
    change (blank (10%N :: MessageUtils.normalizeNewlines r))
      with (blank (MessageUtils.normalizeNewlines r)).
    change (blank (13%N :: 10%N :: r)) with (blank r).
    eapply IH; [|reflexivity]. simpl. lia.
  - change (blank (c :: MessageUtils.normalizeNewlines (d :: r)))
      with (JS.isWhiteSpace c && blank (MessageUtils.normalizeNewlines (d :: r))).
    change (blank (c :: d :: r)) with (JS.isWhiteSpace c && blank (d :: r)).
    f_equal. eapply IH; [|reflexivity]. simpl. lia.
Qed.

Lemma placeholder_visible : blank MessageUtils.placeholder = false.
Proof. reflexivity. Qed.

(** What [splitMessage] returns for a positive [maxLength]: it returns, the
    list is not empty, no chunk is blank, and either the text is blank and
    the result is the lone placeholder, or every chunk fits. *)
Lemma splitMessage_spec (text : jsstring) (maxLength : nat) :
  0 < maxLength →
  ∃ chunks, MessageUtils.splitMessage text maxLength = Some chunks
    ∧ chunks ≠ []
    ∧ Forall (λ c, blank c = false) chunks
    ∧ (if blank text then chunks = [MessageUtils.placeholder]
       else Forall (fits maxLength) chunks).
Proof.
  intros Hpos. unfold MessageUtils.splitMessage.
  destruct text as [|t0 text']; [by eexists; split_and!; [done|done|repeat constructor|done]|].
  set (text := t0 :: text'). change (length text =? 0) with false. cbv iota.
  set (parts := MessageUtils.splitKeepingNewlines (MessageUtils.normalizeNewlines text)).
  assert (Hparts : concat parts = MessageUtils.normalizeNewlines text)
    by apply splitKeepingNewlines_concat.
  destruct (splitLoop_fits maxLength Hpos parts ([], [])) as ([chunks cur] & Hloop & Hfit1 & Hfit2).
  { split; [constructor|]. unfold fits. simpl. lia. }
  rewrite Hloop. simpl in Hfit1, Hfit2.
  cbn -[blank JS.trim MessageUtils.safeguard MessageUtils.hardSplit Nat.ltb length text].
  rewrite !trim_length_pos.
  destruct (blank text) eqn:Hblank.
  - (* nothing visible: every piece is blank and the placeholder is returned *)
    assert (Hst : state_blank (chunks, cur)).
    { eapply (splitLoop_blank maxLength Hpos parts ([], [])); [| |exact Hloop].
      - apply blank_concat_true. by rewrite Hparts, normalizeNewlines_blank.
      - by split. }
    destruct Hst as [Hc Hcur]. simpl in Hc, Hcur. rewrite Hcur.
    cbn [negb andb]. rewrite andb_false_r.
    cbn -[blank JS.trim MessageUtils.safeguard MessageUtils.hardSplit Nat.ltb length text].
    destruct (safeguard_spec maxLength Hpos chunks Hfit1) as (l & -> & _ & _ & _ & Hnil).
    rewrite (Hnil Hc). simpl.
    eexists. split_and!; [done|done|repeat constructor|done].
  - assert (Hst : state_visible (chunks, cur)).
    { eapply (splitLoop_visible maxLength Hpos parts ([], [])); [|exact Hloop].
      left. apply blank_concat_false. by rewrite Hparts, normalizeNewlines_blank. }
    set (chunks2 := if negb (blank cur) then chunks ++ [JS.trim cur] else chunks).
    assert (Hvis2 : Exists (λ c, blank c = false) chunks2).
    { subst chunks2. destruct Hst as [Hc|Hcur]; simpl in *.
      - destruct (negb (blank cur)); [apply Exists_app; by left|done].
      - rewrite Hcur. simpl. apply Exists_app. right. constructor.
        by rewrite trim_blank. }
    assert (Hfit3 : Forall (fits maxLength) chunks2).
    { subst chunks2. destruct (negb (blank cur)); [|done].
      apply Forall_app. split; [done|]. constructor; [|constructor].
      unfold fits in *. pose proof (trim_length cur). lia. }
    assert (Hlen : (length chunks2 =? 0) = false).
    { destruct chunks2; [by apply Exists_nil in Hvis2|done]. }
    rewrite Hlen. cbn [andb].
    cbn -[blank JS.trim MessageUtils.safeguard MessageUtils.hardSplit Nat.ltb length text].
    destruct (safeguard_spec maxLength Hpos chunks2 Hfit3) as (l & -> & Hl1 & Hl2 & Hl3 & _).
    specialize (Hl3 Hvis2).
    destruct l as [|l0 l']; [done|]. simpl.
    eexists. split_and!; done.
Qed.

(** C2, as stated, fails: for the empty text (and for a text of blanks) the
    result is the three-character placeholder, which is longer than a
    maximum of 2. *)
Lemma placeholder_exceeds_small_maximum :
  MessageUtils.splitMessage (JS.str "") 2 = Some [JS.str "..."]
  ∧ MessageUtils.splitMessage (JS.str "  ") 2 = Some [JS.str "..."]
  ∧ ¬ Forall (fits 2) [JS.str "..."].
Proof.
  split_and!; [reflexivity|reflexivity|].
  intros H. apply Forall_cons in H as [H _]. unfold fits in H. simpl in H. lia.
Qed.

(** C2, amended. For every text and every positive maximum length
    [splitMessage] returns; every chunk is at most [maxLength] long when the
    text has a visible character, and also whenever [maxLength] is at least
    3; for an empty or whitespace-only text the result is the single
    placeholder ["..."]. *)
Theorem split_chunks_fit_unless_placeholder (text : jsstring) (maxLength : nat) :
  0 < maxLength →
  ∃ chunks, MessageUtils.splitMessage text maxLength = Some chunks
    ∧ (blank text = false → Forall (fits maxLength) chunks)
    ∧ (blank text = true → chunks = [MessageUtils.placeholder])
    ∧ (3 ≤ maxLength → Forall (fits maxLength) chunks).
Proof.
  intros Hpos.
  destruct (splitMessage_spec text maxLength Hpos) as (chunks & Hrun & _ & _ & Hcase).
  exists chunks. split; [done|].
  destruct (blank text); split_and!; try done.
  intros H3. rewrite Hcase. constructor; [|constructor].
  unfold fits. simpl. lia.
Qed.

Lemma split_chunks_fit_unless_placeholder_witness :
  ∃ chunks, MessageUtils.splitMessage (JS.str "hello world") 4 = Some chunks
    ∧ (blank (JS.str "hello world") = false → Forall (fits 4) chunks)
    ∧ (blank (JS.str "hello world") = true → chunks = [MessageUtils.placeholder])
    ∧ (3 ≤ 4 → Forall (fits 4) chunks).
Proof.
  apply (split_chunks_fit_unless_placeholder (JS.str "hello world") 4). lia.
Defined.

(** C9. For every text whose trimmed form is not empty (and a positive
    maximum length), [splitMessage] returns a non-empty list of chunks, none
    of which is empty or whitespace only. *)
Theorem split_returns_visible_chunks (text : jsstring) (maxLength : nat) :
  0 < maxLength → JS.trim text ≠ [] →
  ∃ chunks, MessageUtils.splitMessage text maxLength = Some chunks
    ∧ chunks ≠ []
    ∧ Forall (λ c, c ≠ [] ∧ JS.trim c ≠ [] ∧ blank c = false) chunks.
Proof.
  intros Hpos _.
  destruct (splitMessage_spec text maxLength Hpos) as (chunks & Hrun & Hne & Hvis & _).
  exists chunks. split_and!; [done|done|].
  eapply Forall_impl; [exact Hvis|]. intros c Hc. split_and!; [|by rewrite trim_nil, Hc|done].
  by intros ->.
Qed.

Lemma split_returns_visible_chunks_witness :
  ∃ chunks, MessageUtils.splitMessage (JS.str " hello  world ") 5 = Some chunks
    ∧ chunks ≠ []
    ∧ Forall (λ c, c ≠ [] ∧ JS.trim c ≠ [] ∧ blank c = false) chunks.
Proof.
  apply (split_returns_visible_chunks (JS.str " hello  world ") 5); [lia|].
  vm_compute. discriminate.
Defined.

(** ** Gemini history compaction *)

Lemma partHasText_blank (p : GeminiService.part) :
  GeminiService.partHasText p = negb (blank (GeminiService.text p)).
Proof.
  unfold GeminiService.partHasText. destruct p as [t]. simpl.
  destruct (blank t) eqn:E.
  - apply trim_nil in E as Ht. rewrite Ht.
    rewrite bool_decide_eq_true_2 by done. apply andb_false_r.
  - destruct t as [|c t]; [done|]. simpl.
    rewrite bool_decide_eq_false_2; [done|].
    intros Ht%trim_nil. congruence.
Qed.

(** C6, as stated, fails: five turns [User, User, Assistant, Assistant,
    User] whose contents are all non-empty, the first being one space, are
    compacted to two turns with roles [model, user]. *)
Lemma whitespace_content_drops_merged_turn :
  Forall (λ m, content m ≠ []) turnsWithWhitespaceFirst
  ∧ GeminiService.formatMessagesForGemini turnsWithWhitespaceFirst =
      [ {| GeminiService.gRole := JS.str "model";
           GeminiService.parts := [ {| GeminiService.text := JS.str "c" |};
                                    {| GeminiService.text := JS.str "d" |} ] |};
        {| GeminiService.gRole := JS.str "user";
           GeminiService.parts := [ {| GeminiService.text := JS.str "e" |} ] |} ].
Proof.
  split; [|reflexivity].
  repeat constructor; discriminate.
Qed.

(** C6, amended. For the turns [User, User, Assistant, Assistant, User]
    whose contents each have a visible (non-whitespace) character,
    [formatMessagesForGemini] returns exactly three merged turns with roles
    [user, model, user], each carrying the contents of its consecutive
    same-role inputs as parts. *)
Theorem compaction_merges_same_role_runs (c1 c2 c3 c4 c5 : jsstring) :
  blank c1 = false → blank c2 = false → blank c3 = false →
  blank c4 = false → blank c5 = false →
  GeminiService.formatMessagesForGemini
    [userTurn c1; userTurn c2; assistantTurn c3; assistantTurn c4; userTurn c5] =
    [ {| GeminiService.gRole := JS.str "user";
         GeminiService.parts := [ {| GeminiService.text := c1 |};
                                  {| GeminiService.text := c2 |} ] |};
      {| GeminiService.gRole := JS.str "model";
         GeminiService.parts := [ {| GeminiService.text := c3 |};
                                  {| GeminiService.text := c4 |} ] |};
      {| GeminiService.gRole := JS.str "user";
         GeminiService.parts := [ {| GeminiService.text := c5 |} ] |} ].
Proof.
  intros H1 H2 H3 H4 H5.
  unfold GeminiService.formatMessagesForGemini.
  change (foldl GeminiService.formatStep ([], None, [])
            [userTurn c1; userTurn c2; assistantTurn c3; assistantTurn c4; userTurn c5])
    with ([ {| GeminiService.gRole := JS.str "user";
               GeminiService.parts := [ {| GeminiService.text := c1 |};
                                        {| GeminiService.text := c2 |} ] |};
            {| GeminiService.gRole := JS.str "model";
               GeminiService.parts := [ {| GeminiService.text := c3 |};
                                        {| GeminiService.text := c4 |} ] |} ],
          Some (JS.str "user"), [ {| GeminiService.text := c5 |} ]).
  cbn [GeminiService.pushCurrent List.filter forallb GeminiService.parts].
  change (0 <? length (JS.str "user")) with true.
  cbn [andb length Nat.ltb Nat.leb app List.filter forallb GeminiService.parts].
  rewrite !partHasText_blank. cbn [GeminiService.text].
  rewrite H1, H2, H3, H4, H5. reflexivity.
Qed.

Lemma compaction_merges_same_role_runs_witness :
  GeminiService.formatMessagesForGemini
    [userTurn (JS.str "a"); userTurn (JS.str "b"); assistantTurn (JS.str "c");
     assistantTurn (JS.str "d"); userTurn (JS.str "e")] =
    [ {| GeminiService.gRole := JS.str "user";
         GeminiService.parts := [ {| GeminiService.text := JS.str "a" |};
                                  {| GeminiService.text := JS.str "b" |} ] |};
      {| GeminiService.gRole := JS.str "model";
         GeminiService.parts := [ {| GeminiService.text := JS.str "c" |};
                                  {| GeminiService.text := JS.str "d" |} ] |};
      {| GeminiService.gRole := JS.str "user";
         GeminiService.parts := [ {| GeminiService.text := JS.str "e" |} ] |} ].
Proof.
  apply (compaction_merges_same_role_runs
           (JS.str "a") (JS.str "b") (JS.str "c") (JS.str "d") (JS.str "e"));
    reflexivity.
Defined.

(** C7 fails on the code: the final filter keeps a merged turn only when
    every one of its parts has text, so the empty first part of a merged
    user turn removes the whole turn and its non-empty part ["hello"] is
    lost. *)
Theorem empty_part_drops_whole_merged_turn :
  GeminiService.formatMessagesForGemini turnsWithEmptyFirst = []
  ∧ Exists (λ m, content m = JS.str "hello") turnsWithEmptyFirst.
Proof.
  split; [reflexivity|]. apply Exists_cons_tl, Exists_cons_hd. reflexivity.
Qed.

(** ** Witnesses of the retention theorems *)

Lemma bounded_history_keeps_most_recent_witness :
  let cfg := withHistorySize 2 defaultConfig in
  let appends := [(JS.str "c1", userTurn (JS.str "A"));
                  (JS.str "c1", assistantTurn (JS.str "B"));
                  (JS.str "c2", userTurn (JS.str "X"));
                  (JS.str "c1", userTurn (JS.str "C"))] in
  HistoryManager.getChannelHistory
    (HistoryManager.appendAll cfg ∅ appends) (JS.str "c1")
  = [assistantTurn (JS.str "B"); userTurn (JS.str "C")].
Proof.
  intros cfg appends.
  pose proof (bounded_history_keeps_most_recent cfg appends (JS.str "c1")
                ltac:(reflexivity)) as (_ & H & _).
  rewrite H. reflexivity.
Defined.

Lemma one_shot_history_is_empty_witness :
  let cfg := withHistorySize 0 defaultConfig in
  HistoryManager.getChannelHistory
    (HistoryManager.addMessageToHistory cfg
       {[ JS.str "c1" := [userTurn (JS.str "old")] ]}
       (JS.str "c1") (userTurn (JS.str "new"))) (JS.str "c1") = [].
Proof.
  intros cfg. apply (one_shot_history_is_empty cfg); reflexivity.
Defined.

(** ** Proactive scheduler *)
Section Proactive.
Import ProactiveMessaging.


(** When the target cannot be resolved the run ends at the early [return]:
    nothing is sent and nothing is scheduled. *)
Lemma unresolved_target_schedules_nothing cfg env st h :
  fetched env ≠ Fetched →
  sendProactiveMessage cfg env st h = (st, h, []).
Proof.
  intros Hf. unfold sendProactiveMessage.
  destruct (negb _ || negb _); [done|].
  destruct (chooseRandomTarget _ _) as [t|]; [|done].
  destruct (length t =? 0); [done|].
  by destruct (fetched env).
Qed.



End Proactive.


(** C3 fails on the code: a fire whose target user cannot be fetched leaves
    through the early [return], so the scheduler, still marked active, is
    left with no pending timer. *)
Theorem unresolved_target_stops_scheduler :
  let cfg := ProactiveMessaging.enabledFor [JS.str "dm_42"] defaultConfig in
  let after :=
    (ProactiveMessaging.fire cfg ProactiveMessaging.unknownTargetFire 0
       ProactiveMessaging.runningScheduler ∅).1.1 in
  ProactiveMessaging.isProactiveMessagingActive after = true
  ∧ ProactiveMessaging.pendingTimers after = [].
Proof. split; reflexivity. Qed.


(** ** The per-turn pipeline *)
Section Rewriting.
Import MessageCreateHandler.






End Rewriting.

Section Handler.
Import MessageCreateHandler.

Variables (cfg : config) (rt : runtime) (env : turnEnv)
          (msg : discordMessage) (st : handlerState).

(** A message that reaches section 5 runs [aiInteraction] on the final
    content, in the state and after the calls of sections 1 to 4. *)
Lemma execute_reaches_aiInteraction :
  reachesAiInteraction cfg rt env msg st = true →
  execute cfg rt env msg st =
    aiInteraction cfg rt env msg (finalContentOf cfg rt env msg st)
      (stateAtAiInteraction cfg rt env msg st)
      (effectsBeforeAi cfg rt env msg st).
Proof.
  unfold reachesAiInteraction, execute, finalContentOf, stateAtAiInteraction,
    effectsBeforeAi.
  destruct (preChecks cfg rt env msg st) as [ended|[[st1 fx1] processed]]; [done|].
  destruct (imageProcessing env msg) as [fxImages imageDescriptions]. simpl.
  intros Hlen.
  destruct (length (finalMessageContent processed imageDescriptions)) eqn:E;
    [done|]. reflexivity.
Qed.

Lemma processImages_no_chat atts : ∀ outcomes,
  Forall (λ e, isChat e = false) (processImages atts outcomes).1.
Proof.
  induction atts as [|att atts IH]; intros outcomes; simpl; [constructor|].
  specialize (IH (tail outcomes)).
  destruct (processImages atts (tail outcomes)) as [fx' lines].
  destruct (processImage att _) as [fx line] eqn:E. simpl.
  apply Forall_app. split; [|done].
  unfold processImage in E.
  destruct (default FetchFailed (head outcomes)); injection E as <- _;
    repeat constructor.
Qed.

Lemma preChecks_passed_effects st1 fx processed :
  preChecks cfg rt env msg st = inr (st1, fx, processed) →
  history st1 = history st ∧ Forall (λ e, isChat e = false) fx.
Proof.
  unfold preChecks.
  destruct (authorIsBot msg); [done|].
  destruct (channelIsDM msg && negb (ALLOW_PRIVATE_MESSAGES cfg)); [done|].
  set (reload := channelIsDM msg && _ && _).
  set (st0 := if reload then _ else st).
  assert (Hh : history st0 = history st).
  { subst st0. destruct reload; [|done]. by destruct (reloadedUserInfo env). }
  assert (Hfx : Forall (λ e, isChat e = false) (if reload then [ReloadUserInfo] else [])).
  { destruct reload; repeat constructor. }
  destruct (isCommand cfg (messageContent msg)).
  { by destruct (commandRun env st0). }
  repeat (match goal with
          | |- context [if ?b then inl _ else _] => destruct b; [done|]
          end).
  intros [= <- <- _]. by split.
Qed.

Lemma effectsBeforeAi_no_chat :
  Forall (λ e, isChat e = false) (effectsBeforeAi cfg rt env msg st).
Proof.
  unfold effectsBeforeAi.
  destruct (preChecks cfg rt env msg st) as [ended|[[st1 fx1] processed]] eqn:E;
    [constructor|].
  apply preChecks_passed_effects in E as [_ Hfx].
  apply Forall_app. split; [apply Forall_app; split; [done|repeat constructor]|].
  unfold imageProcessing. destruct (_ && _); [|constructor].
  pose proof (processImages_no_chat (List.filter isImage (attachments msg))
                (imageOutcomes env)) as H.
  destruct (processImages _ _) as [fx lines]. simpl in *. by constructor.
Qed.

Lemma stateAtAiInteraction_history :
  history (stateAtAiInteraction cfg rt env msg st) = history st.
Proof.
  unfold stateAtAiInteraction.
  destruct (preChecks cfg rt env msg st) as [ended|[[st1 fx1] processed]] eqn:E;
    [done|].
  by apply preChecks_passed_effects in E as [Hh _].
Qed.

End Handler.

Lemma startsWith_app (f t : jsstring) : JS.startsWith (f ++ t) f = true.
Proof.
  induction f as [|c f IH]; simpl; [by destruct t|].
  by rewrite N.eqb_refl, IH.
Qed.

Lemma includes_startsWith (s p : jsstring) :
  JS.startsWith s p = true → JS.includes s p = true.
Proof. destruct s; cbn [JS.includes]; by intros ->. Qed.

Lemma includes_middle (b f a : jsstring) : JS.includes (b ++ f ++ a) f = true.
Proof.
  induction b as [|c b IH].
  - change ([] ++ f ++ a) with (f ++ a). apply includes_startsWith, startsWith_app.
  - cbn [app JS.includes]. rewrite IH. apply orb_true_r.
Qed.

Lemma join_includes (sep : jsstring) (l : list jsstring) (f : jsstring) :
  f ∈ l → ∃ b a, JS.join sep l = b ++ f ++ a.
Proof.
  induction l as [|x l IH]; [by intros ?%elem_of_nil|].
  intros [->|Hin]%elem_of_cons.
  - destruct l as [|y l].
    + exists [], []. simpl. by rewrite app_nil_r.
    + exists [], (sep ++ JS.join sep (y :: l)). reflexivity.
  - destruct (IH Hin) as (b & a & Hj). destruct l as [|y l]; [by apply elem_of_nil in Hin|].
    exists (x ++ sep ++ b), a.
    change (JS.join sep (x :: y :: l)) with (x ++ sep ++ JS.join sep (y :: l)).
    rewrite Hj. by rewrite <- !app_assoc.
Qed.

(** The notice names every required field. *)
Lemma incompleteInfoNotice_names_fields cfg users :
  Forall (λ field, JS.includes (MessageCreateHandler.incompleteInfoNotice cfg users) field = true)
    (UserInfoManager.getRequiredFields users).
Proof.
  apply Forall_forall. intros f Hf.
  destruct (join_includes (JS.str ", ") _ f Hf) as (b & a & Hj).
  unfold MessageCreateHandler.incompleteInfoNotice. rewrite Hj.
  rewrite !app_assoc. rewrite <- (app_assoc _ f a). apply includes_middle.
Qed.

Lemma deliverParts_total cfg parts :
  0 < MESSAGE_CHUNK_SIZE cfg →
  ∃ sent, MessageCreateHandler.deliverParts cfg parts = Some sent.
Proof.
  intros Hpos. induction parts as [|part rest [sent IH]]; simpl; [by eexists|].
  unfold MessageCreateHandler.deliverPart.
  destruct (length part =? 0); simpl.
  - rewrite IH. simpl. by eexists.
  - destruct (splitMessage_spec part (MESSAGE_CHUNK_SIZE cfg) Hpos) as (chunks & -> & _).
    simpl. rewrite IH. simpl. by eexists.
Qed.

Lemma deliver_total cfg aiResponseContent :
  0 < MESSAGE_CHUNK_SIZE cfg →
  ∃ sent, MessageCreateHandler.deliver cfg aiResponseContent = Some sent.
Proof.
  intros Hpos. unfold MessageCreateHandler.deliver.
  destruct (deliverParts_total cfg
              (MessageCreateHandler.messagePartsOf cfg aiResponseContent) Hpos)
    as (sent & ->).
  simpl. by eexists.
Qed.

Lemma last_mostRecent {A} n (l : list A) (x : A) :
  0 < n → last (HistoryManager.mostRecent n (l ++ [x])) = Some x.
Proof.
  intros Hn. unfold HistoryManager.mostRecent.
  rewrite length_app. simpl.
  rewrite drop_app_le by lia. apply last_snoc.
Qed.

Lemma last_history_after_add cfg h channelId m :
  MAX_HISTORY_SIZE cfg ≠ 0%Z →
  last (HistoryManager.getChannelHistory
          (HistoryManager.addMessageToHistory cfg h channelId m) channelId)
  = Some m.
Proof.
  intros Hnz. rewrite getChannelHistory_add_same by done.
  destruct (Z.ltb_spec 0 (MAX_HISTORY_SIZE cfg)).
  - apply last_mostRecent. lia.
  - apply last_snoc.
Qed.

(** C4, as stated, fails: a direct message from a user without the required
    info, sent while that user is in the cooldown window, ends at the
    cooldown check; nothing is sent in reply. *)
Lemma cooling_down_dm_gets_no_reply :
  UserInfoManager.isUserInfoComplete asciiRuntime
    (MessageCreateHandler.users (freshState {[ JS.str "42" ]})) (JS.str "42") = false
  ∧ MessageCreateHandler.execute defaultConfig asciiRuntime
      (plainTurn (MessageCreateHandler.ChatReturns (Some (JS.str "Hello!"))))
      (directMessage (JS.str "42") (JS.str "hello"))
      (freshState {[ JS.str "42" ]})
    = Some (freshState {[ JS.str "42" ]}, [MessageCreateHandler.ReloadUserInfo]).
Proof. split; reflexivity. Qed.

(** C4, amended. For every inbound direct-message turn that reaches the AI
    interaction stage (the author is not a bot, direct messages are allowed,
    the message is not a command and passes the chat, prefix and cooldown
    checks, and it has content for the AI) from a user whose info is not
    complete: the last call of the handler sends the notice that names the
    required fields, [chat] is not called, and the stored history is what it
    was. *)
Theorem incomplete_profile_dm_gets_notice
    (cfg : config) (rt : runtime) (env : MessageCreateHandler.turnEnv)
    (msg : MessageCreateHandler.discordMessage)
    (st : MessageCreateHandler.handlerState) :
  MessageCreateHandler.channelIsDM msg = true →
  MessageCreateHandler.reachesAiInteraction cfg rt env msg st = true →
  UserInfoManager.isUserInfoComplete rt
    (MessageCreateHandler.users
       (MessageCreateHandler.stateAtAiInteraction cfg rt env msg st))
    (MessageCreateHandler.authorId msg) = false →
  ∃ st' fx notice,
    MessageCreateHandler.execute cfg rt env msg st
      = Some (st', fx ++ [MessageCreateHandler.Send notice])
    ∧ notice = MessageCreateHandler.incompleteInfoNotice cfg
                 (MessageCreateHandler.users st')
    ∧ Forall (λ field, JS.includes notice field = true)
        (UserInfoManager.getRequiredFields (MessageCreateHandler.users st'))
    ∧ Forall (λ e, MessageCreateHandler.isChat e = false)
        (fx ++ [MessageCreateHandler.Send notice])
    ∧ MessageCreateHandler.history st' = MessageCreateHandler.history st.
Proof.
  intros Hdm Hreach Hincomplete.
  rewrite execute_reaches_aiInteraction by done.
  unfold MessageCreateHandler.aiInteraction. rewrite Hdm, Hincomplete. simpl.
  eexists _, _, _. split; [reflexivity|]. split; [reflexivity|].
  split; [apply incompleteInfoNotice_names_fields|]. split.
  - apply Forall_app. split; [|repeat constructor].
    apply Forall_app. split; [apply effectsBeforeAi_no_chat|].
    destruct (MessageCreateHandler.channelTyping msg); repeat constructor.
  - apply stateAtAiInteraction_history.
Qed.

Lemma incomplete_profile_dm_gets_notice_witness :
  ∃ st' fx notice,
    MessageCreateHandler.execute defaultConfig asciiRuntime
      (plainTurn (MessageCreateHandler.ChatReturns (Some (JS.str "Hello!"))))
      (directMessage (JS.str "42") (JS.str "hello")) (freshState ∅)
      = Some (st', fx ++ [MessageCreateHandler.Send notice])
    ∧ notice = MessageCreateHandler.incompleteInfoNotice defaultConfig
                 (MessageCreateHandler.users st')
    ∧ Forall (λ field, JS.includes notice field = true)
        (UserInfoManager.getRequiredFields (MessageCreateHandler.users st'))
    ∧ Forall (λ e, MessageCreateHandler.isChat e = false)
        (fx ++ [MessageCreateHandler.Send notice])
    ∧ MessageCreateHandler.history st' = MessageCreateHandler.history (freshState ∅).
Proof.
  apply (incomplete_profile_dm_gets_notice defaultConfig asciiRuntime
           (plainTurn (MessageCreateHandler.ChatReturns (Some (JS.str "Hello!"))))
           (directMessage (JS.str "42") (JS.str "hello")) (freshState ∅));
    reflexivity.
Defined.





(** ** History file: saving and loading *)
Section JsonStrings.
Import JSON.

Lemma hexValue_hexDigit (d : N) : (d < 16)%N → hexValue (hexDigit d) = Some d.
Proof.
  intros Hd. unfold hexDigit, hexValue.
  destruct (N.ltb_spec d 10).
  - destruct (N.leb_spec 48 (48 + d)); [|lia].
    destruct (N.leb_spec (48 + d) 57); [|lia]. simpl. f_equal. lia.
  - destruct (N.leb_spec 48 (87 + d)); [|lia].
    destruct (N.leb_spec (87 + d) 57); [lia|]. simpl.
    destruct (N.leb_spec 97 (87 + d)); [|lia].
    destruct (N.leb_spec (87 + d) 102); [|lia]. simpl. f_equal. lia.
Qed.

Lemma hex_digits_value (c : N) : (c < 65536)%N →
  ((c / 4096 mod 16) * 4096 + (c / 256 mod 16) * 256 + (c / 16 mod 16) * 16
   + c mod 16 = c)%N.
Proof.
  intros Hc. zify. Z.to_euclidean_division_equations. lia.
Qed.

Lemma parseStringBody_unicodeEscape (c : N) (t : jsstring) : (c < 65536)%N →
  parseStringBody (unicodeEscape c ++ t) =
    match parseStringBody t with
    | Some (str, rest) => Some (c :: str, rest)
    | None => None
    end.
Proof.
  intros Hc. unfold unicodeEscape.
  change (parseStringBody
            ([92%N; 117%N; hexDigit (c / 4096 mod 16); hexDigit (c / 256 mod 16);
              hexDigit (c / 16 mod 16); hexDigit (c mod 16)] ++ t))
    with (match hexValue (hexDigit (c / 4096 mod 16)),
                hexValue (hexDigit (c / 256 mod 16)),
                hexValue (hexDigit (c / 16 mod 16)),
                hexValue (hexDigit (c mod 16)) with
          | Some a, Some b, Some c', Some d =>
              match parseStringBody t with
              | Some (str, rest) =>
                  Some ((a * 4096 + b * 256 + c' * 16 + d)%N :: str, rest)
              | None => None
              end
          | _, _, _, _ => None
          end).
  rewrite !hexValue_hexDigit by (apply N.mod_lt; lia).
  by rewrite hex_digits_value.
Qed.

Lemma parseStringBody_literal (c : N) (t : jsstring) :
  c ≠ 34%N → c ≠ 92%N → (32 ≤ c)%N →
  parseStringBody (c :: t) =
    match parseStringBody t with
    | Some (str, rest) => Some (c :: str, rest)
    | None => None
    end.
Proof.
  intros H1 H2 H3. simpl.
  destruct (N.eqb_spec c 34); [done|].
  destruct (N.eqb_spec c 92); [done|].
  destruct (N.ltb_spec c 32); [lia|]. done.
Qed.

Lemma parseStringBody_quoteCodeUnit (c : N) (t : jsstring) :
  isHighSurrogate c = false → isLowSurrogate c = false →
  parseStringBody (quoteCodeUnit c ++ t) =
    match parseStringBody t with
    | Some (str, rest) => Some (c :: str, rest)
    | None => None
    end.
Proof.
  intros _ _. unfold quoteCodeUnit.
  destruct (N.eqb_spec c 8) as [->|?]; [done|].
  destruct (N.eqb_spec c 9) as [->|?]; [done|].
  destruct (N.eqb_spec c 10) as [->|?]; [done|].
  destruct (N.eqb_spec c 12) as [->|?]; [done|].
  destruct (N.eqb_spec c 13) as [->|?]; [done|].
  destruct (N.eqb_spec c 34) as [->|?]; [done|].
  destruct (N.eqb_spec c 92) as [->|?]; [done|].
  destruct (N.ltb_spec c 32).
  - apply parseStringBody_unicodeEscape. lia.
  - by apply parseStringBody_literal.
Qed.

Lemma surrogate_bounds (c : N) :
  isHighSurrogate c = true ∨ isLowSurrogate c = true →
  c ≠ 34%N ∧ c ≠ 92%N ∧ (32 ≤ c)%N ∧ (c < 65536)%N.
Proof.
  unfold isHighSurrogate, isLowSurrogate.
  intros [H|H]; apply andb_true_iff in H as [H1%N.leb_le H2%N.leb_le]; lia.
Qed.

(** Reading a quoted string gives the string back. *)
Lemma parseStringBody_quoteBody (s : jsstring) : ∀ t,
  parseStringBody (quoteBody s ++ 34%N :: t) = Some (s, t).
Proof.
  remember (length s) as n eqn:Hn.
  revert s Hn. induction (lt_wf n) as [n _ IH]. intros s -> t.
  destruct s as [|c r]; [done|].
  assert (IHr : ∀ r', length r' < length (c :: r) →
            parseStringBody (quoteBody r' ++ 34%N :: t) = Some (r', t)).
  { intros r' Hlt. by eapply IH. }
  cbn [quoteBody].
  destruct (isHighSurrogate c) eqn:Hh.
  - destruct (surrogate_bounds c (or_introl Hh)) as (? & ? & ? & ?).
    destruct r as [|d r'].
    + rewrite parseStringBody_unicodeEscape by done. done.
    + destruct (isLowSurrogate d) eqn:Hl.
      * destruct (surrogate_bounds d (or_intror Hl)) as (? & ? & ? & ?).
        rewrite <- !app_comm_cons.
        rewrite parseStringBody_literal by done.
        rewrite parseStringBody_literal by done.
        rewrite IHr by (simpl; lia). done.
      * rewrite <- app_assoc, parseStringBody_unicodeEscape by done.
        rewrite IHr by (simpl; lia). done.
  - destruct (isLowSurrogate c) eqn:Hl.
    + destruct (surrogate_bounds c (or_intror Hl)) as (? & ? & ? & ?).
      rewrite <- app_assoc, parseStringBody_unicodeEscape by done.
      rewrite IHr by (simpl; lia). done.
    + rewrite <- app_assoc, parseStringBody_quoteCodeUnit by done.
      rewrite IHr by (simpl; lia). done.
Qed.

End JsonStrings.

Section Utf8.
Import JSON HistoryPersistence.

Lemma survivesUtf8_nil : survivesUtf8 [].
Proof. by intros t. Qed.

Lemma survivesUtf8_app a b : survivesUtf8 a → survivesUtf8 b → survivesUtf8 (a ++ b).
Proof. intros Ha Hb t. by rewrite <- app_assoc, Ha, Hb, app_assoc. Qed.

Lemma survivesUtf8_plain a : Forall notSurrogate a → survivesUtf8 a.
Proof.
  induction 1 as [|c a [Hh Hl] _ IH]; intros t; [done|].
  rewrite <- app_comm_cons. cbn [throughUtf8]. rewrite Hh, Hl. by rewrite IH.
Qed.

Lemma hexDigit_notSurrogate d : (d < 16)%N → notSurrogate (hexDigit d).
Proof.
  intros Hd. unfold notSurrogate, isHighSurrogate, isLowSurrogate, hexDigit.
  destruct (N.ltb_spec d 10); split; apply andb_false_iff; left; apply N.leb_gt; lia.
Qed.

Lemma unicodeEscape_survives c : survivesUtf8 (unicodeEscape c).
Proof.
  apply survivesUtf8_plain. unfold unicodeEscape.
  repeat constructor; try (apply hexDigit_notSurrogate, N.mod_lt; lia).
Qed.

Lemma quoteCodeUnit_survives c : notSurrogate c → survivesUtf8 (quoteCodeUnit c).
Proof.
  intros Hc. unfold quoteCodeUnit.
  destruct (c =? 8)%N; [apply survivesUtf8_plain; by repeat constructor|].
  destruct (c =? 9)%N; [apply survivesUtf8_plain; by repeat constructor|].
  destruct (c =? 10)%N; [apply survivesUtf8_plain; by repeat constructor|].
  destruct (c =? 12)%N; [apply survivesUtf8_plain; by repeat constructor|].
  destruct (c =? 13)%N; [apply survivesUtf8_plain; by repeat constructor|].
  destruct (c =? 34)%N; [apply survivesUtf8_plain; by repeat constructor|].
  destruct (c =? 92)%N; [apply survivesUtf8_plain; by repeat constructor|].
  destruct (c <? 32)%N; [apply unicodeEscape_survives|].
  apply survivesUtf8_plain. constructor; [exact Hc|constructor].
Qed.

Lemma quoteBody_survives s : survivesUtf8 (quoteBody s).
Proof.
  remember (length s) as n eqn:Hn.
  revert s Hn. induction (lt_wf n) as [n _ IH]. intros s ->.
  destruct s as [|c r]; [apply survivesUtf8_nil|].
  assert (IHr : ∀ r', length r' < length (c :: r) → survivesUtf8 (quoteBody r')).
  { intros r' Hlt. by eapply IH. }
  cbn [quoteBody].
  destruct (isHighSurrogate c) eqn:Hh.
  - destruct r as [|d r']; [apply unicodeEscape_survives|].
    destruct (isLowSurrogate d) eqn:Hl.
    + intros t. rewrite <- !app_comm_cons. cbn [throughUtf8]. rewrite Hh, Hl.
      rewrite (IHr r') by (simpl; lia). done.
    + apply survivesUtf8_app; [apply unicodeEscape_survives|].
      apply IHr. simpl. lia.
  - destruct (isLowSurrogate c) eqn:Hl.
    + apply survivesUtf8_app; [apply unicodeEscape_survives|].
      apply IHr. simpl. lia.
    + apply survivesUtf8_app; [by apply quoteCodeUnit_survives|].
      apply IHr. simpl. lia.
Qed.

Lemma quoteJSONString_survives s : survivesUtf8 (quoteJSONString s).
Proof.
  unfold quoteJSONString.
  apply survivesUtf8_app; [apply survivesUtf8_plain; by repeat constructor|].
  apply survivesUtf8_app; [apply quoteBody_survives|].
  apply survivesUtf8_plain; by repeat constructor.
Qed.

Lemma indentation_survives n : survivesUtf8 (indentation n).
Proof.
  apply survivesUtf8_plain. unfold indentation.
  apply Forall_replicate. by split.
Qed.

Lemma join_survives sep items :
  survivesUtf8 sep → Forall survivesUtf8 items → survivesUtf8 (JS.join sep items).
Proof.
  intros Hsep. induction 1 as [|a items Ha Hitems IH]; [apply survivesUtf8_nil|].
  destruct items as [|b items]; [done|].
  change (JS.join sep (a :: b :: items)) with (a ++ sep ++ JS.join sep (b :: items)).
  by repeat apply survivesUtf8_app.
Qed.

Lemma bracketed_survives opening closing indent items :
  notSurrogate opening → notSurrogate closing →
  Forall survivesUtf8 items →
  survivesUtf8 (bracketed opening closing indent items).
Proof.
  intros Ho Hc Hitems. unfold bracketed.
  assert (Hnl : notSurrogate 10%N) by done.
  assert (Hcomma : notSurrogate 44%N) by done.
  destruct items as [|a items].
  { apply survivesUtf8_plain. repeat (apply List.Forall_cons; [assumption || done|]); apply List.Forall_nil. }
  repeat apply survivesUtf8_app; try apply indentation_survives.
  - apply survivesUtf8_plain. repeat (apply List.Forall_cons; [assumption || done|]); apply List.Forall_nil.
  - apply join_survives; [|done].
    apply survivesUtf8_app; [|apply indentation_survives].
    apply survivesUtf8_plain. repeat (apply List.Forall_cons; [assumption || done|]); apply List.Forall_nil.
  - apply survivesUtf8_plain. repeat (apply List.Forall_cons; [assumption || done|]); apply List.Forall_nil.
  - apply survivesUtf8_plain. repeat (apply List.Forall_cons; [assumption || done|]); apply List.Forall_nil.
Qed.

End Utf8.

Section JsonParsing.
Import JSON.

Lemma skipWhitespace_app ws x :
  Forall (λ c, isWhitespace c = true) ws →
  skipWhitespace (ws ++ x) = skipWhitespace x.
Proof. induction 1 as [|c ws Hc _ IH]; [done|]. simpl. by rewrite Hc. Qed.

Lemma skipWhitespace_item a x : startsItem a → skipWhitespace (a ++ x) = a ++ x.
Proof. intros (c & r & -> & Hc & _). simpl. by rewrite Hc. Qed.

Lemma indentation_whitespace n : Forall (λ c, isWhitespace c = true) (indentation n).
Proof. apply Forall_replicate. done. Qed.

Lemma parseValue_unfold fuel s :
  parseValue (S fuel) s =
    match skipWhitespace s with
    | [] => None
    | c :: r =>
        if (c =? 34)%N then
          match parseStringBody r with
          | Some (str, rest) => Some (JString str, rest)
          | None => None
          end
        else if (c =? 91)%N then
          match skipWhitespace r with
          | d :: r' =>
              if (d =? 93)%N then Some (JArray [], r')
              else
                match parseElements fuel r with
                | Some (elements, rest) => Some (JArray elements, rest)
                | None => None
                end
          | [] => None
          end
        else if (c =? 123)%N then
          match skipWhitespace r with
          | d :: r' =>
              if (d =? 125)%N then Some (JObject [], r')
              else
                match parseMembers fuel r with
                | Some (members, rest) => Some (JObject members, rest)
                | None => None
                end
          | [] => None
          end
        else if JS.startsWith (c :: r) (JS.str "true")
        then Some (JBool true, drop 4 (c :: r))
        else if JS.startsWith (c :: r) (JS.str "false")
        then Some (JBool false, drop 5 (c :: r))
        else if JS.startsWith (c :: r) (JS.str "null")
        then Some (JNull, drop 4 (c :: r))
        else
          match parseNumber (c :: r) with
          | Some (literal, rest) => Some (JNumber literal, rest)
          | None => None
          end
    end.
Proof. reflexivity. Qed.

Lemma parseElements_unfold fuel s :
  parseElements (S fuel) s =
    match parseValue fuel s with
    | Some (v, rest) =>
        match skipWhitespace rest with
        | d :: r' =>
            if (d =? 44)%N then
              match parseElements fuel r' with
              | Some (elements, rest') => Some (v :: elements, rest')
              | None => None
              end
            else if (d =? 93)%N then Some ([v], r')
            else None
        | [] => None
        end
    | None => None
    end.
Proof. reflexivity. Qed.

Lemma parseMembers_unfold fuel s :
  parseMembers (S fuel) s =
    match skipWhitespace s with
    | q :: r =>
        if (q =? 34)%N then
          match parseStringBody r with
          | Some (key, rest) =>
              match skipWhitespace rest with
              | colon :: r1 =>
                  if (colon =? 58)%N then
                    match parseValue fuel r1 with
                    | Some (v, rest2) =>
                        match skipWhitespace rest2 with
                        | d :: r' =>
                            if (d =? 44)%N then
                              match parseMembers fuel r' with
                              | Some (members, rest') =>
                                  Some ((key, v) :: members, rest')
                              | None => None
                              end
                            else if (d =? 125)%N then Some ([(key, v)], r')
                            else None
                        | [] => None
                        end
                    | None => None
                    end
                  else None
              | [] => None
              end
          | None => None
          end
        else None
    | [] => None
    end.
Proof. reflexivity. Qed.

Lemma readsBackAs_string s : readsBackAs (quoteJSONString s) (JString s).
Proof.
  intros fuel ws rest Hfuel Hws.
  destruct fuel as [|fuel]; [simpl in Hfuel; lia|].
  rewrite parseValue_unfold, skipWhitespace_app by done.
  unfold quoteJSONString. rewrite <- !app_assoc. simpl.
  by rewrite parseStringBody_quoteBody.
Qed.

Lemma readsBackAs_literal (text : jsstring) v :
  (text = JS.str "true" ∧ v = JBool true)
  ∨ (text = JS.str "false" ∧ v = JBool false)
  ∨ (text = JS.str "null" ∧ v = JNull) →
  readsBackAs text v.
Proof.
  intros Hcase fuel ws rest Hfuel Hws.
  destruct fuel as [|fuel];
    [destruct Hcase as [[-> _]|[[-> _]|[-> _]]]; simpl in Hfuel; lia|].
  rewrite parseValue_unfold, skipWhitespace_app by done.
  destruct Hcase as [[-> ->]|[[-> ->]|[-> ->]]]; reflexivity.
Qed.

(** The items of an array, one per line, are read back one by one. *)
Lemma parseElements_join (sepIndent closeIndent : nat) (rest : jsstring) :
  ∀ texts elements, Forall2 readsBackAs texts elements →
  Forall startsItem texts → texts ≠ [] →
  ∀ fuel ws,
    length (JS.join ([44%N; 10%N] ++ indentation sepIndent) texts) < fuel →
    Forall (λ c, isWhitespace c = true) ws →
    parseElements fuel
      (ws ++ JS.join ([44%N; 10%N] ++ indentation sepIndent) texts
          ++ [10%N] ++ indentation closeIndent ++ [93%N] ++ rest)
    = Some (elements, rest).
Proof.
  induction 1 as [|t e texts elements Hte Hrest IH];
    intros Hstart Hne fuel ws Hfuel Hws; [done|].
  apply Forall_cons in Hstart as [Ht Hstart].
  destruct fuel as [|fuel]; [lia|].
  rewrite parseElements_unfold.
  destruct texts as [|t2 texts].
  - apply Forall2_nil_inv_l in Hrest as ->.
    change (JS.join _ [t]) with t in *.
    rewrite (Hte fuel ws) by (done || lia).
    simpl. rewrite skipWhitespace_app by apply indentation_whitespace.
    reflexivity.
  - change (JS.join ([44%N; 10%N] ++ indentation sepIndent) (t :: t2 :: texts))
      with (t ++ ([44%N; 10%N] ++ indentation sepIndent)
              ++ JS.join ([44%N; 10%N] ++ indentation sepIndent) (t2 :: texts)) in *.
    specialize (IH Hstart ltac:(done) fuel (10%N :: indentation sepIndent)).
    set (J := JS.join ([44%N; 10%N] ++ indentation sepIndent) (t2 :: texts)) in *.
    rewrite !length_app in Hfuel. simpl in Hfuel.
    rewrite <- (app_assoc t).
    rewrite (Hte fuel ws) by (done || lia).
    rewrite <- !app_assoc. simpl. simpl in IH.
    rewrite IH; [done|lia|].
    constructor; [done|apply indentation_whitespace].
Qed.

(** The members of an object, one per line, are read back one by one. *)
Lemma parseMembers_join (sepIndent closeIndent : nat) (rest : jsstring) :
  ∀ (texts : list jsstring) (members : list (jsstring * json)),
  Forall2 (λ t kv, ∃ vt, t = quoteJSONString kv.1 ++ [58%N; 32%N] ++ vt
                         ∧ readsBackAs vt kv.2) texts members →
  texts ≠ [] →
  ∀ fuel ws,
    length (JS.join ([44%N; 10%N] ++ indentation sepIndent) texts) < fuel →
    Forall (λ c, isWhitespace c = true) ws →
    parseMembers fuel
      (ws ++ JS.join ([44%N; 10%N] ++ indentation sepIndent) texts
          ++ [10%N] ++ indentation closeIndent ++ [125%N] ++ rest)
    = Some (members, rest).
Proof.
  induction 1 as [|t [k v] texts members (vt & -> & Hv) Hrest IH];
    intros Hne fuel ws Hfuel Hws; [done|].
  simpl in Hv.
  destruct fuel as [|fuel]; [lia|].
  rewrite parseMembers_unfold, skipWhitespace_app by done.
  destruct texts as [|t2 texts].
  - apply Forall2_nil_inv_l in Hrest as ->.
    change (JS.join _ [?t]) with t in *.
    unfold quoteJSONString in *. rewrite !length_app in Hfuel. simpl in Hfuel.
    rewrite <- !app_assoc. simpl.
    rewrite parseStringBody_quoteBody. simpl.
    lazymatch goal with
    | |- context [parseValue fuel (32%N :: vt ++ ?r)] =>
        change (32%N :: vt ++ r) with ([32%N] ++ vt ++ r)
    end.
    rewrite (Hv fuel [32%N]) by (lia || by repeat constructor).
    simpl. rewrite skipWhitespace_app by apply indentation_whitespace.
    reflexivity.
  - change (JS.join ([44%N; 10%N] ++ indentation sepIndent) (?t :: t2 :: texts))
      with (t ++ ([44%N; 10%N] ++ indentation sepIndent)
              ++ JS.join ([44%N; 10%N] ++ indentation sepIndent) (t2 :: texts)) in *.
    specialize (IH ltac:(done) fuel (10%N :: indentation sepIndent)).
    set (J := JS.join ([44%N; 10%N] ++ indentation sepIndent) (t2 :: texts)) in *.
    unfold quoteJSONString in *. rewrite !length_app in Hfuel. simpl in Hfuel.
    rewrite <- !app_assoc. simpl.
    rewrite parseStringBody_quoteBody. simpl.
    lazymatch goal with
    | |- context [parseValue fuel (32%N :: vt ++ ?r)] =>
        change (32%N :: vt ++ r) with ([32%N] ++ vt ++ r)
    end.
    rewrite (Hv fuel [32%N]) by (lia || by repeat constructor).
    simpl. simpl in IH.
    rewrite IH; [done|rewrite ?length_app in *; simpl in *; lia|].
    constructor; [done|apply indentation_whitespace].
Qed.

End JsonParsing.

Section JsonRoundTrip.
Import JSON HistoryPersistence.

Lemma join_startsItem sep t texts :
  startsItem t → startsItem (JS.join sep (t :: texts)).
Proof.
  intros (c & r & -> & Hc). destruct texts as [|t2 texts]; [by exists c, r|].
  by exists c, (r ++ sep ++ JS.join sep (t2 :: texts)).
Qed.

Lemma bracketed_length opening closing indent t texts :
  length (bracketed opening closing indent (t :: texts))
  = 2 + (indent + 2)
    + length (JS.join ([44%N; 10%N] ++ indentation (indent + 2)) (t :: texts))
    + 1 + indent + 1.
Proof.
  unfold bracketed, indentation.
  rewrite !length_app, !length_replicate. simpl. lia.
Qed.

Lemma readsBackAs_array indent texts elements :
  Forall2 readsBackAs texts elements → Forall startsItem texts →
  readsBackAs (bracketed 91 93 indent texts) (JArray elements).
Proof.
  intros Hread Hstart fuel ws rest Hfuel Hws.
  destruct texts as [|t texts].
  { apply Forall2_nil_inv_l in Hread as ->.
    destruct fuel as [|fuel]; [simpl in Hfuel; lia|].
    by rewrite parseValue_unfold, skipWhitespace_app by done. }
  rewrite bracketed_length in Hfuel.
  destruct fuel as [|fuel]; [lia|].
  rewrite parseValue_unfold, skipWhitespace_app by done.
  unfold bracketed.
  pose proof (Forall_inv Hstart) as Ht.
  apply (join_startsItem ([44%N; 10%N] ++ indentation (indent + 2)) t texts) in Ht.
  pose proof (parseElements_join (indent + 2) indent rest (t :: texts) elements
                Hread Hstart ltac:(done) fuel (10%N :: indentation (indent + 2))) as Hitems.
  set (J := JS.join ([44%N; 10%N] ++ indentation (indent + 2)) (t :: texts)) in *.
  rewrite <- !app_assoc. simpl. simpl in Hitems.
  rewrite skipWhitespace_app by apply indentation_whitespace.
  rewrite Hitems; [|lia|constructor; [done|apply indentation_whitespace]].
  destruct Ht as (c & r & HJ & Hc & Hc93 & _).
  rewrite HJ. simpl. rewrite Hc.
  by apply N.eqb_neq in Hc93 as ->.
Qed.

Lemma readsBackAs_object indent (texts : list jsstring) members :
  Forall2 (λ t kv, ∃ vt, t = quoteJSONString kv.1 ++ [58%N; 32%N] ++ vt
                         ∧ readsBackAs vt kv.2) texts members →
  readsBackAs (bracketed 123 125 indent texts) (JObject members).
Proof.
  intros Hread fuel ws rest Hfuel Hws.
  destruct texts as [|t texts].
  { apply Forall2_nil_inv_l in Hread as ->.
    destruct fuel as [|fuel]; [simpl in Hfuel; lia|].
    by rewrite parseValue_unfold, skipWhitespace_app by done. }
  rewrite bracketed_length in Hfuel.
  destruct fuel as [|fuel]; [lia|].
  rewrite parseValue_unfold, skipWhitespace_app by done.
  unfold bracketed.
  assert (Ht : startsItem t).
  { apply Forall2_cons_inv_l in Hread as (kv & ? & (vt & -> & _) & _ & _).
    exists 34%N, (quoteBody kv.1 ++ [34%N] ++ [58%N; 32%N] ++ vt).
    split; [|done]. unfold quoteJSONString. by rewrite <- !app_assoc. }
  apply (join_startsItem ([44%N; 10%N] ++ indentation (indent + 2)) t texts) in Ht.
  pose proof (parseMembers_join (indent + 2) indent rest (t :: texts) members
                Hread ltac:(done) fuel (10%N :: indentation (indent + 2))) as Hitems.
  set (J := JS.join ([44%N; 10%N] ++ indentation (indent + 2)) (t :: texts)) in *.
  rewrite <- !app_assoc. simpl. simpl in Hitems.
  rewrite skipWhitespace_app by apply indentation_whitespace.
  rewrite Hitems; [|lia|constructor; [done|apply indentation_whitespace]].
  destruct Ht as (c & r & HJ & Hc & _ & Hc125).
  rewrite HJ. simpl. rewrite Hc.
  by apply N.eqb_neq in Hc125 as ->.
Qed.

Lemma bracketed_startsItem opening closing indent items :
  isWhitespace opening = false → opening ≠ 93%N → opening ≠ 125%N →
  startsItem (bracketed opening closing indent items).
Proof.
  intros. destruct items as [|j items]; [by exists opening, [closing]|].
  by exists opening, (10%N :: indentation (indent + 2)
    ++ JS.join ([44%N; 10%N] ++ indentation (indent + 2)) (j :: items)
    ++ [10%N] ++ indentation indent ++ [closing]).
Qed.

(** What the printer writes for a value without number literals is read
    back as that value, and passes through the file unchanged. *)
Lemma stringifyAt_round_trip v :
  numberFree v = true →
  ∀ indent,
    readsBackAs (stringifyAt indent v) v
    ∧ startsItem (stringifyAt indent v)
    ∧ survivesUtf8 (stringifyAt indent v).
Proof.
  induction v as [|b|literal|s|elements IH|members IH] using json_nested_ind;
    intros Hfree indent.
  - split_and!.
    + apply readsBackAs_literal. auto.
    + by exists 110%N, (JS.str "ull").
    + apply survivesUtf8_plain. by repeat constructor.
  - split_and!.
    + destruct b; apply readsBackAs_literal; auto.
    + destruct b; [by exists 116%N, (JS.str "rue")|by exists 102%N, (JS.str "alse")].
    + destruct b; apply survivesUtf8_plain; by repeat constructor.
  - done.
  - split_and!.
    + apply readsBackAs_string.
    + by exists 34%N, (quoteBody s ++ [34%N]).
    + apply quoteJSONString_survives.
  - simpl in Hfree. rewrite forallb_forall, <- List.Forall_forall in Hfree.
    assert (Hall : Forall (λ x, ∀ indent, readsBackAs (stringifyAt indent x) x
                       ∧ startsItem (stringifyAt indent x)
                       ∧ survivesUtf8 (stringifyAt indent x)) elements).
    { apply Forall_forall. intros x Hx.
      rewrite Forall_forall in IH. rewrite Forall_forall in Hfree. eauto. }
    clear IH Hfree. simpl. split_and!.
    + apply readsBackAs_array.
      * induction Hall as [|x l Hx _ IHl]; constructor; [apply Hx|apply IHl].
      * induction Hall as [|x l Hx _ IHl]; constructor; [apply Hx|apply IHl].
    + by apply bracketed_startsItem.
    + apply bracketed_survives; [done..|].
      induction Hall as [|x l Hx _ IHl]; constructor; [apply Hx|apply IHl].
  - simpl in Hfree. rewrite forallb_forall, <- List.Forall_forall in Hfree.
    assert (Hall : Forall (λ kv, ∀ indent, readsBackAs (stringifyAt indent kv.2) kv.2
                       ∧ startsItem (stringifyAt indent kv.2)
                       ∧ survivesUtf8 (stringifyAt indent kv.2)) members).
    { apply Forall_forall. intros x Hx.
      rewrite Forall_forall in IH. rewrite Forall_forall in Hfree. eauto. }
    clear IH Hfree. simpl. split_and!.
    + apply readsBackAs_object.
      induction Hall as [|x l Hx _ IHl]; constructor; [|apply IHl].
      eexists. split; [reflexivity|apply Hx].
    + by apply bracketed_startsItem.
    + apply bracketed_survives; [done..|].
      induction Hall as [|x l Hx _ IHl]; constructor; [|apply IHl].
      change (survivesUtf8 (quoteJSONString x.1 ++ [58%N; 32%N]
                              ++ stringifyAt (indent + 2) x.2)).
      apply survivesUtf8_app; [apply quoteJSONString_survives|].
      apply survivesUtf8_app; [apply survivesUtf8_plain; by repeat constructor|].
      apply Hx.
Qed.

Lemma parse_stringify v : numberFree v = true → parse (stringify v) = Some v.
Proof.
  intros Hfree. unfold parse, stringify.
  destruct (stringifyAt_round_trip v Hfree 0) as (Hread & _ & _).
  specialize (Hread (length (stringifyAt 0 v)) [] [] ltac:(done) ltac:(constructor)).
  simpl in Hread. rewrite app_nil_r in Hread. by rewrite Hread.
Qed.

Lemma throughUtf8_stringify v :
  numberFree v = true → throughUtf8 (stringify v) = stringify v.
Proof.
  intros Hfree. unfold stringify.
  destruct (stringifyAt_round_trip v Hfree 0) as (_ & _ & Hsurvives).
  specialize (Hsurvives []). by rewrite !app_nil_r in Hsurvives.
Qed.

End JsonRoundTrip.

Section HistoryFile.
Import JSON HistoryPersistence.

Lemma messageOfJson_messageToJson m : messageOfJson (messageToJson m) = Some m.
Proof.
  destruct m as [r c t]. unfold messageOfJson, messageToJson, property. simpl.
  destruct t as [t|]; simpl.
  - rewrite !(lookup_insert_ne _ (JS.str "timestamp")) by done.
    rewrite (lookup_insert_eq _ (JS.str "timestamp")).
    rewrite (lookup_insert_ne _ (JS.str "content") (JS.str "role")) by done.
    by rewrite !lookup_insert_eq.
  - rewrite (lookup_insert_ne _ (JS.str "content") (JS.str "role")) by done.
    rewrite !lookup_insert_eq.
    by rewrite !(lookup_insert_ne _ _ (JS.str "timestamp")), lookup_empty by done.
Qed.

Lemma historyOfJson_messages turns :
  historyOfJson (JArray (messageToJson <$> turns)) = Some turns.
Proof. apply mapM_fmap_Some. intros m. apply messageOfJson_messageToJson. Qed.

Lemma storeOfJson_historyObject entries :
  storeOfJson (historyObject entries) = Some (list_to_map (reverse entries)).
Proof.
  unfold storeOfJson, historyObject.
  rewrite (mapM_fmap_Some _ _ entries); [done|].
  intros [channelId turns].
  change (pair channelId <$> historyOfJson (JArray (messageToJson <$> turns))
          = Some (channelId, turns)).
  by rewrite historyOfJson_messages.
Qed.

Lemma messageToJson_numberFree m : numberFree (messageToJson m) = true.
Proof. destruct m as [r c [t|]]; reflexivity. Qed.

Lemma historyObject_numberFree entries : numberFree (historyObject entries) = true.
Proof.
  unfold historyObject. simpl. apply forallb_forall.
  intros kv (entry & -> & _)%list_elem_of_In%list_elem_of_fmap.
  simpl. apply forallb_forall.
  intros v (m & -> & _)%list_elem_of_In%list_elem_of_fmap.
  apply messageToJson_numberFree.
Qed.

Lemma store_of_entries (m : HistoryManager.store) entries :
  entries ≡ₚ map_to_list m → list_to_map (reverse entries) = m.
Proof.
  intros Hentries.
  rewrite <- (list_to_map_to_list m).
  apply list_to_map_proper.
  - rewrite reverse_Permutation, Hentries. apply NoDup_fst_map_to_list.
  - by rewrite reverse_Permutation.
Qed.

End HistoryFile.

(** C5. For every in-memory history mapping, [saveHistory] followed by
    [loadHistory] on the file it wrote yields the same mapping from
    conversation id to turn sequence, the turns of every conversation in
    their order (the write succeeding, and the runtime listing exactly the
    entries of the Map, in whatever order). *)
Theorem saved_history_loads_back
    (enumerate : HistoryManager.store → list (jsstring * list message))
    (fs : HistoryPersistence.fileSystem)
    (conversationHistory : HistoryManager.store) :
  enumerate conversationHistory ≡ₚ map_to_list conversationHistory →
  HistoryPersistence.writable fs = true →
  HistoryPersistence.loadHistory
    (HistoryPersistence.saveHistory enumerate fs conversationHistory)
  = Some conversationHistory.
Proof.
  intros Henumerate Hwritable.
  assert (Hsaved :
    HistoryPersistence.loadHistory
      {| HistoryPersistence.historyFile :=
           Some (HistoryPersistence.throughUtf8
                   (JSON.stringify
                      (HistoryPersistence.historyObject
                         (enumerate conversationHistory))));
         HistoryPersistence.writable := HistoryPersistence.writable fs |}
    = Some conversationHistory).
  { unfold HistoryPersistence.loadHistory. simpl.
    rewrite throughUtf8_stringify, parse_stringify
      by apply historyObject_numberFree.
    rewrite storeOfJson_historyObject.
    f_equal. by apply store_of_entries. }
  unfold HistoryPersistence.saveHistory. rewrite Hwritable.
  destruct (size conversationHistory =? 0) eqn:Hsize; [|done].
  destruct (HistoryPersistence.historyFile fs) as [data|] eqn:Hfile.
  - by rewrite bool_decide_eq_true_2 by eauto.
  - rewrite bool_decide_eq_false_2 by (by intros [? ?]). simpl.
    apply Nat.eqb_eq, map_size_empty_iff in Hsize as ->.
    unfold HistoryPersistence.loadHistory. by rewrite Hfile.
Qed.

Lemma saved_history_loads_back_witness :
  HistoryPersistence.loadHistory
    (HistoryPersistence.saveHistory map_to_list
       {| HistoryPersistence.historyFile := None;
          HistoryPersistence.writable := true |}
       {[ JS.str "dm_42" := [userTurn (JS.str "hi"); assistantTurn (JS.str "hello")] ]})
  = Some {[ JS.str "dm_42" := [userTurn (JS.str "hi"); assistantTurn (JS.str "hello")] ]}.
Proof. apply saved_history_loads_back; reflexivity. Defined.

(** ** History store: unlimited retention, isolation, clearing *)
Section HistoryStore.
Import HistoryManager.
Variable cfg : config.

Lemma appendedTo_cons_same channelId m rest :
  appendedTo channelId ((channelId, m) :: rest) = m :: appendedTo channelId rest.
Proof. unfold appendedTo. rewrite filter_cons. simpl. by rewrite decide_True. Qed.

Lemma appendedTo_cons_other channelId c m rest :
  c ≠ channelId →
  appendedTo channelId ((c, m) :: rest) = appendedTo channelId rest.
Proof. intros. unfold appendedTo. rewrite filter_cons. simpl. by rewrite decide_False. Qed.

Lemma appendAll_unlimited appends : ∀ h channelId,
  (MAX_HISTORY_SIZE cfg < 0)%Z →
  getChannelHistory (appendAll cfg h appends) channelId =
    getChannelHistory h channelId ++ appendedTo channelId appends.
Proof.
  induction appends as [|[c m] rest IH]; intros h channelId Hneg.
  - simpl. unfold appendedTo. simpl. by rewrite app_nil_r.
  - change (appendAll cfg h ((c, m) :: rest))
      with (appendAll cfg (addMessageToHistory cfg h c m) rest).
    rewrite IH by done.
    destruct (decide (c = channelId)) as [->|Hne].
    + rewrite appendedTo_cons_same, getChannelHistory_add_same by lia.
      destruct (Z.ltb_spec 0 (MAX_HISTORY_SIZE cfg)); [lia|].
      by rewrite <- app_assoc.
    + by rewrite appendedTo_cons_other, getChannelHistory_add_other.
Qed.

Lemma appendAll_other appends : ∀ h channelId,
  appendedTo channelId appends = [] →
  getChannelHistory (appendAll cfg h appends) channelId =
    getChannelHistory h channelId.
Proof.
  induction appends as [|[c m] rest IH]; intros h channelId Hnone; [done|].
  change (appendAll cfg h ((c, m) :: rest))
    with (appendAll cfg (addMessageToHistory cfg h c m) rest).
  destruct (decide (c = channelId)) as [->|Hne].
  - by rewrite appendedTo_cons_same in Hnone.
  - rewrite appendedTo_cons_other in Hnone by done.
    rewrite IH by done. by apply getChannelHistory_add_other.
Qed.

End HistoryStore.

(** With a negative [MAX_HISTORY_SIZE] (-1 is "unlimited") nothing is ever
    pruned: after any sequence of appends, from any store, the history of a
    conversation is what it was followed by every turn appended to it, in
    append order. *)
Theorem unlimited_history_keeps_every_turn
    (cfg : config) (h : HistoryManager.store)
    (appends : list (jsstring * message)) (channelId : jsstring) :
  (MAX_HISTORY_SIZE cfg < 0)%Z →
  HistoryManager.getChannelHistory (HistoryManager.appendAll cfg h appends) channelId
  = HistoryManager.getChannelHistory h channelId
      ++ HistoryManager.appendedTo channelId appends.
Proof. intros. by apply appendAll_unlimited. Qed.

Lemma unlimited_history_keeps_every_turn_witness :
  HistoryManager.getChannelHistory
    (HistoryManager.appendAll (withHistorySize (-1) defaultConfig)
       {[ JS.str "7" := [userTurn (JS.str "a")] ]}
       [(JS.str "7", assistantTurn (JS.str "b")); (JS.str "8", userTurn (JS.str "x"));
        (JS.str "7", userTurn (JS.str "c"))]) (JS.str "7")
  = HistoryManager.getChannelHistory
      ({[ JS.str "7" := [userTurn (JS.str "a")] ]} : HistoryManager.store) (JS.str "7")
    ++ HistoryManager.appendedTo (JS.str "7")
         [(JS.str "7", assistantTurn (JS.str "b")); (JS.str "8", userTurn (JS.str "x"));
          (JS.str "7", userTurn (JS.str "c"))].
Proof.
  apply (unlimited_history_keeps_every_turn (withHistorySize (-1) defaultConfig)).
  simpl. lia.
Defined.

(** Conversations are isolated: whatever the retention setting, appends
    addressed to other conversation ids leave the history of a conversation
    as it was. *)
Theorem appends_to_other_conversations_change_nothing
    (cfg : config) (h : HistoryManager.store)
    (appends : list (jsstring * message)) (channelId : jsstring) :
  Forall (λ op, op.1 ≠ channelId) appends →
  HistoryManager.getChannelHistory (HistoryManager.appendAll cfg h appends) channelId
  = HistoryManager.getChannelHistory h channelId.
Proof.
  intros Hother. apply appendAll_other.
  unfold HistoryManager.appendedTo.
  induction Hother as [|op rest Hop _ IH]; [done|].
  rewrite filter_cons. by rewrite decide_False.
Qed.

Lemma appends_to_other_conversations_change_nothing_witness :
  HistoryManager.getChannelHistory
    (HistoryManager.appendAll (withHistorySize 0 defaultConfig)
       {[ JS.str "7" := [userTurn (JS.str "a")] ]}
       [(JS.str "8", userTurn (JS.str "x")); (JS.str "9", userTurn (JS.str "y"))])
    (JS.str "7")
  = HistoryManager.getChannelHistory
      ({[ JS.str "7" := [userTurn (JS.str "a")] ]} : HistoryManager.store) (JS.str "7").
Proof.
  apply appends_to_other_conversations_change_nothing.
  repeat (constructor; [discriminate|]). constructor.
Defined.

(** ** History file: the helper shared by the statements on saved files *)
Section SavedFile.
Import JSON HistoryPersistence.

Lemma loadHistory_saveHistory
    (enumerate : HistoryManager.store → list (jsstring * list message))
    (fs : fileSystem) (h : HistoryManager.store) :
  enumerate h ≡ₚ map_to_list h → writable fs = true →
  loadHistory (saveHistory enumerate fs h) = Some h.
Proof.
  intros Henumerate Hwritable.
  unfold saveHistory. rewrite Hwritable.
  destruct (size h =? 0) eqn:Hsize;
    [destruct (historyFile fs) as [data|] eqn:Hfile|].
  - rewrite bool_decide_eq_true_2 by eauto. simpl.
    unfold loadHistory. simpl.
    rewrite throughUtf8_stringify, parse_stringify by apply historyObject_numberFree.
    rewrite storeOfJson_historyObject. f_equal. by apply store_of_entries.
  - rewrite bool_decide_eq_false_2 by (by intros [? ?]). simpl.
    apply Nat.eqb_eq, map_size_empty_iff in Hsize as ->.
    unfold loadHistory. by rewrite Hfile.
  - simpl. unfold loadHistory. simpl.
    rewrite throughUtf8_stringify, parse_stringify by apply historyObject_numberFree.
    rewrite storeOfJson_historyObject. f_equal. by apply store_of_entries.
Qed.

End SavedFile.

(** [clearChannelHistory] returns [true] exactly when the conversation had
    an entry; afterwards the conversation has no history, every other
    conversation has the history it had, and (the write succeeding) the
    file read back by [loadHistory] holds the store without that
    conversation. *)
Theorem clearing_removes_one_conversation_and_saves
    (enumerate : HistoryManager.store → list (jsstring * list message))
    (fs : HistoryPersistence.fileSystem) (h : HistoryManager.store)
    (channelId : jsstring) :
  let result := HistoryMaintenance.clearChannelHistory enumerate fs h channelId in
  let cleared := result.1.1 in
  let h' := result.1.2 in
  let fs' := result.2 in
  (cleared = true ↔ is_Some (h !! channelId))
  ∧ HistoryManager.getChannelHistory h' channelId = []
  ∧ (∀ other, other ≠ channelId →
       HistoryManager.getChannelHistory h' other
       = HistoryManager.getChannelHistory h other)
  ∧ (cleared = false → h' = h ∧ fs' = fs)
  ∧ (cleared = true → HistoryPersistence.writable fs = true →
     enumerate h' ≡ₚ map_to_list h' →
     HistoryPersistence.loadHistory fs' = Some h').
Proof.
  unfold HistoryMaintenance.clearChannelHistory.
  case_bool_decide as Hhas; simpl.
  - split; [done|]. split.
    { unfold HistoryManager.getChannelHistory. by rewrite lookup_delete_eq. }
    split.
    { intros other Hne. unfold HistoryManager.getChannelHistory.
      by rewrite lookup_delete_ne. }
    split; [done|].
    intros _ Hw He. by apply loadHistory_saveHistory.
  - split; [split; [done|intros; by destruct Hhas]|]. split.
    { unfold HistoryManager.getChannelHistory.
      destruct (h !! channelId) eqn:E; [|done]. destruct Hhas. eauto. }
    done.
Qed.

(** ** Periodic save *)
Section PeriodicSave.
Import HistoryMaintenance.
Variable SAVE_INTERVAL_MS : Z.

Lemma runSaverCall_consistent st call :
  saver_consistent SAVE_INTERVAL_MS st →
  saver_consistent SAVE_INTERVAL_MS (runSaverCall SAVE_INTERVAL_MS st call).
Proof.
  unfold saver_consistent. intros Hst.
  destruct call; simpl.
  - unfold startPeriodicSave.
    destruct (0 <? SAVE_INTERVAL_MS)%Z; [|done].
    destruct (saveIntervalId st) as [handle|] eqn:Hid; simpl.
    + destruct Hst as [-> _]. simpl. rewrite Nat.eqb_refl. simpl. split; [done|lia].
    + rewrite Hst. simpl. split; [done|lia].
  - unfold stopPeriodicSave.
    destruct (saveIntervalId st) as [handle|] eqn:Hid; simpl.
    + destruct Hst as [-> _]. simpl. by rewrite Nat.eqb_refl.
    + by rewrite Hid.
Qed.

Lemma runSaverCalls_consistent calls : ∀ st,
  saver_consistent SAVE_INTERVAL_MS st →
  saver_consistent SAVE_INTERVAL_MS (foldl (runSaverCall SAVE_INTERVAL_MS) st calls).
Proof.
  induction calls as [|call calls IH]; intros st Hst; [done|].
  simpl. apply IH. by apply runSaverCall_consistent.
Qed.

End PeriodicSave.

(** After any sequence of [startPeriodicSave] and [stopPeriodicSave] calls
    the runtime holds at most one save interval, the one recorded in
    [saveIntervalId]; a start replaces the interval of an earlier start, and
    after a stop (or with a period that is not positive) none is left. *)
Theorem periodic_save_holds_at_most_one_interval
    (SAVE_INTERVAL_MS : Z) (calls : list HistoryMaintenance.saverCall) :
  let st :=
    foldl (HistoryMaintenance.runSaverCall SAVE_INTERVAL_MS)
      HistoryMaintenance.initialSaver calls in
  length (HistoryMaintenance.activeIntervals st) ≤ 1
  ∧ HistoryMaintenance.activeIntervals st
    = match HistoryMaintenance.saveIntervalId st with
      | Some handle => [(handle, SAVE_INTERVAL_MS)]
      | None => []
      end
  ∧ HistoryMaintenance.activeIntervals
      (HistoryMaintenance.stopPeriodicSave st) = []
  ∧ ((SAVE_INTERVAL_MS ≤ 0)%Z → HistoryMaintenance.activeIntervals st = []).
Proof.
  intros st.
  assert (Hst : saver_consistent SAVE_INTERVAL_MS st).
  { apply runSaverCalls_consistent. done. }
  assert (Hstop : saver_consistent SAVE_INTERVAL_MS
                    (HistoryMaintenance.stopPeriodicSave st)).
  { apply (runSaverCall_consistent _ st HistoryMaintenance.StopPeriodicSave Hst). }
  assert (Hnone : HistoryMaintenance.saveIntervalId
                    (HistoryMaintenance.stopPeriodicSave st) = None).
  { unfold HistoryMaintenance.stopPeriodicSave.
    by destruct (HistoryMaintenance.saveIntervalId st) eqn:E. }
  unfold saver_consistent in *. rewrite Hnone in Hstop.
  split_and!.
  - destruct (HistoryMaintenance.saveIntervalId st); [destruct Hst as [-> _]|rewrite Hst];
      simpl; lia.
  - by destruct (HistoryMaintenance.saveIntervalId st); [destruct Hst as [-> _]|].
  - done.
  - intros Hoff. subst st. clear Hst Hstop Hnone.
    induction calls as [|call calls IH] using rev_ind; [done|].
    rewrite foldl_app. simpl. destruct call; simpl.
    + unfold HistoryMaintenance.startPeriodicSave.
      destruct (Z.ltb_spec 0 SAVE_INTERVAL_MS); [lia|done].
    + unfold HistoryMaintenance.stopPeriodicSave.
      destruct (HistoryMaintenance.saveIntervalId _); [|done].
      simpl. by rewrite IH.
Qed.


(** ** Response splitter: what the chunks hold *)
Section Visible.

Lemma visible_app a b : visible (a ++ b) = visible a ++ visible b.
Proof. apply List.filter_app. Qed.

Lemma visible_blank s : blank s = true → visible s = [].
Proof.
  induction s as [|c s IH]; [done|]. simpl.
  intros [Hc Hs]%andb_true_iff. rewrite Hc. simpl. auto.
Qed.

Lemma visible_nil_blank s : visible s = [] → blank s = true.
Proof.
  induction s as [|c s IH]; [done|]. simpl.
  destruct (JS.isWhiteSpace c); simpl; [auto|done].
Qed.

Lemma visible_trimStart s : visible (JS.trimStart s) = visible s.
Proof.
  induction s as [|c s IH]; [done|]. simpl.
  destruct (JS.isWhiteSpace c) eqn:E; simpl; [done|]. by rewrite E.
Qed.

Lemma visible_reverse s : visible (reverse s) = reverse (visible s).
Proof.
  induction s as [|c s IH]; [done|].
  rewrite reverse_cons, visible_app, IH. simpl.
  destruct (JS.isWhiteSpace c); simpl.
  - by rewrite app_nil_r.
  - by rewrite reverse_cons.
Qed.

Lemma visible_trim s : visible (JS.trim s) = visible s.
Proof.
  unfold JS.trim, JS.trimEnd.
  by rewrite visible_reverse, visible_trimStart, visible_reverse,
    reverse_involutive, visible_trimStart.
Qed.

Lemma visible_concat_app l a : visible (concat (l ++ [a])) = visible (concat l) ++ visible a.
Proof. by rewrite concat_app, visible_app; simpl; rewrite app_nil_r. Qed.

Lemma visible_normalizeNewlines s :
  visible (MessageUtils.normalizeNewlines s) = visible s.
Proof.
  remember (length s) as n eqn:Hn.
  revert s Hn. induction (lt_wf n) as [n _ IH]. intros s ->.
  destruct s as [|c [|d r]]; [done|done|].
  change (MessageUtils.normalizeNewlines (c :: d :: r))
    with (if ((c =? 13) && (d =? 10))%N
          then 10%N :: MessageUtils.normalizeNewlines r
          else c :: MessageUtils.normalizeNewlines (d :: r)).
  destruct ((c =? 13) && (d =? 10))%N eqn:E.
  - apply andb_true_iff in E as [->%N.eqb_eq ->%N.eqb_eq].
    change (visible (10%N :: MessageUtils.normalizeNewlines r))
      with (visible (MessageUtils.normalizeNewlines r)).
    change (visible (13%N :: 10%N :: r)) with (visible r).
    eapply IH; [|reflexivity]. simpl. lia.
  - change (c :: MessageUtils.normalizeNewlines (d :: r))
      with ([c] ++ MessageUtils.normalizeNewlines (d :: r)).
    change (c :: d :: r) with ([c] ++ d :: r).
    rewrite !visible_app. f_equal. eapply IH; [|reflexivity]. simpl. lia.
Qed.

Variable maxLength : nat.
Hypothesis maxLength_pos : 0 < maxLength.

Lemma hardSplit_concat s pieces :
  MessageUtils.hardSplit s maxLength = Some pieces → concat pieces = s.
Proof.
  destruct (hardSplit_spec maxLength maxLength_pos s) as (l & -> & _ & Hl).
  by intros [= <-].
Qed.

Lemma splitStep_visible_content st part st' :
  MessageUtils.splitStep maxLength st part = Some st' →
  visible (concat st'.1 ++ st'.2) = visible (concat st.1 ++ st.2 ++ part).
Proof.
  destruct st as [chunks cur]. unfold MessageUtils.splitStep. simpl.
  destruct (maxLength <? _ + _ + _).
  - assert (Hc1 : visible (concat (if 0 <? length cur
                                   then chunks ++ [JS.trim cur] else chunks))
                  = visible (concat chunks ++ cur)).
    { destruct cur as [|c cur]; simpl; [by rewrite app_nil_r|].
      by rewrite visible_concat_app, visible_trim, visible_app. }
    destruct (maxLength <? length part).
    + destruct (MessageUtils.hardSplit part maxLength) as [pieces|] eqn:Hp; [|done].
      simpl. intros [= <-]. simpl. rewrite app_nil_r.
      rewrite concat_app, visible_app, Hc1, (hardSplit_concat _ _ Hp).
      by rewrite !visible_app, app_assoc.
    + intros [= <-]. simpl. by rewrite visible_app, Hc1, !visible_app, app_assoc.
  - intros [= <-]. simpl.
    destruct ((0 <? length cur) && negb (bool_decide (part = [10%N]))
              && (0 <? length (JS.trim part))); [|done].
    rewrite <- !app_assoc. rewrite !visible_app. simpl. done.
Qed.

Lemma splitLoop_visible_content parts : ∀ st st',
  MessageUtils.splitLoop maxLength parts st = Some st' →
  visible (concat st'.1 ++ st'.2) = visible (concat st.1 ++ st.2 ++ concat parts).
Proof.
  induction parts as [|part rest IH]; intros st st' Hrun; simpl in *.
  - injection Hrun as <-. by rewrite app_nil_r.
  - destruct (MessageUtils.splitStep maxLength st part) as [st1|] eqn:Hstep; [|done].
    simpl in Hrun. rewrite (IH _ _ Hrun).
    rewrite (app_assoc (concat st1.1)), visible_app.
    rewrite (splitStep_visible_content _ _ _ Hstep).
    by rewrite !visible_app, <- !app_assoc.
Qed.

Lemma safeguard_visible_content chunks : ∀ l,
  MessageUtils.safeguard maxLength chunks = Some l →
  visible (concat l) = visible (concat chunks).
Proof.
  induction chunks as [|chunk rest IH]; intros l; simpl.
  - by intros [= <-].
  - destruct (MessageUtils.safeguard maxLength rest) as [l'|] eqn:Hrest.
    2:{ destruct (maxLength <? length chunk);
          [destruct (MessageUtils.hardSplit chunk maxLength)|
           destruct (0 <? length (JS.trim chunk))]; done. }
    specialize (IH l' eq_refl).
    destruct (maxLength <? length chunk).
    + destruct (MessageUtils.hardSplit chunk maxLength) as [pieces|] eqn:Hp; [|done].
      simpl. intros [= <-].
      by rewrite concat_app, !visible_app, IH, (hardSplit_concat _ _ Hp).
    + rewrite trim_length_pos. destruct (blank chunk) eqn:Hb; simpl; intros [= <-].
      * by rewrite visible_app, (visible_blank _ Hb), IH.
      * simpl. by rewrite !visible_app, IH.
Qed.

End Visible.

Lemma splitMessage_visible_content (text : jsstring) (maxLength : nat) chunks :
  0 < maxLength → blank text = false →
  MessageUtils.splitMessage text maxLength = Some chunks →
  visible (concat chunks) = visible text.
Proof.
  intros Hpos Hvis. unfold MessageUtils.splitMessage.
  destruct text as [|t0 text']; [done|].
  set (text := t0 :: text') in *. change (length text =? 0) with false. cbv iota.
  set (parts := MessageUtils.splitKeepingNewlines (MessageUtils.normalizeNewlines text)).
  assert (Hparts : concat parts = MessageUtils.normalizeNewlines text)
    by apply splitKeepingNewlines_concat.
  destruct (MessageUtils.splitLoop maxLength parts ([], [])) as [[chunks1 cur]|] eqn:Hloop;
    [|done].
  pose proof (splitLoop_visible_content maxLength Hpos _ _ _ Hloop) as Hcontent.
  simpl in Hcontent. rewrite Hparts, visible_normalizeNewlines in Hcontent.
  cbn -[blank JS.trim MessageUtils.safeguard MessageUtils.hardSplit Nat.ltb length text].
  rewrite !trim_length_pos. rewrite Hvis. cbn [negb].
  set (chunks2 := if negb (blank cur) then chunks1 ++ [JS.trim cur] else chunks1).
  assert (Hc2 : visible (concat chunks2) = visible text).
  { rewrite <- Hcontent, visible_app. subst chunks2.
    destruct (blank cur) eqn:Hb; simpl.
    - by rewrite (visible_blank _ Hb), app_nil_r.
    - by rewrite visible_concat_app, visible_trim. }
  destruct (length chunks2 =? 0) eqn:Hlen; cbn [andb].
  - destruct (MessageUtils.hardSplit text maxLength) as [pieces|] eqn:Hp; [|done].
    cbn -[blank JS.trim MessageUtils.safeguard MessageUtils.hardSplit Nat.ltb length text].
    destruct (MessageUtils.safeguard maxLength (chunks2 ++ pieces)) as [l|] eqn:Hs; [|done].
    cbn -[blank JS.trim MessageUtils.safeguard MessageUtils.hardSplit Nat.ltb length text].
    pose proof (safeguard_visible_content maxLength Hpos _ _ Hs) as Hl.
    destruct chunks2; [|done]. simpl in Hl.
    rewrite (hardSplit_concat maxLength Hpos _ _ Hp) in Hl.
    destruct l as [|l0 l']; simpl.
    + intros _. exfalso. simpl in Hl.
      assert (blank text = true); [|congruence].
      by apply visible_nil_blank.
    + by intros [= <-].
  - cbn -[blank JS.trim MessageUtils.safeguard MessageUtils.hardSplit Nat.ltb length text].
    destruct (MessageUtils.safeguard maxLength chunks2) as [l|] eqn:Hs; [|done].
    cbn -[blank JS.trim MessageUtils.safeguard MessageUtils.hardSplit Nat.ltb length text].
    pose proof (safeguard_visible_content maxLength Hpos _ _ Hs) as Hl.
    rewrite Hc2 in Hl.
    destruct l as [|l0 l']; simpl.
    + intros _. exfalso. simpl in Hl.
      assert (blank text = true); [|congruence].
      by apply visible_nil_blank.
    + by intros [= <-].
Qed.


(** Splitting loses nothing that can be seen: for a positive maximum length
    and a text with a visible character, the visible (non-whitespace)
    characters of the chunks, read in order, are exactly those of the text;
    only whitespace is added, dropped or moved. *)
Theorem split_keeps_visible_characters (text : jsstring) (maxLength : nat) :
  0 < maxLength → blank text = false →
  ∃ chunks, MessageUtils.splitMessage text maxLength = Some chunks
    ∧ visible (concat chunks) = visible text.
Proof.
  intros Hpos Hvis.
  destruct (splitMessage_spec text maxLength Hpos) as (chunks & Hrun & _).
  exists chunks. split; [done|].
  by apply (splitMessage_visible_content text maxLength).
Qed.

Lemma split_keeps_visible_characters_witness :
  ∃ chunks, MessageUtils.splitMessage (JS.str "hello wide world") 5 = Some chunks
    ∧ visible (concat chunks) = visible (JS.str "hello wide world").
Proof.
  apply (split_keeps_visible_characters (JS.str "hello wide world") 5);
    [lia|reflexivity].
Defined.

Section SingleLine.

Lemma normalizeNewlines_no_newline s :
  10%N ∉ s → MessageUtils.normalizeNewlines s = s.
Proof.
  remember (length s) as n eqn:Hn.
  revert s Hn. induction (lt_wf n) as [n _ IH]. intros s -> Hs.
  destruct s as [|c [|d r]]; [done|done|].
  change (MessageUtils.normalizeNewlines (c :: d :: r))
    with (if ((c =? 13) && (d =? 10))%N
          then 10%N :: MessageUtils.normalizeNewlines r
          else c :: MessageUtils.normalizeNewlines (d :: r)).
  destruct (N.eqb_spec d 10) as [->|_].
  { exfalso. apply Hs. by repeat constructor. }
  rewrite andb_false_r. f_equal.
  eapply IH; [|reflexivity|]; [simpl; lia|].
  intros Hin. apply Hs. by constructor.
Qed.

Lemma splitKeepingNewlines_no_newline s :
  10%N ∉ s → MessageUtils.splitKeepingNewlines s = [s].
Proof.
  induction s as [|c s IH]; intros Hs; [done|]. simpl.
  destruct (N.eqb_spec c 10) as [->|_].
  { exfalso. apply Hs. by constructor. }
  rewrite IH; [done|]. intros Hin. apply Hs. by constructor.
Qed.

Lemma splitLoop_single_part (text : jsstring) (maxLength : nat) :
  length text ≤ maxLength →
  MessageUtils.splitLoop maxLength [text] ([], []) = Some ([], text).
Proof.
  intros Hfit. simpl. destruct (Nat.ltb_spec maxLength (length text + 0)); [lia|done].
Qed.

End SingleLine.

(** A text without a line feed that has a visible character and is not
    longer than the maximum is returned as one chunk, the text trimmed. *)
Theorem short_single_line_is_one_chunk (text : jsstring) (maxLength : nat) :
  10%N ∉ text → blank text = false → length text ≤ maxLength →
  MessageUtils.splitMessage text maxLength = Some [JS.trim text].
Proof.
  intros Hline Hvis Hfit. unfold MessageUtils.splitMessage.
  destruct (Nat.eqb_spec (length text) 0) as [Hnil|_].
  { apply nil_length_inv in Hnil. by subst text. }
  rewrite normalizeNewlines_no_newline, splitKeepingNewlines_no_newline by done.
  rewrite (splitLoop_single_part _ _ Hfit). simpl mbind.
  rewrite !trim_length_pos, Hvis. simpl.
  pose proof (trim_length text).
  destruct (Nat.ltb_spec maxLength (length (JS.trim text))); [lia|].
  rewrite trim_length_pos, trim_blank, Hvis. reflexivity.
Qed.

Lemma short_single_line_is_one_chunk_witness :
  MessageUtils.splitMessage (JS.str "  hi there ") 1900
  = Some [JS.trim (JS.str "  hi there ")].
Proof.
  apply short_single_line_is_one_chunk.
  - intros Hin. vm_compute in Hin.
    repeat (apply elem_of_cons in Hin as [Hin|Hin]; [discriminate|]).
    by apply elem_of_nil in Hin.
  - reflexivity.
  - vm_compute. lia.
Defined.

(** ** Emoji filter *)
Section EmojiFilter.
Import MessageUtils.

Lemma filterEmojis_unfold c r :
  filterEmojis (c :: r) =
    if isEmojiSymbol c then filterEmojis r
    else match r with
         | d :: r' =>
             if (isEmojiLead c && (53248 <=? d) && (d <=? 57087))%N
             then filterEmojis r'
             else c :: filterEmojis r
         | [] => [c]
         end.
Proof. reflexivity. Qed.

Lemma filterEmojis_facts n : ∀ s, length s ≤ n →
  length (filterEmojis s) ≤ length s
  ∧ Forall (λ c, isEmojiSymbol c = false) (filterEmojis s).
Proof.
  induction n as [|n IH]; intros s Hn.
  - destruct s; [|simpl in Hn; lia]. split; [done|constructor].
  - destruct s as [|c r]; [split; [done|constructor]|].
    simpl in Hn. rewrite filterEmojis_unfold.
    destruct (isEmojiSymbol c) eqn:Hc.
    + destruct (IH r ltac:(lia)) as [Hl Hf]. split; [simpl; lia|done].
    + destruct r as [|d r'].
      * split; [done|]. by repeat constructor.
      * destruct (isEmojiLead c && (53248 <=? d) && (d <=? 57087))%N.
        -- simpl in Hn. destruct (IH r' ltac:(lia)) as [Hl Hf].
           split; [simpl; lia|done].
        -- destruct (IH (d :: r') ltac:(simpl in *; lia)) as [Hl Hf].
           split; [simpl in *; lia|by constructor].
Qed.

Lemma filterEmojis_plain s :
  Forall (λ c, isEmojiSymbol c = false ∧ isEmojiLead c = false) s →
  filterEmojis s = s.
Proof.
  induction 1 as [|c r [Hc Hl] Hr IH]; [done|].
  rewrite filterEmojis_unfold, Hc, Hl. destruct r; [done|]. simpl andb. cbv iota.
  by rewrite IH.
Qed.

End EmojiFilter.

(** [filterEmojis] never lengthens a text; its result holds no copyright
    sign, registered sign or code unit from U+2000 to U+3300; and a text
    that has none of these and no U+D83C, U+D83D or U+D83E comes back
    unchanged. *)
Theorem emoji_filter_removes_symbols_only (s : jsstring) :
  length (MessageUtils.filterEmojis s) ≤ length s
  ∧ Forall (λ c, isEmojiSymbol c = false) (MessageUtils.filterEmojis s)
  ∧ (Forall (λ c, isEmojiSymbol c = false ∧ isEmojiLead c = false) s →
     MessageUtils.filterEmojis s = s).
Proof.
  destruct (filterEmojis_facts (length s) s ltac:(done)) as [Hl Hf].
  split_and!; [done|done|apply filterEmojis_plain].
Qed.

(** ** Escaping the split token *)
Section Escaping.
Import RegExpEscape.

Lemma syntaxCharacter_backslash : isSyntaxCharacter 92 = true.
Proof. reflexivity. Qed.

Lemma literalOfPattern_escapeRegExp s : literalOfPattern (escapeRegExp s) = Some s.
Proof.
  induction s as [|c s IH]; [done|]. simpl.
  destruct (isSyntaxCharacter c) eqn:Hc; simpl.
  - by rewrite Hc, IH.
  - destruct (N.eqb_spec c 92) as [->|_]; [done|].
    by rewrite Hc, IH.
Qed.

End Escaping.

(** [escapeRegExp] turns every string into a pattern that matches that
    string literally: read as a regular-expression source, its result
    consists only of ordinary characters and escaped syntax characters, and
    the text these stand for is the original string. *)
Theorem escaped_pattern_matches_the_string_literally (s : jsstring) :
  RegExpEscape.literalOfPattern (RegExpEscape.escapeRegExp s) = Some s.
Proof. apply literalOfPattern_escapeRegExp. Qed.


(** ** History compaction: what reaches Gemini *)
Section Compaction.
Import GeminiService.

Lemma rendering_snoc l g :
  rendering (l ++ [g]) = rendering l ++ ((λ p, (gRole g, text p)) <$> parts g).
Proof. unfold rendering. rewrite bind_app. simpl. by rewrite app_nil_r. Qed.

Lemma alternating_snoc l g :
  alternating l → (∀ a, last l = Some a → gRole a ≠ gRole g) →
  alternating (l ++ [g]).
Proof.
  intros Halt Hlast i a b Ha Hb.
  assert (Hi : S i < length (l ++ [g])) by (by apply lookup_lt_Some in Hb).
  rewrite length_app in Hi. simpl in Hi.
  rewrite lookup_app_l in Ha by lia.
  destruct (decide (S i < length l)) as [Hin|Hout].
  - rewrite lookup_app_l in Hb by lia. by eapply Halt.
  - assert (S i = length l) as Hlen by lia.
    rewrite lookup_app_r in Hb by lia.
    replace (S i - length l) with 0 in Hb by lia. injection Hb as <-.
    apply Hlast. rewrite last_lookup. by replace (pred (length l)) with i by lia.
Qed.

Lemma mapRole_cases r : mapRole r = JS.str "user" ∨ mapRole r = JS.str "model".
Proof. unfold mapRole. case_bool_decide; auto. Qed.

Lemma pushCurrent_invariant geminiMessages r currentParts :
  formatInvariant (geminiMessages, Some r, currentParts) →
  pushCurrent geminiMessages (Some r) currentParts
    = geminiMessages ++ [{| gRole := r; parts := currentParts |}]
  ∧ Forall wellFormedTurn (pushCurrent geminiMessages (Some r) currentParts)
  ∧ alternating (pushCurrent geminiMessages (Some r) currentParts).
Proof.
  intros (Hwf & Halt & Hr & Hparts & Hlast).
  assert (Hpush : pushCurrent geminiMessages (Some r) currentParts
                  = geminiMessages ++ [{| gRole := r; parts := currentParts |}]).
  { unfold pushCurrent.
    destruct currentParts; [done|]. by destruct Hr as [->| ->]. }
  rewrite Hpush. split_and!; [done| |].
  - apply Forall_app. split; [done|]. constructor; [|constructor]. by split.
  - by apply alternating_snoc.
Qed.

Lemma formatStep_invariant st msg :
  formatInvariant st →
  formatInvariant (formatStep st msg)
  ∧ renderState (formatStep st msg)
    = renderState st ++ [(mapRole (role msg), content msg)].
Proof.
  destruct st as [[geminiMessages currentRole] currentParts]. intros Hinv.
  unfold formatStep. case_bool_decide as Hsame.
  - subst currentRole. destruct Hinv as (Hwf & Halt & Hr & Hparts & Hlast).
    split.
    + split_and!; try done. by destruct currentParts.
    + simpl. by rewrite fmap_app, app_assoc.
  - destruct currentRole as [r|].
    + destruct (pushCurrent_invariant _ _ _ Hinv) as (Hpush & Hwf' & Halt').
      split.
      * split_and!; [done|done|apply mapRole_cases|done|].
        intros a. rewrite Hpush, last_snoc. intros [= <-]. simpl. congruence.
      * unfold renderState. rewrite Hpush, rendering_snoc. simpl.
        by rewrite <- app_assoc.
    + destruct Hinv as (Hwf & Halt & -> & ->). simpl. split; [|done].
      split; [apply List.Forall_nil|]. split; [done|].
      split; [apply mapRole_cases|]. by split.
Qed.

Lemma foldl_formatStep_invariant messages : ∀ st,
  formatInvariant st →
  formatInvariant (foldl formatStep st messages)
  ∧ renderState (foldl formatStep st messages)
    = renderState st ++ ((λ m, (mapRole (role m), content m)) <$> messages).
Proof.
  induction messages as [|msg rest IH]; intros st Hinv; simpl.
  - by rewrite app_nil_r.
  - destruct (formatStep_invariant st msg Hinv) as [Hinv' Hrender].
    destruct (IH _ Hinv') as [Hinv'' Hrender'].
    split; [done|]. rewrite Hrender', Hrender. by rewrite <- app_assoc.
Qed.

(** The merged turns before the final filter. *)
Lemma merged_turns messages :
  ∃ merged,
    formatMessagesForGemini messages
      = List.filter (λ msg, forallb partHasText (parts msg)) merged
    ∧ Forall wellFormedTurn merged ∧ alternating merged
    ∧ rendering merged = (λ m, (mapRole (role m), content m)) <$> messages.
Proof.
  unfold formatMessagesForGemini.
  destruct (foldl_formatStep_invariant messages ([], None, [])) as [Hinv Hrender].
  { split; [apply List.Forall_nil|]. split; [|done].
    intros i a b Ha. by rewrite lookup_nil in Ha. }
  destruct (foldl formatStep ([], None, []) messages)
    as [[geminiMessages currentRole] currentParts].
  eexists. split; [reflexivity|].
  destruct currentRole as [r|].
  - destruct (pushCurrent_invariant _ _ _ Hinv) as (Hpush & Hwf & Halt).
    split_and!; [done|done|].
    rewrite Hpush, rendering_snoc. exact Hrender.
  - destruct Hinv as (Hwf & Halt & -> & ->). simpl in *.
    split_and!; [done|done|]. exact Hrender.
Qed.

Lemma rendering_elem_of merged g p :
  g ∈ merged → p ∈ parts g → (gRole g, text p) ∈ rendering merged.
Proof.
  intros Hg Hp. unfold rendering. apply list_elem_of_bind.
  exists g. split; [|done]. apply list_elem_of_fmap. by exists p.
Qed.

Lemma filter_all {A} (P : A → bool) (l : list A) :
  Forall (λ x, P x = true) l → List.filter P l = l.
Proof. induction 1 as [|x l Hx _ IH]; [done|]. simpl. by rewrite Hx, IH. Qed.

Lemma filter_sublist_Forall {A} (P : A → bool) (Q : A → Prop) (l : list A) :
  Forall Q l → Forall (λ x, Q x ∧ P x = true) (List.filter P l).
Proof.
  induction 1 as [|x l Hx _ IH]; [constructor|]. simpl.
  destruct (P x) eqn:E; [by constructor|done].
Qed.

End Compaction.

(** A history whose contents all have a visible character reaches Gemini
    complete and in order: the parts of the compacted turns, each with the
    role of its turn, are the contents of the input turns with their mapped
    roles; and the compacted turns alternate in role. *)
Theorem compaction_keeps_visible_history_and_alternates (messages : list message) :
  Forall (λ m, blank (content m) = false) messages →
  rendering (GeminiService.formatMessagesForGemini messages)
    = (λ m, (GeminiService.mapRole (role m), content m)) <$> messages
  ∧ alternating (GeminiService.formatMessagesForGemini messages).
Proof.
  intros Hvisible.
  destruct (merged_turns messages) as (merged & -> & Hwf & Halt & Hrender).
  rewrite filter_all; [done|].
  apply Forall_forall. intros g Hg. apply forallb_forall. intros p Hp.
  apply list_elem_of_In in Hp.
  pose proof (rendering_elem_of _ _ _ Hg Hp) as Hin.
  rewrite Hrender in Hin. apply list_elem_of_fmap in Hin as (m & [= _ Htext] & Hm).
  rewrite partHasText_blank, Htext.
  rewrite Forall_forall in Hvisible. by rewrite (Hvisible m Hm).
Qed.

Lemma compaction_keeps_visible_history_and_alternates_witness :
  rendering (GeminiService.formatMessagesForGemini
               [userTurn (JS.str "a"); userTurn (JS.str "b");
                assistantTurn (JS.str "c"); userTurn (JS.str "d")])
    = (λ m, (GeminiService.mapRole (role m), content m))
        <$> [userTurn (JS.str "a"); userTurn (JS.str "b");
             assistantTurn (JS.str "c"); userTurn (JS.str "d")]
  ∧ alternating (GeminiService.formatMessagesForGemini
                   [userTurn (JS.str "a"); userTurn (JS.str "b");
                    assistantTurn (JS.str "c"); userTurn (JS.str "d")]).
Proof.
  apply compaction_keeps_visible_history_and_alternates.
  repeat (constructor; [reflexivity|]). constructor.
Defined.

(** Whatever the history, every turn that [formatMessagesForGemini] returns
    has the role [user] or [model], at least one part, and no part that is
    empty or whitespace only. *)
Theorem compaction_returns_only_well_formed_turns (messages : list message) :
  Forall (λ g, wellFormedTurn g
               ∧ Forall (λ p, blank (GeminiService.text p) = false)
                   (GeminiService.parts g))
    (GeminiService.formatMessagesForGemini messages).
Proof.
  destruct (merged_turns messages) as (merged & -> & Hwf & _ & _).
  eapply Forall_impl; [apply (filter_sublist_Forall _ _ _ Hwf)|].
  intros g [Hg Hparts]. split; [done|].
  apply Forall_forall. intros p Hp.
  rewrite forallb_forall in Hparts.
  specialize (Hparts p (proj1 (list_elem_of_In _ _) Hp)).
  rewrite partHasText_blank in Hparts. by destruct (blank (GeminiService.text p)).
Qed.


(** ** Gemini chat: the check of the user info *)
Section GeminiGate.
Import GeminiChat.

Lemma channelIdMatch_dm userId :
  channelIdMatch (JS.str "dm_" ++ userId)
  = if (0 <? length userId) && forallb isDigit userId then Some userId else None.
Proof.
  unfold channelIdMatch. rewrite startsWith_app.
  change (drop 3 (JS.str "dm_" ++ userId)) with userId. done.
Qed.


Lemma instructions_name_fields cfg missingFields :
  Forall (λ field, JS.includes (instructions cfg missingFields) field = true)
    missingFields.
Proof.
  apply Forall_forall. intros f Hf.
  set (line := λ field : jsstring,
         JS.str "- " ++ field ++ JS.str ": Use `" ++ COMMAND_PREFIX cfg
         ++ JS.str " input " ++ field ++ JS.str " your_" ++ field ++ JS.str "`").
  destruct (join_includes [10%N] (line <$> missingFields) (line f)) as (b & a & Hj).
  { apply list_elem_of_fmap. by exists f. }
  unfold instructions. fold line. rewrite Hj. unfold line.
  rewrite <- !app_assoc.
  rewrite (app_assoc (JS.str "Before we can chat, pls provide the following:")).
  rewrite (app_assoc _ b). rewrite (app_assoc _ (JS.str "- ")).
  apply includes_middle.
Qed.


End GeminiGate.



(** Called for a conversation [dm_<digits>] whose user has incomplete info,
    Gemini's [chat] does not start a request: it returns the instructions,
    which name every missing field. *)
Theorem gemini_chat_instructs_incomplete_user
    (cfg : config) (rt : runtime) (users : UserInfoManager.state)
    (messages : list message) (userId : jsstring) :
  messages ≠ [] → userId ≠ [] → forallb GeminiChat.isDigit userId = true →
  UserInfoManager.isUserInfoComplete rt users userId = false →
  let missingFields := UserInfoManager.getMissingFields rt users userId in
  GeminiChat.chat cfg rt users true messages (JS.str "dm_" ++ userId)
    = GeminiChat.ReturnsInstructions (GeminiChat.instructions cfg missingFields)
  ∧ Forall (λ field,
       JS.includes (GeminiChat.instructions cfg missingFields) field = true)
      missingFields.
Proof.
  intros Hmessages Hid Hdigits Hincomplete missingFields.
  split; [|apply instructions_name_fields].
  unfold GeminiChat.chat. simpl negb. cbv iota.
  destruct (last messages) as [current|] eqn:Hlast.
  2:{ by apply last_None in Hlast. }
  change (0 <? length (JS.str "dm_" ++ userId)) with true. cbv iota.
  rewrite channelIdMatch_dm, Hdigits.
  destruct userId; [done|]. simpl andb. cbv iota.
  by rewrite Hincomplete.
Qed.

Lemma gemini_chat_instructs_incomplete_user_witness :
  let missingFields :=
    UserInfoManager.getMissingFields asciiRuntime oneHalfKnownUser (JS.str "42") in
  GeminiChat.chat defaultConfig asciiRuntime oneHalfKnownUser true
      [userTurn (JS.str "hi")] (JS.str "dm_" ++ JS.str "42")
    = GeminiChat.ReturnsInstructions (GeminiChat.instructions defaultConfig missingFields)
  ∧ Forall (λ field,
       JS.includes (GeminiChat.instructions defaultConfig missingFields) field = true)
      missingFields.
Proof.
  apply (gemini_chat_instructs_incomplete_user defaultConfig asciiRuntime
           oneHalfKnownUser [userTurn (JS.str "hi")] (JS.str "42"));
    [discriminate|discriminate|reflexivity|vm_compute; reflexivity].
Defined.


(** ** User info *)
Section UserInfo.
Import UserInfoManager UserInfoStore.
Variable rt : runtime.

Lemma missing_nil_complete info fields :
  forallb (fieldFilled info) fields = true
  ↔ List.filter (λ field, negb (fieldFilled info field)) fields = [].
Proof.
  induction fields as [|f fields IH]; [done|]. simpl.
  destruct (fieldFilled info f); simpl; [done|]. split; discriminate.
Qed.

Lemma complete_iff_nothing_missing st userId :
  REQUIRED_FIELDS st ≠ [] →
  isUserInfoComplete rt st userId = true ↔ getMissingFields rt st userId = [].
Proof.
  intros Hfields. unfold isUserInfoComplete, getMissingFields.
  destruct (length userId =? 0) eqn:Hid.
  - unfold getUserInfo. rewrite Hid. split; [done|]. intros. by destruct Hfields.
  - destruct (getUserInfo rt st userId) as [info|].
    + apply missing_nil_complete.
    + split; [done|]. intros. by destruct Hfields.
Qed.



End UserInfo.

(** A user is complete exactly when no required field is missing (there
    being at least one required field): [isUserInfoComplete] and
    [getMissingFields] agree, also for an unknown user and for an empty
    id. *)
Theorem complete_exactly_when_nothing_is_missing
    (rt : runtime) (st : UserInfoManager.state) (userId : jsstring) :
  UserInfoManager.REQUIRED_FIELDS st ≠ [] →
  UserInfoManager.isUserInfoComplete rt st userId = true
  ↔ UserInfoManager.getMissingFields rt st userId = [].
Proof. apply complete_iff_nothing_missing. Qed.

Lemma complete_exactly_when_nothing_is_missing_witness :
  UserInfoManager.isUserInfoComplete asciiRuntime oneKnownUser (JS.str "42") = true
  ↔ UserInfoManager.getMissingFields asciiRuntime oneKnownUser (JS.str "42") = [].
Proof.
  apply (complete_exactly_when_nothing_is_missing asciiRuntime oneKnownUser).
  discriminate.
Defined.


Section UserInfoSetters.
Import UserInfoManager UserInfoStore.
Variables (rt : runtime) (order : keyOrder).





Lemma addRequiredField_fields names : ∀ st,
  NoDup (REQUIRED_FIELDS st) →
  let st' := foldl (λ st name, (addRequiredField st name).2) st names in
  NoDup (REQUIRED_FIELDS st')
  ∧ REQUIRED_FIELDS st `prefix_of` REQUIRED_FIELDS st'
  ∧ (∀ name, name ∈ REQUIRED_FIELDS st' ↔ name ∈ REQUIRED_FIELDS st ∨ name ∈ names)
  ∧ userInfo st' = userInfo st.
Proof.
  induction names as [|name rest IH]; intros st Hnodup.
  - simpl. split_and!; [done|done| |done].
    intros name. rewrite elem_of_nil. tauto.
  - simpl foldl.
    assert (Hstep : NoDup (REQUIRED_FIELDS (addRequiredField st name).2)
              ∧ REQUIRED_FIELDS st `prefix_of` REQUIRED_FIELDS (addRequiredField st name).2
              ∧ (∀ n, n ∈ REQUIRED_FIELDS (addRequiredField st name).2
                      ↔ n ∈ REQUIRED_FIELDS st ∨ n = name)
              ∧ userInfo (addRequiredField st name).2 = userInfo st).
    { unfold addRequiredField. case_bool_decide as Hin; simpl.
      - split_and!; [done|done| |done]. intros n. split; [auto|].
        by intros [?| ->].
      - split_and!; [|by apply prefix_app_r| |done].
        + apply NoDup_app. split_and!; [done| |apply NoDup_singleton].
          intros n Hn ->%list_elem_of_singleton. done.
        + intros n. rewrite elem_of_app, list_elem_of_singleton. done. }
    destruct Hstep as (Hnd1 & Hpre1 & Hin1 & Hui1).
    destruct (IH _ Hnd1) as (Hnd & Hpre & Hin & Hui).
    split_and!; [done|by etrans| |by rewrite Hui].
    intros n. rewrite Hin, Hin1, elem_of_cons. tauto.
Qed.

End UserInfoSetters.





(** Calls of [addRequiredField] never repeat a required field and never
    remove or reorder one: after any run of calls, starting with distinct
    fields, the fields are distinct, the fields there were come first in
    their order, exactly the given names have been added to them, and no
    user record has changed. *)
Theorem required_fields_grow_without_duplicates
    (st : UserInfoManager.state) (names : list jsstring) :
  NoDup (UserInfoManager.REQUIRED_FIELDS st) →
  let st' := foldl (λ st name, (UserInfoStore.addRequiredField st name).2) st names in
  NoDup (UserInfoManager.REQUIRED_FIELDS st')
  ∧ UserInfoManager.REQUIRED_FIELDS st `prefix_of` UserInfoManager.REQUIRED_FIELDS st'
  ∧ (∀ name, name ∈ UserInfoManager.REQUIRED_FIELDS st'
             ↔ name ∈ UserInfoManager.REQUIRED_FIELDS st ∨ name ∈ names)
  ∧ UserInfoManager.userInfo st' = UserInfoManager.userInfo st.
Proof. intros Hnodup. by apply addRequiredField_fields. Qed.

Lemma required_fields_grow_without_duplicates_witness :
  let st' :=
    foldl (λ st name, (UserInfoStore.addRequiredField st name).2) oneKnownUser
      [JS.str "age"; JS.str "city"; JS.str "age"] in
  NoDup (UserInfoManager.REQUIRED_FIELDS st')
  ∧ UserInfoManager.REQUIRED_FIELDS oneKnownUser
      `prefix_of` UserInfoManager.REQUIRED_FIELDS st'
  ∧ (∀ name, name ∈ UserInfoManager.REQUIRED_FIELDS st'
             ↔ name ∈ UserInfoManager.REQUIRED_FIELDS oneKnownUser
               ∨ name ∈ [JS.str "age"; JS.str "city"; JS.str "age"])
  ∧ UserInfoManager.userInfo st' = UserInfoManager.userInfo oneKnownUser.
Proof.
  apply (required_fields_grow_without_duplicates oneKnownUser).
  apply NoDup_cons. split; [|apply NoDup_singleton].
  intros Hin%list_elem_of_singleton. discriminate.
Defined.


(** ** User info file *)
Section UserInfoFile.
Import JSON UserInfoStore.

Lemma entries_of_map {A} (m : gmap jsstring A) (entries : list (jsstring * A)) :
  entries ≡ₚ map_to_list m → list_to_map (reverse entries) = m.
Proof.
  intros Hentries.
  rewrite <- (list_to_map_to_list m).
  apply list_to_map_proper.
  - rewrite reverse_Permutation, Hentries. apply NoDup_fst_map_to_list.
  - by rewrite reverse_Permutation.
Qed.

Variable order : keyOrder.
Hypothesis order_lists_every_key : listsEveryKey order.

Lemma recordOfJson_fields record :
  recordOfJson (JObject ((λ field, (field.1, JString field.2))
                         <$> enumerateFields order record))
  = Some record.
Proof.
  unfold recordOfJson.
  rewrite (mapM_fmap_Some _ _ (enumerateFields order record)); [|by intros []].
  simpl. f_equal. apply entries_of_map, order_lists_every_key.
Qed.

Lemma userInfoOfJson_userInfoObject userInfo :
  userInfoOfJson (userInfoObject order userInfo) = Some userInfo.
Proof.
  unfold userInfoOfJson, userInfoObject.
  rewrite (mapM_fmap_Some _ _ (enumerateUsers order userInfo)).
  - simpl. f_equal. apply entries_of_map, order_lists_every_key.
  - intros [userId record].
    change (pair userId <$> recordOfJson
              (JObject ((λ field, (field.1, JString field.2))
                        <$> enumerateFields order record))
            = Some (userId, record)).
    by rewrite recordOfJson_fields.
Qed.

Lemma userInfoObject_numberFree userInfo :
  numberFree (userInfoObject order userInfo) = true.
Proof.
  unfold userInfoObject. simpl. apply forallb_forall.
  intros kv (user & -> & _)%list_elem_of_In%list_elem_of_fmap.
  simpl. apply forallb_forall.
  by intros v (field & -> & _)%list_elem_of_In%list_elem_of_fmap.
Qed.

Lemma stringify_object_not_blank members :
  (length (JS.trim (stringify (JObject members))) =? 0) = false.
Proof.
  apply Nat.eqb_neq. intros Hlen%nil_length_inv%trim_nil.
  unfold stringify in Hlen. simpl in Hlen. unfold bracketed in Hlen.
  by destruct (map _ members).
Qed.

Lemma reloadUserInfo_saveUserInfo fs st st0 :
  userInfoWritable fs = true →
  reloadUserInfo (saveUserInfo order fs st).2 st0
  = Some (true, withUserInfo (UserInfoManager.userInfo st) st0).
Proof.
  intros Hwritable. unfold saveUserInfo, reloadUserInfo. rewrite Hwritable. simpl.
  rewrite throughUtf8_stringify by apply userInfoObject_numberFree.
  unfold userInfoObject at 1. rewrite stringify_object_not_blank.
  fold (userInfoObject order (UserInfoManager.userInfo st)).
  rewrite parse_stringify by apply userInfoObject_numberFree.
  by rewrite userInfoOfJson_userInfoObject.
Qed.

End UserInfoFile.

(** The user info file round-trips: after a [saveUserInfo] that succeeds,
    [reloadUserInfo] returns [true] and puts into memory exactly the user
    records that were saved, whatever was in memory before (the runtime
    listing every key of the objects, in whatever order). *)
Theorem saved_user_info_reloads
    (order : UserInfoStore.keyOrder) (fs : UserInfoStore.userInfoFs)
    (saved inMemory : UserInfoManager.state) :
  listsEveryKey order → UserInfoStore.userInfoWritable fs = true →
  (UserInfoStore.saveUserInfo order fs saved).1 = true
  ∧ UserInfoStore.reloadUserInfo (UserInfoStore.saveUserInfo order fs saved).2 inMemory
    = Some (true,
            UserInfoStore.withUserInfo (UserInfoManager.userInfo saved) inMemory).
Proof.
  intros Horder Hwritable. split.
  - unfold UserInfoStore.saveUserInfo. by rewrite Hwritable.
  - by apply reloadUserInfo_saveUserInfo.
Qed.

Lemma saved_user_info_reloads_witness :
  (UserInfoStore.saveUserInfo mapOrder
     {| UserInfoStore.userInfoFile := None; UserInfoStore.userInfoWritable := true |}
     oneKnownUser).1 = true
  ∧ UserInfoStore.reloadUserInfo
      (UserInfoStore.saveUserInfo mapOrder
         {| UserInfoStore.userInfoFile := None; UserInfoStore.userInfoWritable := true |}
         oneKnownUser).2 oneHalfKnownUser
    = Some (true,
            UserInfoStore.withUserInfo (UserInfoManager.userInfo oneKnownUser)
              oneHalfKnownUser).
Proof.
  apply saved_user_info_reloads; [|reflexivity].
  split; intros; reflexivity.
Defined.


(** ** Proactive scheduler: timers, targets and history *)
Section ProactiveTimers.
Import ProactiveMessaging ProactiveEvents.
Variable cfg : config.







Lemma chooseRandomTarget_elem random targetId :
  chooseRandomTarget cfg random = Some targetId → targetId ∈ PROACTIVE_TARGETS cfg.
Proof.
  unfold chooseRandomTarget. destruct (length _ =? 0); [done|].
  apply list_elem_of_lookup_2.
Qed.

End ProactiveTimers.


(** A run of [sendProactiveMessage] either sends nothing and leaves the
    history as it was, or sends one message to one of the configured
    targets and appends exactly that message, as an assistant turn with the
    time of sending, to the history of that target (where, unless history is
    switched off, it is the last turn). *)
Theorem proactive_send_records_what_it_sent
    (cfg : config) (env : ProactiveMessaging.fireEnv)
    (st : ProactiveMessaging.scheduler) (h : HistoryManager.store) :
  let result := ProactiveMessaging.sendProactiveMessage cfg env st h in
  (result.2 = [] ∧ result.1.2 = h)
  ∨ ∃ targetId text,
      let turn := {| role := JS.str "assistant"; content := text;
                     timestamp := Some (ProactiveMessaging.nowISO env) |} in
      result.2 = [(targetId, text)]
      ∧ targetId ∈ PROACTIVE_TARGETS cfg
      ∧ result.1.2 = HistoryManager.addMessageToHistory cfg h targetId turn
      ∧ (MAX_HISTORY_SIZE cfg ≠ 0%Z →
         last (HistoryManager.getChannelHistory result.1.2 targetId) = Some turn).
Proof.
  unfold ProactiveMessaging.sendProactiveMessage.
  destruct (negb _ || negb _); [by left|].
  destruct (ProactiveMessaging.chooseRandomTarget _ _) as [t|] eqn:Ht; [|by left].
  destruct (length t =? 0); [by left|].
  destruct (ProactiveMessaging.fetched env); [|by left..].
  destruct (negb _); [by left|].
  destruct (ProactiveMessaging.generateProactiveMessage cfg env) as [text|];
    [|by left].
  destruct (ProactiveMessaging.sendSucceeds env); [|by left].
  right. exists t, text. simpl. split_and!; [done| |done|].
  - by eapply chooseRandomTarget_elem.
  - intros Hnz. by apply last_history_after_add.
Qed.

Section RandomTarget.
Import ProactiveMessaging.

Lemma floor_of_scaled_draw (random : Q) (n : nat) :
  (0 <= random)%Q → (random < 1)%Q → 0 < n →
  Z.to_nat (Qfloor (random * inject_Z (Z.of_nat n))) < n.
Proof.
  intros H0 H1 Hn.
  set (K := inject_Z (Z.of_nat n)).
  assert (Hk : (0 < K)%Q).
  { unfold K. change 0%Q with (inject_Z 0). rewrite <- Zlt_Qlt. lia. }
  assert (Hp0 : (0 <= random * K)%Q).
  { apply Qmult_le_0_compat; [done|]. by apply Qlt_le_weak. }
  assert (Hp1 : (random * K < 1 * K)%Q) by (by apply Qmult_lt_r).
  assert (Hhi : (inject_Z (Qfloor (random * K)) < K)%Q).
  { eapply Qle_lt_trans; [apply Qfloor_le|]. lra. }
  unfold K in Hhi. rewrite <- Zlt_Qlt in Hhi.
  assert (Hlo : (0 ≤ Qfloor (random * K))%Z).
  { assert (inject_Z 0 < inject_Z (Qfloor (random * K) + 1))%Q as H
      by (eapply Qle_lt_trans; [exact Hp0|apply Qlt_floor]).
    rewrite <- Zlt_Qlt in H. lia. }
  subst K. lia.
Qed.

End RandomTarget.

(** With at least one configured target, [chooseRandomTarget] always
    returns one of the configured targets, whatever [Math.random()] draws
    from [0, 1): its index never falls outside the array. *)
Theorem random_target_is_a_configured_target (cfg : config) (random : Q) :
  (0 <= random)%Q → (random < 1)%Q → PROACTIVE_TARGETS cfg ≠ [] →
  ∃ targetId,
    ProactiveMessaging.chooseRandomTarget cfg random = Some targetId
    ∧ targetId ∈ PROACTIVE_TARGETS cfg.
Proof.
  intros H0 H1 Htargets. unfold ProactiveMessaging.chooseRandomTarget.
  destruct (PROACTIVE_TARGETS cfg) as [|t targets] eqn:Hlist; [done|].
  change (length (t :: targets) =? 0) with false. cbv iota.
  destruct (lookup_lt_is_Some_2 (t :: targets)
              (Z.to_nat (Qfloor (random * inject_Z (Z.of_nat (length (t :: targets)))))))
    as [targetId Hlookup].
  { apply floor_of_scaled_draw; [done|done|simpl; lia]. }
  exists targetId. split; [done|]. by eapply list_elem_of_lookup_2.
Qed.

Lemma random_target_is_a_configured_target_witness :
  ∃ targetId,
    ProactiveMessaging.chooseRandomTarget
      (ProactiveMessaging.enabledFor [JS.str "dm_42"; JS.str "900"] defaultConfig)
      (3 # 4) = Some targetId
    ∧ targetId ∈ PROACTIVE_TARGETS
        (ProactiveMessaging.enabledFor [JS.str "dm_42"; JS.str "900"] defaultConfig).
Proof.
  apply random_target_is_a_configured_target; [done|done|discriminate].
Defined.


(** ** The per-turn pipeline: cooldown, history and failures *)
Section Turn.
Import MessageCreateHandler.
Variables (cfg : config) (rt : runtime).

Lemma preChecks_ended env msg st st' fx :
  isCommand cfg (messageContent msg) = false →
  preChecks cfg rt env msg st = inl (st', fx) →
  history st' = history st ∧ userCooldowns st' = userCooldowns st
  ∧ Forall (λ e, e = ReloadUserInfo ∨ e = Reply (JS.str "no")) fx.
Proof.
  intros Hcommand. unfold preChecks. rewrite Hcommand.
  destruct (authorIsBot msg); [by intros [= <- <-]|].
  destruct (channelIsDM msg && negb (ALLOW_PRIVATE_MESSAGES cfg));
    [by intros [= <- <-]|].
  set (reload := channelIsDM msg && _ && _).
  set (st0 := if reload then _ else st).
  assert (Hst0 : history st0 = history st ∧ userCooldowns st0 = userCooldowns st).
  { subst st0. destruct reload; [|done]. by destruct (reloadedUserInfo env). }
  assert (Hfx : Forall (λ e, e = ReloadUserInfo ∨ e = Reply (JS.str "no"))
                  (if reload then [ReloadUserInfo] else [])).
  { destruct reload; repeat constructor. }
  repeat (match goal with
          | |- context [if ?b then inl _ else _] =>
              destruct b;
              [intros [= <- <-]; split_and!;
               first [apply Hst0 | done
                     | (apply Forall_app; split; [done|];
                        constructor; [by right|constructor])]|]
          end).
  done.
Qed.

Lemma preChecks_cooling env msg st :
  isCommand cfg (messageContent msg) = false →
  authorId msg ∈ userCooldowns st →
  ∃ ended, preChecks cfg rt env msg st = inl ended.
Proof.
  intros Hcommand Hcooling. unfold preChecks. rewrite Hcommand.
  destruct (authorIsBot msg); [by eexists|].
  destruct (channelIsDM msg && negb (ALLOW_PRIVATE_MESSAGES cfg)); [by eexists|].
  set (reload := channelIsDM msg && _ && _).
  set (st0 := if reload then _ else st).
  assert (Hst0 : userCooldowns st0 = userCooldowns st).
  { subst st0. destruct reload; [|done]. by destruct (reloadedUserInfo env). }
  rewrite (bool_decide_eq_true_2 (authorId msg ∈ userCooldowns st0))
    by (by rewrite Hst0).
  repeat (match goal with
          | |- context [if ?b then inl _ else _] => destruct b; [by eexists|]
          end).
  by eexists.
Qed.

Lemma preChecks_passed_state env msg st st0 fx processed :
  preChecks cfg rt env msg st = inr (st0, fx, processed) →
  userCooldowns st0 = userCooldowns st.
Proof.
  unfold preChecks.
  destruct (authorIsBot msg); [done|].
  destruct (channelIsDM msg && negb (ALLOW_PRIVATE_MESSAGES cfg)); [done|].
  set (reload := channelIsDM msg && _ && _).
  set (st1 := if reload then _ else st).
  assert (Hst1 : userCooldowns st1 = userCooldowns st).
  { subst st1. destruct reload; [|done]. by destruct (reloadedUserInfo env). }
  destruct (isCommand cfg (messageContent msg)).
  { by destruct (commandRun env st1). }
  repeat (match goal with
          | |- context [if ?b then inl _ else _] => destruct b; [done|]
          end).
  by intros [= <- _ _].
Qed.

Lemma aiInteraction_result env msg content st fx st' fx' :
  aiInteraction cfg rt env msg content st fx = Some (st', fx') →
  userCooldowns st' = userCooldowns st ∧ users st' = users st
  ∧ (history st' = history st
     ∨ (SaveHistory ∈ fx' ∧ Exists (λ e, isChat e = true) fx')).
Proof.
  unfold aiInteraction.
  destruct (channelIsDM msg && negb _); [by intros [= <- <-]; auto|].
  set (called := Chat _ _).
  assert (Hcalled : ∀ before after, Exists (λ e, isChat e = true)
                                      ((before ++ [called]) ++ after)).
  { intros before after. apply Exists_app. left. apply Exists_app. right.
    by constructor. }
  destruct (chatResult env) as [[aiResponse|]|errorMessage];
    [|by intros [= <- <-]; auto..].
  destruct (length aiResponse =? 0); [by intros [= <- <-]; auto|].
  destruct (length (JS.trim _) =? 0).
  - intros [= <- <-]. split; [done|]. split; [done|].
    right. split; [|apply Hcalled].
    rewrite elem_of_app. right. by repeat constructor.
  - destruct (deliver cfg _) as [sent|]; [|done]. simpl.
    intros [= <- <-]. split; [done|]. split; [done|].
    right. split; [|apply Hcalled].
    rewrite elem_of_app. right. by constructor.
Qed.

Lemma execute_result env msg st st' fx :
  isCommand cfg (messageContent msg) = false →
  execute cfg rt env msg st = Some (st', fx) →
  (history st' = history st
   ∨ (SaveHistory ∈ fx ∧ Exists (λ e, isChat e = true) fx))
  ∧ (passesChecks cfg rt env msg st = true →
     userCooldowns st' = userCooldowns st ∪ {[ authorId msg ]}).
Proof.
  intros Hcommand. unfold execute, passesChecks.
  destruct (preChecks cfg rt env msg st) as [[st1 fx1]|[[st0 fx0] processed]] eqn:Hpre.
  - intros [= <- <-]. split; [|done]. left.
    by destruct (preChecks_ended _ _ _ _ _ Hcommand Hpre) as [? _].
  - pose proof (preChecks_passed_state _ _ _ _ _ _ Hpre) as Hcool.
    apply preChecks_passed_effects in Hpre as [Hhist _].
    destruct (imageProcessing env msg) as [fxImages imageDescriptions].
    destruct (length _ =? 0).
    + destruct (_ && _); intros [= <- <-]; simpl; rewrite Hcool; auto.
    + intros Hai.
      destruct (aiInteraction_result _ _ _ _ _ _ _ Hai) as (Hc & _ & Hh).
      simpl in Hc, Hh. rewrite Hhist in Hh. rewrite Hc, Hcool. auto.
Qed.

End Turn.

(** A user in the cooldown window is ignored: after a turn that passed the
    checks (so that its author is cooling down), a further message of the
    same author that is not a command makes no call to the AI service,
    changes neither the history nor the cooldowns, and sends nothing except
    the refusal ["no"] of a direct chat that is not on the list. *)
Theorem message_during_cooldown_is_ignored
    (cfg : config) (rt : runtime) (env1 env2 : MessageCreateHandler.turnEnv)
    (msg1 msg2 : MessageCreateHandler.discordMessage)
    (st st1 : MessageCreateHandler.handlerState) (fx1 : list MessageCreateHandler.effect) :
  MessageCreateHandler.isCommand cfg (MessageCreateHandler.messageContent msg1) = false →
  passesChecks cfg rt env1 msg1 st = true →
  MessageCreateHandler.execute cfg rt env1 msg1 st = Some (st1, fx1) →
  MessageCreateHandler.authorId msg2 = MessageCreateHandler.authorId msg1 →
  MessageCreateHandler.isCommand cfg (MessageCreateHandler.messageContent msg2) = false →
  ∃ st2 fx2,
    MessageCreateHandler.execute cfg rt env2 msg2 st1 = Some (st2, fx2)
    ∧ MessageCreateHandler.history st2 = MessageCreateHandler.history st1
    ∧ MessageCreateHandler.userCooldowns st2 = MessageCreateHandler.userCooldowns st1
    ∧ Forall (λ e, e = MessageCreateHandler.ReloadUserInfo
                   ∨ e = MessageCreateHandler.Reply (JS.str "no")) fx2.
Proof.
  intros Hcommand1 Hpasses Hfirst Hauthor Hcommand2.
  destruct (execute_result cfg rt env1 msg1 st st1 fx1 Hcommand1 Hfirst) as [_ Hcool].
  specialize (Hcool Hpasses).
  assert (Hcooling : MessageCreateHandler.authorId msg2
                     ∈ MessageCreateHandler.userCooldowns st1).
  { rewrite Hcool, Hauthor. apply elem_of_union. right. by apply elem_of_singleton. }
  destruct (preChecks_cooling cfg rt env2 msg2 st1 Hcommand2 Hcooling)
    as ([st2 fx2] & Hended).
  exists st2, fx2. unfold MessageCreateHandler.execute. rewrite Hended.
  split; [done|]. by apply (preChecks_ended cfg rt env2 msg2 st1).
Qed.

Lemma message_during_cooldown_is_ignored_witness :
  ∃ st2 fx2,
    MessageCreateHandler.execute defaultConfig asciiRuntime
      (plainTurn (MessageCreateHandler.ChatReturns (Some (JS.str "again"))))
      (channelMessage (JS.str "900") (JS.str "42") (JS.str "and more"))
      (MessageCreateHandler.takeCooldown
         (channelMessage (JS.str "900") (JS.str "42") (JS.str "hello")) (freshState ∅))
    = Some (st2, fx2)
    ∧ MessageCreateHandler.history st2
      = MessageCreateHandler.history
          (MessageCreateHandler.takeCooldown
             (channelMessage (JS.str "900") (JS.str "42") (JS.str "hello")) (freshState ∅))
    ∧ MessageCreateHandler.userCooldowns st2
      = MessageCreateHandler.userCooldowns
          (MessageCreateHandler.takeCooldown
             (channelMessage (JS.str "900") (JS.str "42") (JS.str "hello")) (freshState ∅))
    ∧ Forall (λ e, e = MessageCreateHandler.ReloadUserInfo
                   ∨ e = MessageCreateHandler.Reply (JS.str "no")) fx2.
Proof.
  apply (message_during_cooldown_is_ignored defaultConfig asciiRuntime
           (plainTurn (MessageCreateHandler.ChatReturns None))
           (plainTurn (MessageCreateHandler.ChatReturns (Some (JS.str "again"))))
           (channelMessage (JS.str "900") (JS.str "42") (JS.str "hello"))
           (channelMessage (JS.str "900") (JS.str "42") (JS.str "and more"))
           (freshState ∅) _
           [MessageCreateHandler.CooldownTimer (JS.str "42") 2000;
            MessageCreateHandler.SendTyping;
            MessageCreateHandler.Chat
              [userTurn (JS.str "[Time: 12:00 UTC] hello")] (JS.str "900");
            MessageCreateHandler.Send MessageCreateHandler.noResponseNotice]);
    reflexivity.
Defined.




(** When the AI service fails (the call throws, or returns [null] or an
    empty completion), a turn that had reached it ends with the call
    followed by exactly one message to the user, and the stored history is
    not touched: neither the user turn nor a marker is added. *)
Theorem provider_failure_leaves_history_alone
    (cfg : config) (rt : runtime) (env : MessageCreateHandler.turnEnv)
    (msg : MessageCreateHandler.discordMessage)
    (st : MessageCreateHandler.handlerState) :
  MessageCreateHandler.reachesAiInteraction cfg rt env msg st = true →
  (MessageCreateHandler.channelIsDM msg = true →
   UserInfoManager.isUserInfoComplete rt
     (MessageCreateHandler.users
        (MessageCreateHandler.stateAtAiInteraction cfg rt env msg st))
     (MessageCreateHandler.authorId msg) = true) →
  (∀ aiResponse,
     MessageCreateHandler.chatResult env
       = MessageCreateHandler.ChatReturns (Some aiResponse) → aiResponse = []) →
  ∃ st' fx messages notice,
    MessageCreateHandler.execute cfg rt env msg st
      = Some (st', fx ++ [MessageCreateHandler.Chat messages
                            (MessageCreateHandler.conversationId msg);
                          MessageCreateHandler.Send notice])
    ∧ Forall (λ e, MessageCreateHandler.isChat e = false) fx
    ∧ MessageCreateHandler.history st' = MessageCreateHandler.history st.
Proof.
  intros Hreach Hdm Hfail.
  rewrite execute_reaches_aiInteraction by done.
  unfold MessageCreateHandler.aiInteraction.
  assert (Hgate :
    MessageCreateHandler.channelIsDM msg
    && negb (UserInfoManager.isUserInfoComplete rt
               (MessageCreateHandler.users
                  (MessageCreateHandler.stateAtAiInteraction cfg rt env msg st))
               (MessageCreateHandler.authorId msg)) = false).
  { destruct (MessageCreateHandler.channelIsDM msg); [|done]. by rewrite Hdm. }
  rewrite Hgate.
  assert (Hbefore : Forall (λ e, MessageCreateHandler.isChat e = false)
            (MessageCreateHandler.effectsBeforeAi cfg rt env msg st
             ++ (if MessageCreateHandler.channelTyping msg then []
                 else [MessageCreateHandler.SendTyping]))).
  { apply Forall_app. split; [apply effectsBeforeAi_no_chat|].
    destruct (MessageCreateHandler.channelTyping msg); repeat constructor. }
  destruct (MessageCreateHandler.chatResult env) as [[aiResponse|]|errorMessage].
  - rewrite (Hfail aiResponse eq_refl). simpl.
    eexists _, _, _, _. rewrite <- app_assoc. split; [reflexivity|].
    split; [done|apply stateAtAiInteraction_history].
  - eexists _, _, _, _. rewrite <- app_assoc. split; [reflexivity|].
    split; [done|apply stateAtAiInteraction_history].
  - eexists _, _, _, _. rewrite <- app_assoc. split; [reflexivity|].
    split; [done|apply stateAtAiInteraction_history].
Qed.

Lemma provider_failure_leaves_history_alone_witness :
  ∃ st' fx messages notice,
    MessageCreateHandler.execute defaultConfig asciiRuntime
      (plainTurn (MessageCreateHandler.ChatThrows (JS.str "connect ECONNREFUSED")))
      (channelMessage (JS.str "900") (JS.str "42") (JS.str "hello")) (freshState ∅)
      = Some (st', fx ++ [MessageCreateHandler.Chat messages
                            (MessageCreateHandler.conversationId
                               (channelMessage (JS.str "900") (JS.str "42")
                                  (JS.str "hello")));
                          MessageCreateHandler.Send notice])
    ∧ Forall (λ e, MessageCreateHandler.isChat e = false) fx
    ∧ MessageCreateHandler.history st'
      = MessageCreateHandler.history (freshState ∅).
Proof.
  apply provider_failure_leaves_history_alone.
  - reflexivity.
  - discriminate.
  - discriminate.
Defined.

(** ** The request to the AI service *)

(** The messages handed to [chat] are the system prompt (for Ollama, when
    one is set), a window of the stored history and the current user
    message, in this order; the window holds the most recent
    [MAX_HISTORY_SIZE - 1] stored turns when the size is positive, all of
    them when it is -1, and none otherwise. *)
Theorem chat_request_holds_a_bounded_window
    (cfg : config) (currentChannelHistory : list message) (userMessage : jsstring) :
  ∃ prompt window,
    MessageCreateHandler.messagesForChat cfg currentChannelHistory userMessage
      = prompt ++ window ++ [userTurn userMessage]
    ∧ length prompt ≤ 1
    ∧ Forall (λ m, role m = JS.str "system" ∧ content m = OLLAMA_SYSTEM_PROMPT cfg)
        prompt
    ∧ window
      = (if (MAX_HISTORY_SIZE cfg =? -1)%Z then currentChannelHistory
         else if (0 <? MAX_HISTORY_SIZE cfg)%Z
         then HistoryManager.mostRecent (Z.to_nat (MAX_HISTORY_SIZE cfg - 1))
                currentChannelHistory
         else [])
    ∧ ((0 < MAX_HISTORY_SIZE cfg)%Z →
       length (window ++ [userTurn userMessage]) ≤ Z.to_nat (MAX_HISTORY_SIZE cfg)).
Proof.
  unfold MessageCreateHandler.messagesForChat.
  eexists _, _. split; [reflexivity|].
  split; [destruct (_ && _); simpl; lia|].
  split; [destruct (_ && _); repeat constructor|].
  assert (Hwindow :
    (if (MAX_HISTORY_SIZE cfg =? -1)%Z then currentChannelHistory
     else if (0 <? MAX_HISTORY_SIZE cfg)%Z
          then JS.slice currentChannelHistory
                 (Z.max 0 (Z.of_nat (length currentChannelHistory)
                           - (MAX_HISTORY_SIZE cfg - 1)))
          else [])
    = (if (MAX_HISTORY_SIZE cfg =? -1)%Z then currentChannelHistory
       else if (0 <? MAX_HISTORY_SIZE cfg)%Z
            then HistoryManager.mostRecent (Z.to_nat (MAX_HISTORY_SIZE cfg - 1))
                   currentChannelHistory
            else [])).
  { destruct (MAX_HISTORY_SIZE cfg =? -1)%Z; [done|].
    destruct (Z.ltb_spec 0 (MAX_HISTORY_SIZE cfg)); [|done].
    unfold JS.slice, HistoryManager.mostRecent.
    destruct (Z.ltb_spec (Z.max 0 (Z.of_nat (length currentChannelHistory)
                                   - (MAX_HISTORY_SIZE cfg - 1))) 0); [lia|].
    f_equal. lia. }
  split; [exact Hwindow|].
  intros Hpos. rewrite Hwindow, length_app. simpl.
  destruct (Z.eqb_spec (MAX_HISTORY_SIZE cfg) (-1)); [lia|].
  destruct (Z.ltb_spec 0 (MAX_HISTORY_SIZE cfg)); [|lia].
  pose proof (mostRecent_length (Z.to_nat (MAX_HISTORY_SIZE cfg - 1))
                currentChannelHistory).
  lia.
Qed.


(** ** Delivery of a completion *)
Section Delivery.
Import MessageCreateHandler.
Variable cfg : config.

(** A part is a trimmed text: empty, or with a visible character. *)
Lemma trimmed_empty_or_visible s : JS.trim s = [] ∨ blank (JS.trim s) = false.
Proof.
  destruct (blank s) eqn:Hb.
  - left. by apply trim_nil.
  - right. by rewrite trim_blank.
Qed.

Lemma collectParts_trimmed rawParts :
  Forall (λ part, part = [] ∨ blank part = false) (collectParts rawParts).
Proof.
  remember (length rawParts) as n eqn:Hn.
  revert rawParts Hn. induction (lt_wf n) as [n _ IH]. intros rawParts ->.
  destruct rawParts as [|currentPart [|punctuation rest]]; [constructor| |].
  - simpl. destruct (0 <? _); [|constructor].
    constructor; [apply trimmed_empty_or_visible|constructor].
  - change (collectParts (currentPart :: punctuation :: rest))
      with ((if (0 <? length (JS.trim currentPart)) || (0 <? length punctuation)
             then [JS.trim (currentPart ++ punctuation)] else [])
            ++ collectParts rest).
    apply Forall_app. split.
    + destruct (_ || _); [|constructor].
      constructor; [apply trimmed_empty_or_visible|constructor].
    + eapply IH; [|reflexivity]. simpl. lia.
Qed.

Lemma messagePartsOf_trimmed aiResponseContent :
  Forall (λ part, part = [] ∨ blank part = false)
    (messagePartsOf cfg aiResponseContent).
Proof.
  unfold messagePartsOf. destruct (_ && _); [|apply collectParts_trimmed].
  apply Forall_forall. intros part Hpart%list_elem_of_In%filter_In.
  destruct Hpart as [Hin _]. apply list_elem_of_In, list_elem_of_fmap in Hin as (x & -> & _).
  apply trimmed_empty_or_visible.
Qed.

Lemma deliverPart_deliverable isLast part sent :
  0 < MESSAGE_CHUNK_SIZE cfg → part = [] ∨ blank part = false →
  deliverPart cfg isLast part = Some sent → Forall (deliverable cfg) sent.
Proof.
  intros Hpos Hpart. unfold deliverPart.
  destruct (length part =? 0) eqn:Hlen; [intros [= <-]; constructor|].
  destruct Hpart as [->|Hvisible]; [done|].
  destruct (splitMessage_spec part (MESSAGE_CHUNK_SIZE cfg) Hpos)
    as (chunks & -> & _ & _ & Hfits).
  rewrite Hvisible in Hfits. simpl. intros [= <-].
  apply Forall_app. split.
  - apply Forall_fmap. eapply Forall_impl; [exact Hfits|].
    intros chunk Hchunk. simpl. unfold fits in Hchunk.
    destruct (negb (ALLOW_EMOJIS cfg)); [|done].
    destruct (filterEmojis_facts (length chunk) chunk) as [Hl _]; [done|]. lia.
  - destruct (Z.ltb_spec 0 (MESSAGE_SPLIT_DELAY_MS cfg));
      destruct isLast; simpl; repeat constructor; done.
Qed.

Lemma deliverParts_deliverable parts : ∀ sent,
  0 < MESSAGE_CHUNK_SIZE cfg →
  Forall (λ part, part = [] ∨ blank part = false) parts →
  deliverParts cfg parts = Some sent → Forall (deliverable cfg) sent.
Proof.
  induction parts as [|part rest IH]; intros sent Hpos Hparts; simpl.
  - intros [= <-]. constructor.
  - apply Forall_cons in Hparts as [Hpart Hrest].
    destruct (deliverPart cfg _ part) as [these|] eqn:Hthese; [|done]. simpl.
    destruct (deliverParts cfg rest) as [more|] eqn:Hmore; [|done]. simpl.
    intros [= <-]. apply Forall_app. split.
    + by eapply deliverPart_deliverable.
    + by apply IH.
Qed.

End Delivery.

(** Every completion is delivered in bounded pieces: for a positive chunk
    size, [deliver] returns, and everything it hands over is a message of at
    most [MESSAGE_CHUNK_SIZE] code units or the pause between two parts,
    except for the fixed notice sent when no part is left to deliver. *)
Theorem delivered_messages_fit_the_chunk_size
    (cfg : config) (aiResponseContent : jsstring) :
  0 < MESSAGE_CHUNK_SIZE cfg →
  ∃ sent,
    MessageCreateHandler.deliver cfg aiResponseContent = Some sent
    ∧ Forall (λ e, deliverable cfg e
                   ∨ e = MessageCreateHandler.Send noSubstantialResponse) sent.
Proof.
  intros Hpos.
  destruct (deliver_total cfg aiResponseContent Hpos) as (sent & Hsent).
  exists sent. split; [done|].
  unfold MessageCreateHandler.deliver in Hsent.
  destruct (MessageCreateHandler.deliverParts cfg _) as [parts|] eqn:Hparts; [|done].
  simpl in Hsent. injection Hsent as <-.
  apply Forall_app. split.
  - eapply Forall_impl.
    + eapply deliverParts_deliverable; [done| |exact Hparts].
      apply messagePartsOf_trimmed.
    + intros e He. by left.
  - destruct (_ || _); [|constructor].
    constructor; [by right|constructor].
Qed.

Lemma delivered_messages_fit_the_chunk_size_witness :
  ∃ sent,
    MessageCreateHandler.deliver defaultConfig (JS.str "Hi[NEXT_MSG]Bye") = Some sent
    ∧ Forall (λ e, deliverable defaultConfig e
                   ∨ e = MessageCreateHandler.Send noSubstantialResponse) sent.
Proof.
  apply delivered_messages_fit_the_chunk_size. vm_compute. lia.
Defined.


Section TokenSplit.
Import MessageCreateHandler.
Variable token : jsstring.

Lemma includes_cons_false c s : JS.includes (c :: s) token = false →
  JS.startsWith (c :: s) token = false ∧ JS.includes s token = false.
Proof. simpl. by intros [? ?]%orb_false_iff. Qed.

Lemma matchToken_startsWith s rest :
  matchToken token s = Some rest → JS.startsWith s token = true.
Proof. unfold matchToken. by destruct (JS.startsWith s token). Qed.

Lemma matchSpaces_includes s : ∀ rest,
  matchSpaces token s = Some rest → JS.includes s token = true.
Proof.
  induction s as [|c s IH]; intros rest; simpl.
  - intros H%matchToken_startsWith. by rewrite H.
  - destruct (JS.isWhiteSpace c).
    + destruct (matchSpaces token s) as [rest'|] eqn:Hs.
      * intros _. rewrite (IH rest' eq_refl). apply orb_true_r.
      * intros H%matchToken_startsWith. simpl in H. by rewrite H.
    + intros H%matchToken_startsWith. simpl in H. by rewrite H.
Qed.

Lemma matchTokenRegex_includes s : ∀ found,
  matchTokenRegex token s = Some found → JS.includes s token = true.
Proof.
  induction s as [|c s IH]; intros found.
  - simpl. destruct (matchToken token []) as [rest|] eqn:Hm; [|done].
    apply matchToken_startsWith in Hm. simpl in Hm. by rewrite Hm.
  - change (matchTokenRegex token (c :: s))
      with (if isPunctuation c then
              match matchTokenRegex token s with
              | Some (punctuation, rest) => Some (c :: punctuation, rest)
              | None => pair ([] : jsstring) <$> matchSpaces token (c :: s)
              end
            else pair ([] : jsstring) <$> matchSpaces token (c :: s)).
    assert (Hspaces : ∀ found', pair ([] : jsstring) <$> matchSpaces token (c :: s) = Some found' →
              JS.includes (c :: s) token = true).
    { intros found'. destruct (matchSpaces token (c :: s)) as [rest|] eqn:Hs; [|done].
      intros _. by eapply matchSpaces_includes. }
    destruct (isPunctuation c); [|apply Hspaces].
    destruct (matchTokenRegex token s) as [[punctuation rest]|] eqn:Hs; [|apply Hspaces].
    intros _. cbn [JS.includes]. rewrite (IH _ eq_refl). apply orb_true_r.
Qed.

Lemma regexSplitFrom_no_token fuel : ∀ acc s,
  JS.includes s token = false → regexSplitFrom fuel token acc s = [acc ++ s].
Proof.
  induction fuel as [|fuel IH]; intros acc s Hno.
  - destruct s; simpl; [by rewrite app_nil_r|done].
  - destruct s as [|c s]; [simpl; by rewrite app_nil_r|].
    destruct (includes_cons_false _ _ Hno) as [_ Hrest].
    cbn [regexSplitFrom].
    destruct (matchTokenRegex token (c :: s)) as [[punctuation rest]|] eqn:Hm.
    { apply matchTokenRegex_includes in Hm. congruence. }
    rewrite IH by done. by rewrite <- app_assoc.
Qed.

End TokenSplit.

Section DotRemoval.
Import MessageCreateHandler.

Lemma removeSingleDots_unfold previous c r :
  removeSingleDots previous (c :: r) =
    if ((c =? 46)%N
        && negb (bool_decide (previous = Some 46%N))
        && negb (bool_decide (head r = Some 46%N)))
    then removeSingleDots (Some c) r
    else c :: removeSingleDots (Some c) r.
Proof. reflexivity. Qed.

(** After a kept period, what is left starts with a period again when the
    rest of the text does. *)
Lemma removeSingleDots_head_period r :
  head r = Some 46%N → head (removeSingleDots (Some 46%N) r) = Some 46%N.
Proof.
  destruct r as [|d r]; [done|]. simpl head. intros [= ->].
  rewrite removeSingleDots_unfold.
  rewrite (bool_decide_eq_true_2 (Some 46%N = Some 46%N)) by done.
  by rewrite andb_false_r.
Qed.

Lemma removeSingleDots_idempotent_from n : ∀ s p q,
  length s ≤ n → (p = Some 46%N ↔ q = Some 46%N) →
  removeSingleDots q (removeSingleDots p s) = removeSingleDots p s.
Proof.
  induction n as [|n IH]; intros s p q Hn Hpq.
  - by destruct s; [|simpl in Hn; lia].
  - destruct s as [|c r]; [done|]. simpl in Hn.
    rewrite (removeSingleDots_unfold p).
    destruct (N.eqb_spec c 46) as [->|Hc].
    + destruct (decide (p = Some 46%N)) as [Hp|Hp].
      * rewrite (bool_decide_eq_true_2 _ Hp). cbn [andb negb].
        rewrite removeSingleDots_unfold.
        rewrite (bool_decide_eq_true_2 (q = Some 46%N)) by (by apply Hpq).
        rewrite N.eqb_refl. cbn [andb negb].
        f_equal. apply IH; [lia|done].
      * rewrite (bool_decide_eq_false_2 _ Hp). cbn [andb negb].
        destruct (decide (head r = Some 46%N)) as [Hr|Hr].
        -- rewrite (bool_decide_eq_true_2 _ Hr). cbn [andb negb].
           rewrite removeSingleDots_unfold.
           rewrite (bool_decide_eq_true_2 (head _ = Some 46%N))
             by (by apply removeSingleDots_head_period).
           rewrite andb_false_r. f_equal. apply IH; [lia|done].
        -- rewrite (bool_decide_eq_false_2 _ Hr). cbn [andb negb].
           destruct r as [|d r']; [done|].
           assert (d ≠ 46%N) as Hd by (intros ->; by apply Hr).
           rewrite (removeSingleDots_unfold (Some 46%N)).
           apply N.eqb_neq in Hd as Hd'. rewrite Hd'. cbn [andb].
           rewrite removeSingleDots_unfold, Hd'. cbn [andb].
           f_equal. apply IH; [simpl in Hn; lia|done].
    + apply N.eqb_neq in Hc as Hc'. cbn [andb].
      rewrite removeSingleDots_unfold, Hc'. cbn [andb].
      f_equal. apply IH; [lia|].
      split; intros [= ?]; done.
Qed.

End DotRemoval.

(** A completion that does not contain the split token (and has a visible
    character) is delivered as one part, its trimmed text: what is sent are
    the chunks of that text, in order, with no pause and no notice. *)
Theorem completion_without_token_is_one_part
    (cfg : config) (aiResponseContent : jsstring) (chunks : list jsstring) :
  JS.includes aiResponseContent (MESSAGE_SPLIT_TOKEN cfg) = false →
  blank aiResponseContent = false →
  MessageUtils.splitMessage (JS.trim aiResponseContent) (MESSAGE_CHUNK_SIZE cfg)
    = Some chunks →
  MessageCreateHandler.messagePartsOf cfg aiResponseContent
    = [JS.trim aiResponseContent]
  ∧ MessageCreateHandler.deliver cfg aiResponseContent
    = Some ((λ chunk,
               MessageCreateHandler.Send
                 (if negb (ALLOW_EMOJIS cfg) then MessageUtils.filterEmojis chunk
                  else chunk)) <$> chunks).
Proof.
  intros Hno Hvisible Hchunks.
  assert (Hparts : MessageCreateHandler.messagePartsOf cfg aiResponseContent
                   = [JS.trim aiResponseContent]).
  { unfold MessageCreateHandler.messagePartsOf, MessageCreateHandler.regexSplit.
    destruct aiResponseContent as [|c s] eqn:Hs; [done|]. rewrite <- Hs in *.
    rewrite regexSplitFrom_no_token by done. simpl app.
    cbn [MessageCreateHandler.collectParts].
    rewrite trim_length_pos, Hvisible. simpl. done. }
  split; [done|].
  unfold MessageCreateHandler.deliver. rewrite Hparts.
  cbn [MessageCreateHandler.deliverParts]. unfold MessageCreateHandler.deliverPart.
  assert (Hlen : (length (JS.trim aiResponseContent) =? 0) = false).
  { pose proof (trim_length_pos aiResponseContent) as H. rewrite Hvisible in H.
    simpl in H. destruct (length (JS.trim aiResponseContent)); [done|done]. }
  rewrite Hlen, Hchunks. simpl.
  rewrite (proj2 (Nat.eqb_neq _ _)).
  2:{ pose proof (trim_length_pos (JS.trim aiResponseContent)) as H.
      rewrite trim_blank, Hvisible in H. simpl in H.
      destruct (length (JS.trim (JS.trim aiResponseContent))); [done|lia]. }
  simpl. by rewrite !app_nil_r.
Qed.

Lemma completion_without_token_is_one_part_witness :
  MessageCreateHandler.messagePartsOf defaultConfig (JS.str " Hello there ")
    = [JS.trim (JS.str " Hello there ")]
  ∧ MessageCreateHandler.deliver defaultConfig (JS.str " Hello there ")
    = Some ((λ chunk,
               MessageCreateHandler.Send
                 (if negb (ALLOW_EMOJIS defaultConfig)
                  then MessageUtils.filterEmojis chunk else chunk))
            <$> [JS.str "Hello there"]).
Proof.
  apply completion_without_token_is_one_part; reflexivity.
Defined.

(** Removing the single dots leaves no single dot behind: applied to its own
    result, [removeSingleDots] changes nothing, so the text stored and
    delivered with [ALLOW_SINGLE_DOT] off has no period without a period
    next to it. *)
Theorem single_dot_removal_is_idempotent (s : jsstring) :
  MessageCreateHandler.removeSingleDots None
    (MessageCreateHandler.removeSingleDots None s)
  = MessageCreateHandler.removeSingleDots None s.
Proof. by apply (removeSingleDots_idempotent_from (length s)). Qed.


(** ** The [addhistory] command *)
Section AddHistory.
Import AddHistoryCommand.

Lemma newUniqueMessages_fresh existingHistory recent :
  Forall (λ m, content m ∉ content <$> existingHistory)
    (newUniqueMessages existingHistory recent).
Proof.
  apply Forall_forall. intros m [_ Hm]%list_elem_of_In%filter_In.
  apply negb_true_iff in Hm.
  intros (e & He & Hin)%list_elem_of_fmap.
  assert (existsb (λ existingMessage,
            bool_decide (content existingMessage = content m)) existingHistory = true)
    as Hex; [|congruence].
  apply existsb_exists. exists e. split; [by apply list_elem_of_In|].
  by apply bool_decide_eq_true.
Qed.

Lemma newUniqueMessages_users cfg messageId clientUserId fetched existingHistory :
  Forall (λ m, role m = JS.str "user")
    (newUniqueMessages existingHistory
       (recentUserMessages cfg messageId clientUserId fetched)).
Proof.
  apply Forall_forall. intros m [Hm _]%list_elem_of_In%filter_In.
  by apply list_elem_of_In, list_elem_of_fmap in Hm as (x & -> & _).
Qed.

Lemma not_saved (fx : list MessageCreateHandler.effect) :
  existsb isSave fx = false → MessageCreateHandler.SaveHistory ∉ fx.
Proof.
  intros Hfx Hin. assert (existsb isSave fx = true) as H; [|congruence].
  apply existsb_exists. exists MessageCreateHandler.SaveHistory.
  split; [by apply list_elem_of_In|done].
Qed.

End AddHistory.

(** The [addhistory] command touches only the history of its channel; it
    either changes nothing and saves nothing, or puts in front of the stored
    turns at least one fetched user turn whose content no stored turn has,
    saves at once, and, with a positive [MAX_HISTORY_SIZE], keeps the first
    [MAX_HISTORY_SIZE] turns of the result, so that turns are cut from the
    end of what was stored. *)
Theorem addhistory_prepends_new_turns_and_cuts_the_end
    (cfg : config)
    (enumerate : HistoryManager.store → list (jsstring * list message))
    (fetchMessages : Z → option (list AddHistoryCommand.fetchedMessage))
    (clientUserId messageId channelId : jsstring) (args : list jsstring)
    (h : HistoryManager.store) (fs : HistoryPersistence.fileSystem) :
  let result :=
    AddHistoryCommand.execute cfg enumerate fetchMessages clientUserId messageId
      channelId args h fs in
  let h' := result.1.1 in
  let existing := HistoryManager.getChannelHistory h channelId in
  (∀ other, other ≠ channelId →
     HistoryManager.getChannelHistory h' other = HistoryManager.getChannelHistory h other)
  ∧ (MAX_HISTORY_SIZE cfg = 0%Z → h' = h)
  ∧ ((h' = h ∧ result.1.2 = fs ∧ MessageCreateHandler.SaveHistory ∉ result.2)
     ∨ ∃ added,
         added ≠ []
         ∧ Forall (λ m, role m = JS.str "user"
                        ∧ content m ∉ content <$> existing) added
         ∧ HistoryManager.getChannelHistory h' channelId
           = (if (0 <? MAX_HISTORY_SIZE cfg)%Z
              then take (Z.to_nat (MAX_HISTORY_SIZE cfg)) (added ++ existing)
              else added ++ existing)
         ∧ length (HistoryManager.getChannelHistory h' channelId)
           = (if (0 <? MAX_HISTORY_SIZE cfg)%Z
              then Z.to_nat (MAX_HISTORY_SIZE cfg) `min` (length added + length existing)
              else length added + length existing)
         ∧ result.1.2 = HistoryPersistence.saveHistory enumerate fs h'
         ∧ MessageCreateHandler.SaveHistory ∈ result.2).
Proof.
  intros result h' existing. subst result h'.
  unfold AddHistoryCommand.execute.
  destruct (Z.eqb_spec (MAX_HISTORY_SIZE cfg) 0) as [Hzero|Hnonzero].
  { simpl. split; [done|]. split; [done|]. left. split; [done|]. split; [done|].
    by apply not_saved. }
  set (warning := if (_ && _) then _ else if (_ && _) then _ else _).
  assert (Hwarning : existsb isSave warning = false).
  { subst warning. destruct (_ && _); [done|]. by destruct (_ && _). }
  assert (Hunchanged : ∀ fx,
    existsb isSave fx = false →
    (∀ other, other ≠ channelId →
       HistoryManager.getChannelHistory (h, fs, warning ++ fx).1.1 other
       = HistoryManager.getChannelHistory h other)
    ∧ (MAX_HISTORY_SIZE cfg = 0%Z → (h, fs, warning ++ fx).1.1 = h)
    ∧ (((h, fs, warning ++ fx).1.1 = h ∧ (h, fs, warning ++ fx).1.2 = fs
        ∧ MessageCreateHandler.SaveHistory ∉ (h, fs, warning ++ fx).2)
       ∨ ∃ added,
           added ≠ []
           ∧ Forall (λ m, role m = JS.str "user" ∧ content m ∉ content <$> existing) added
           ∧ HistoryManager.getChannelHistory (h, fs, warning ++ fx).1.1 channelId
             = (if (0 <? MAX_HISTORY_SIZE cfg)%Z
                then take (Z.to_nat (MAX_HISTORY_SIZE cfg)) (added ++ existing)
                else added ++ existing)
           ∧ length (HistoryManager.getChannelHistory (h, fs, warning ++ fx).1.1 channelId)
             = (if (0 <? MAX_HISTORY_SIZE cfg)%Z
                then Z.to_nat (MAX_HISTORY_SIZE cfg) `min` (length added + length existing)
                else length added + length existing)
           ∧ (h, fs, warning ++ fx).1.2
             = HistoryPersistence.saveHistory enumerate fs (h, fs, warning ++ fx).1.1
           ∧ MessageCreateHandler.SaveHistory ∈ (h, fs, warning ++ fx).2)).
  { intros fx Hfx. simpl. split; [done|]. split; [done|]. left.
    split; [done|]. split; [done|].
    apply not_saved. by rewrite existsb_app, Hwarning, Hfx. }
  destruct (head args ≫= AddHistoryCommand.parseInt) as [numMessages|] eqn:Hnum.
  2:{ assert (match head args with
              | Some numMessagesStr => AddHistoryCommand.parseInt numMessagesStr
              | None => None
              end = None) as -> by (by destruct (head args)).
      by apply Hunchanged. }
  assert (match head args with
          | Some numMessagesStr => AddHistoryCommand.parseInt numMessagesStr
          | None => None
          end = Some numMessages) as -> by (by destruct (head args)).
  destruct ((numMessages <=? 0)%Z || (200 <? numMessages)%Z); [by apply Hunchanged|].
  destruct (fetchMessages (numMessages + 1)%Z) as [fetchedMessages|].
  2:{ rewrite <- app_assoc. by apply Hunchanged. }
  set (recent := AddHistoryCommand.recentUserMessages cfg messageId clientUserId
                   fetchedMessages).
  destruct (length recent =? 0); [rewrite <- app_assoc; by apply Hunchanged|].
  fold existing.
  set (new := AddHistoryCommand.newUniqueMessages existing recent).
  destruct (length new =? 0) eqn:Hnew; [rewrite <- app_assoc; by apply Hunchanged|].
  set (combinedHistory := if (0 <? MAX_HISTORY_SIZE cfg)%Z
                          then take (Z.to_nat (MAX_HISTORY_SIZE cfg)) (new ++ existing)
                          else new ++ existing).
  simpl. unfold HistoryManager.updateChannelHistory.
  assert (Hstored : HistoryManager.getChannelHistory (<[channelId:=combinedHistory]> h)
                      channelId = combinedHistory).
  { unfold HistoryManager.getChannelHistory. by rewrite lookup_insert_eq. }
  split.
  { intros other Hother. unfold HistoryManager.getChannelHistory.
    by rewrite lookup_insert_ne. }
  split; [done|]. right. exists new. rewrite Hstored.
  split; [by destruct new|]. split.
  { apply Forall_forall. intros m Hm. split.
    - pose proof (newUniqueMessages_users cfg messageId clientUserId fetchedMessages
                    existing) as Hu.
      rewrite Forall_forall in Hu. by apply Hu.
    - pose proof (newUniqueMessages_fresh existing recent) as Hf.
      rewrite Forall_forall in Hf. by apply Hf. }
  split; [done|]. split.
  { subst combinedHistory. destruct (0 <? MAX_HISTORY_SIZE cfg)%Z.
    - by rewrite length_take, length_app.
    - by rewrite length_app. }
  split; [done|].
  rewrite !elem_of_app. right. by repeat constructor.
Qed.
